(** * RRT* mission planner: shallow embedding of [src/src/rrt_star.py]
      and of its caller [scripts/replan.py]

    The planner class [RRTStar] is embedded as follows.

    - Python floats are modelled by rationals [Q]; [==], [<] and [>=] on
      floats become [Qeq_bool], [Qltb] and [Qle_bool].  A division whose
      divisor is zero leaves the finite floats: the embedding raises at the
      following [int()] conversion, as Python does on [inf] and [nan].
    - [np.linalg.norm] is built from a square-root function [fsqrt] that is a
      parameter of the development.
    - Shapely obstacles are objects with the two methods the code calls,
      [contains] and [intersects].
    - The grid is a [numpy] array with its shape; indexing wraps negative
      indices and raises [IndexError] out of range.
    - [self.parent] and [self.cost] are dictionaries ([gmap]); a missing key
      raises [KeyError].
    - Exceptions and non-termination are explicit: a computation yields
      [Ok v], [Raise e] or [OutOfFuel].
    - [random.random()] reads a tape of numbers, and every [while] loop
      without a bound of its own runs on a budget.

    The definitions come first: the data, the methods of the planner in the
    order of the source, the reference definitions and invariants the
    theorems are stated with, then the replanner [ReplanPath] that
    constructs and runs the planner.  The theorems follow, on the planner
    and then on the replanner, each group with runs of the model on concrete
    inputs. *)

From Stdlib Require Import ZArith QArith Qround List Bool Lia Lqa.
From stdpp Require Import base option list gmap.

Local Open Scope Z_scope.

(** ** Results of fallible computations *)

Inductive exn : Set :=
| IndexError
| KeyError
| ValueError
| OverflowError.

Inductive result (A : Type) : Type :=
| Ok (a : A)
| Raise (e : exn)
| OutOfFuel.

Arguments Ok {A} a.
Arguments Raise {A} e.
Arguments OutOfFuel {A}.

#[global] Instance result_ret : MRet result := fun _ a => Ok a.
#[global] Instance result_bind : MBind result := fun _ _ f m =>
  match m with
  | Ok a => f a
  | Raise e => Raise e
  | OutOfFuel => OutOfFuel
  end.
#[global] Instance result_fmap : FMap result := fun _ _ f m =>
  match m with
  | Ok a => Ok (f a)
  | Raise e => Raise e
  | OutOfFuel => OutOfFuel
  end.

Definition is_ok {A} (r : result A) : Prop :=
  match r with Ok _ => True | _ => False end.

(** ** Floats as rationals *)

Definition Qltb (a b : Q) : bool := negb (Qle_bool b a).

(** Python's [int(f)] on a finite float: truncation toward zero. *)
Definition Qtrunc (q : Q) : Z := Z.quot (Qnum q) (Zpos (Qden q)).

(** [int(a / s)] where [a] is a [numpy.float64]: the quotient by zero is
    [inf] or [nan], and [int] raises on both. *)
Definition int_of_quotient (a s : Q) : result Z :=
  if Qeq_bool s 0 then
    if Qeq_bool a 0 then Raise ValueError else Raise OverflowError
  else Ok (Qtrunc (a / s)).

(** ** Geometry *)

Definition point : Type := Q * Q.
Definition cell : Type := Z * Z.

Definition point_eqb (a b : point) : bool :=
  Qeq_bool (fst a) (fst b) && Qeq_bool (snd a) (snd b).

Definition psub (a b : point) : point := ((fst a - fst b)%Q, (snd a - snd b)%Q).
Definition padd (a b : point) : point := ((fst a + fst b)%Q, (snd a + snd b)%Q).
Definition pscale (a : point) (k : Q) : point := ((fst a * k)%Q, (snd a * k)%Q).
Definition pdiv (a : point) (k : Q) : point := ((fst a / k)%Q, (snd a / k)%Q).

Inductive geometry : Type :=
| Point (p : point)
| LineString (p1 p2 : point).

(** A Shapely geometry used as an obstacle, with the two predicates
    [_is_collision] calls on it. *)
Record obstacle : Type := {
  contains : geometry -> bool;
  intersects : geometry -> bool
}.

(** ** The cost grid: a two-dimensional [numpy] array *)

Record ndarray : Type := {
  shape0 : nat;                 (* rows *)
  shape1 : nat;                 (* columns *)
  item : nat -> nat -> Q        (* read below [shape0] and [shape1] only *)
}.

(** One axis of a [numpy] index: negative indices count from the end, and
    anything outside [-n, n) raises [IndexError]. *)
Definition np_axis (n : nat) (i : Z) : result nat :=
  if (0 <=? i) && (i <? Z.of_nat n) then Ok (Z.to_nat i)
  else if (- Z.of_nat n <=? i) && (i <? 0) then Ok (Z.to_nat (i + Z.of_nat n))
  else Raise IndexError.

Definition getitem (g : ndarray) (i j : Z) : result Q :=
  r ← np_axis (shape0 g) i;
  c ← np_axis (shape1 g) j;
  Ok (item g r c).

(** ** Bresenham rasterization: [RRTStar._bresenham] *)

(** [while x != x1] of the branch [dx > dy]. *)
Fixpoint loop_x (fuel : nat) (x1 dx dy sx sy : Z) (x y : Z) (err : Q)
    (line : list cell) : result (list cell) :=
  if x =? x1 then Ok line
  else
    match fuel with
    | O => OutOfFuel
    | S fuel' =>
        let line := line ++ [(x, y)] in
        let err := (err - inject_Z dy)%Q in
        let '(y, err) :=
          if Qltb err 0 then (y + sy, (err + inject_Z dx)%Q) else (y, err) in
        loop_x fuel' x1 dx dy sx sy (x + sx) y err line
    end.

(** [while y != y1] of the other branch. *)
Fixpoint loop_y (fuel : nat) (y1 dx dy sx sy : Z) (x y : Z) (err : Q)
    (line : list cell) : result (list cell) :=
  if y =? y1 then Ok line
  else
    match fuel with
    | O => OutOfFuel
    | S fuel' =>
        let line := line ++ [(x, y)] in
        let err := (err - inject_Z dx)%Q in
        let '(x, err) :=
          if Qltb err 0 then (x + sx, (err + inject_Z dy)%Q) else (x, err) in
        loop_y fuel' y1 dx dy sx sy x (y + sy) err line
    end.

Definition bresenham_fuel (fuel : nat) (start goal : cell) : result (list cell) :=
  let '(x0, y0) := start in
  let '(x1, y1) := goal in
  let dx := Z.abs (x1 - x0) in
  let dy := Z.abs (y1 - y0) in
  let sx := if x1 <? x0 then -1 else 1 in
  let sy := if y1 <? y0 then -1 else 1 in
  if dy <? dx then
    loop_x fuel x1 dx dy sx sy x0 y0 (inject_Z dx / 2)%Q []
  else
    loop_y fuel y1 dx dy sx sy x0 y0 (inject_Z dy / 2)%Q [].

(** The loops run for [max dx dy] rounds; [bresenham_spec] below shows
    that this budget is never exhausted. *)
Definition bresenham (start goal : cell) : result (list cell) :=
  bresenham_fuel
    (Z.to_nat (Z.max (Z.abs (fst goal - fst start)) (Z.abs (snd goal - snd start))))
    start goal.


(** ** The planner object

    The attributes [__init__] stores and never reassigns.  [grid_shape] is
    [grid.shape] and [goal_tolerance] is [step_size / 2]; the mutable
    attributes [nodes], [parent] and [cost] live in [tree] below. *)

Record RRTStar : Type := {
  start : point;
  goal : point;
  obstacles : list obstacle;
  grid : ndarray;
  max_iter : nat;
  step_size : Q;
  neighbor_radius : Q;
  grid_scale : Q;
  traversability_threshold : Q;
  simplify : bool
}.

Definition goal_tolerance (self : RRTStar) : Q := (step_size self / 2)%Q.

(** [self.nodes], [self.parent] and [self.cost]. *)
Record tree : Type := {
  nodes : list point;
  parent : gmap nat (option nat);
  cost : gmap nat Q
}.

(** The state a run of [find_path] threads: the tree, the random numbers
    still to be drawn (each in [0, 1), as [random.random()] returns them),
    and a ghost history with the tree as it stood right after each
    assignment to [self.parent]. *)
Record world : Type := {
  w_tree : tree;
  w_tape : list Q;
  w_trace : list tree
}.

(** State and exceptions: the state survives a raise, as the planner
    object does. *)
Definition M (A : Type) : Type := world -> result A * world.

Definition pure {A} (a : A) : M A := fun w => (Ok a, w).
#[global] Instance M_ret : MRet M := @pure.
#[global] Instance M_bind : MBind M := fun _ _ f m w =>
  match m w with
  | (Ok a, w') => f a w'
  | (Raise e, w') => (Raise e, w')
  | (OutOfFuel, w') => (OutOfFuel, w')
  end.

Definition lift {A} (r : result A) : M A := fun w => (r, w).
Definition skip : M unit := pure tt.
Definition get_tree : M tree := fun w => (Ok (w_tree w), w).

(** [self.nodes.append(p)] *)
Definition nodes_append (p : point) : M unit := fun w =>
  let t := w_tree w in
  (Ok tt,
   {| w_tree := {| nodes := nodes t ++ [p]; parent := parent t; cost := cost t |};
      w_tape := w_tape w; w_trace := w_trace w |}).

(** [self.parent[i] = p], recorded in the history. *)
Definition set_parent (i p : nat) : M unit := fun w =>
  let t := w_tree w in
  let t' := {| nodes := nodes t; parent := <[i := Some p]> (parent t); cost := cost t |} in
  (Ok tt, {| w_tree := t'; w_tape := w_tape w; w_trace := t' :: w_trace w |}).

(** [self.cost[i] = c] *)
Definition set_cost (i : nat) (c : Q) : M unit := fun w =>
  let t := w_tree w in
  (Ok tt,
   {| w_tree := {| nodes := nodes t; parent := parent t; cost := <[i := c]> (cost t) |};
      w_tape := w_tape w; w_trace := w_trace w |}).

(** [self.cost[i]], [self.parent[i]] and [self.nodes[i]] *)
Definition cost_at (t : tree) (i : nat) : result Q :=
  match cost t !! i with Some c => Ok c | None => Raise KeyError end.
Definition parent_at (t : tree) (i : nat) : result (option nat) :=
  match parent t !! i with Some p => Ok p | None => Raise KeyError end.
Definition node_at (t : tree) (i : nat) : result point :=
  match nodes t !! i with Some p => Ok p | None => Raise IndexError end.

(** [random.random()]: the next number of the tape.  A run that needs more
    numbers than the tape holds is cut short with [OutOfFuel]. *)
Definition random : M Q := fun w =>
  match w_tape w with
  | [] => (OutOfFuel, w)
  | u :: tape =>
      (Ok u, {| w_tree := w_tree w; w_tape := tape; w_trace := w_trace w |})
  end.

(** [random.uniform(a, b)] is [a + (b - a) * random.random()]. *)
Definition uniform (a b : Q) : M Q :=
  u ← random; pure (a + (b - a) * u)%Q.

(** [min(l)] and [l.index(v)] on a list of floats. *)
Definition py_min (l : list Q) : result Q :=
  match l with
  | [] => Raise ValueError
  | x :: xs => Ok (fold_left (fun m y => if Qltb y m then y else m) xs x)
  end.

Fixpoint py_index (v : Q) (l : list Q) : result nat :=
  match l with
  | [] => Raise ValueError
  | x :: xs => if Qeq_bool x v then Ok O else S <$> py_index v xs
  end.

(** ** Planners to run the model on *)

(** A square root to three decimals. *)
Definition approx_sqrt (q : Q) : Q :=
  (inject_Z (Z.sqrt (Qfloor (q * 1000000))) / 1000)%Q.

Definition const_grid (rows cols : nat) (v : Q) : ndarray :=
  {| shape0 := rows; shape1 := cols; item := fun _ _ => v |}.

(** Three by three, cost 1 in the last cell [grid[2, 2]] and 0 elsewhere. *)
Definition corner_grid : ndarray :=
  {| shape0 := 3; shape1 := 3;
     item := fun i j => if Nat.eqb i 2 && Nat.eqb j 2 then 1%Q else 0%Q |}.

(** A planner without obstacles, with the defaults of [__init__] except
    for [step_size] and [neighbor_radius]. *)
Definition planner_on (g : ndarray) (iters : nat) (s t : point) : RRTStar :=
  {| start := s; goal := t; obstacles := []; grid := g; max_iter := iters;
     step_size := 1%Q; neighbor_radius := 2%Q; grid_scale := 1%Q;
     traversability_threshold := (3 # 4)%Q; simplify := true |}.

(** Costs 1 everywhere: every cell is at or above the threshold. *)
Definition costly_planner : RRTStar :=
  planner_on (const_grid 3 3 1%Q) 10 ((1 # 2)%Q, (1 # 2)%Q) ((5 # 2)%Q, (5 # 2)%Q).

Definition corner_planner : RRTStar :=
  planner_on corner_grid 10 ((1 # 2)%Q, (1 # 2)%Q) ((5 # 2)%Q, (5 # 2)%Q).

(** Ten by ten, cost 0: the goal is one step from the start, or eight. *)
Definition near_planner : RRTStar :=
  planner_on (const_grid 10 10 0%Q) 3 ((1 # 2)%Q, (1 # 2)%Q) ((3 # 2)%Q, (1 # 2)%Q).

Definition far_planner : RRTStar :=
  planner_on (const_grid 10 10 0%Q) 2 ((1 # 2)%Q, (1 # 2)%Q) ((17 # 2)%Q, (1 # 2)%Q).

(** A planner whose third round finds a shorter way to the second node:
    start in the middle of a ten by ten grid of cost [v], neighbours within
    6/5. *)
Definition rewire_planner (v : Q) : RRTStar :=
  {| start := (5%Q, 5%Q); goal := ((19 # 2)%Q, (19 # 2)%Q); obstacles := [];
     grid := const_grid 10 10 v; max_iter := 3;
     step_size := 1%Q; neighbor_radius := (6 # 5)%Q; grid_scale := 1%Q;
     traversability_threshold := (3 # 4)%Q; simplify := true |}.

(** Three rounds, each with a uniform draw of the sample: targets (5, 9),
    (9, 6) and (5.4, 5.4). *)
Definition rewire_tape : list Q :=
  [1 # 2; 1 # 2; 9 # 10; 1 # 2; 9 # 10; 3 # 5; 1 # 2; 27 # 50; 27 # 50]%Q.

(** Two rows and five columns, cost 0. *)
Definition wide_planner : RRTStar :=
  planner_on (const_grid 2 5 0%Q) 10 ((1 # 2)%Q, (1 # 2)%Q) ((9 # 2)%Q, (1 # 2)%Q).

Definition straight_path : list point :=
  [((1 # 2)%Q, (1 # 2)%Q); ((3 # 2)%Q, (1 # 2)%Q); ((5 # 2)%Q, (1 # 2)%Q)].

Definition bent_path : list point :=
  [((1 # 2)%Q, (1 # 2)%Q); ((7 # 2)%Q, (3 # 2)%Q); ((9 # 2)%Q, (1 # 2)%Q)].

(** The tree of [near_planner] after its first node is added. *)
Definition two_node_world : world :=
  let t := {| nodes := [((1 # 2)%Q, (1 # 2)%Q); ((3 # 2)%Q, (1 # 2)%Q)];
              parent := <[1%nat := Some O]> {[ O := None ]};
              cost := <[1%nat := 1%Q]> {[ O := 0%Q ]} |} in
  {| w_tree := t; w_tape := []; w_trace := [t] |}.


(** An obstacle for the runs: the axis-parallel box from [lo] to [hi],
    which tests a segment at its two end points. *)
Definition in_box_q (lo hi p : point) : bool :=
  Qle_bool (fst lo) (fst p) && Qle_bool (fst p) (fst hi)
  && Qle_bool (snd lo) (snd p) && Qle_bool (snd p) (snd hi).

Definition box (lo hi : point) : obstacle :=
  {| contains := fun g =>
       match g with
       | Point p => in_box_q lo hi p
       | LineString a b => in_box_q lo hi a && in_box_q lo hi b
       end;
     intersects := fun g =>
       match g with
       | Point p => in_box_q lo hi p
       | LineString a b => in_box_q lo hi a || in_box_q lo hi b
       end |}.
Section Planner.

Variable fsqrt : Q -> Q.
Variable self : RRTStar.

(** [np.linalg.norm(v)] on a vector of two coordinates. *)
Definition norm (v : point) : Q := fsqrt (fst v * fst v + snd v * snd v)%Q.

(** [(int(p[0] / self.grid_scale), int(p[1] / self.grid_scale))] *)
Definition to_cell (p : point) : result cell :=
  x ← int_of_quotient (fst p) (grid_scale self);
  y ← int_of_quotient (snd p) (grid_scale self);
  Ok (x, y).

(** The [for point in bres_line] loop of [_is_collision]: a cell with
    [0 < x < shape[1]] and [0 < y < shape[0]] ends the loop ([break]);
    on any other cell [grid[x - 1, y - 1]] is read and compared with the
    threshold. *)
Fixpoint scan_line (line : list cell) : result bool :=
  match line with
  | [] => Ok false
  | (px, py) :: rest =>
      if (0 <? px) && (px <? Z.of_nat (shape1 (grid self)))
         && (0 <? py) && (py <? Z.of_nat (shape0 (grid self)))
      then Ok false
      else
        v ← getitem (grid self) (px - 1) (py - 1);
        if Qle_bool (traversability_threshold self) v then Ok true
        else scan_line rest
  end.

(** [RRTStar._is_collision] *)
Definition is_collision (point1 : point) (point2 : option point) : result bool :=
  let geom :=
    match point2 with
    | None => Point point1
    | Some p2 => LineString point1 p2
    end in
  if existsb (fun ob => contains ob geom || intersects ob geom) (obstacles self)
  then Ok true
  else
    match point2 with
    | None => Ok false
    | Some p2 =>
        p1_grid ← to_cell point1;
        p2_grid ← to_cell p2;
        bres_line ← bresenham p1_grid p2_grid;
        scan_line bres_line
    end.

(** [RRTStar._get_grid_cost] *)
Definition get_grid_cost (p : point) : result Q :=
  i ← int_of_quotient (snd p) (grid_scale self);
  j ← int_of_quotient (fst p) (grid_scale self);
  let i := Z.min i (Z.of_nat (shape0 (grid self)) - 1) in
  let j := Z.min j (Z.of_nat (shape1 (grid self)) - 1) in
  let i := Z.max 0 i in
  let j := Z.max 0 j in
  getitem (grid self) i j.

(** The [for x, y in cells] loop of [_path_cost], on the accumulators
    [total_cost] and [valid_cells]. *)
Fixpoint sum_cells (cells : list cell) (total_cost : Q) (valid_cells : nat)
    : result (Q * nat) :=
  match cells with
  | [] => Ok (total_cost, valid_cells)
  | (x, y) :: rest =>
      if (0 <=? y) && (y <? Z.of_nat (shape0 (grid self)))
         && (0 <=? x) && (x <? Z.of_nat (shape1 (grid self)))
      then
        v ← getitem (grid self) y x;
        sum_cells rest (total_cost + v)%Q (S valid_cells)
      else sum_cells rest total_cost valid_cells
  end.

(** [RRTStar._path_cost] *)
Definition path_cost (a b : point) : result Q :=
  let distance := norm (psub b a) in
  start_grid ← to_cell a;
  end_grid ← to_cell b;
  cells ← bresenham start_grid end_grid;
  '(total_cost, valid_cells) ← sum_cells cells 0%Q O;
  let avg_cost :=
    if (0 <? valid_cells)%nat then (total_cost / inject_Z (Z.of_nat valid_cells))%Q
    else 0%Q in
  Ok (distance * (1 + avg_cost))%Q.

(** [RRTStar._sample_point]: rejection sampling over the grid extent. *)
Fixpoint sample_point (fuel : nat) : M point :=
  match fuel with
  | O => lift OutOfFuel
  | S fuel' =>
      x ← uniform 0 (inject_Z (Z.of_nat (shape1 (grid self))) * grid_scale self)%Q;
      y ← uniform 0 (inject_Z (Z.of_nat (shape0 (grid self))) * grid_scale self)%Q;
      let p : point := (x, y) in
      c ← lift (get_grid_cost p);
      if Qltb c (traversability_threshold self) then
        b ← lift (is_collision p None);
        if negb b then pure p else sample_point fuel'
      else sample_point fuel'
  end.

(** [RRTStar._nearest_node] *)
Definition nearest_node (t : tree) (p : point) : result nat :=
  let distances := map (fun node => norm (psub node p)) (nodes t) in
  m ← py_min distances;
  py_index m distances.

(** [RRTStar._steer].  The division is reached with a zero [distance] only
    when [step_size] is not positive; the quotient is then not a finite
    float and the next [int()] conversion of the point raises, which the
    embedding does here. *)
Definition steer (from target : point) : result point :=
  let direction := psub target from in
  let distance := norm direction in
  if Qltb distance (step_size self) then Ok target
  else if Qeq_bool distance 0 then Raise ValueError
  else Ok (padd from (pscale (pdiv direction distance) (step_size self))).

(** [RRTStar._get_near_nodes]: the comprehension over
    [enumerate(self.nodes)], from index [i] on. *)
Fixpoint near_from (i : nat) (l : list point) (new_point : point) : list nat :=
  match l with
  | [] => []
  | node :: rest =>
      let d := norm (psub node new_point) in
      if Qltb d (neighbor_radius self) && Qltb 0 d
      then i :: near_from (S i) rest new_point
      else near_from (S i) rest new_point
  end.

Definition get_near_nodes (t : tree) (new_point : point) : list nat :=
  near_from O (nodes t) new_point.

(** ** Path simplification: [RRTStar._simplify_path] *)

(** [l[-1]] *)
Definition py_last (l : list point) : result point :=
  match last l with Some p => Ok p | None => Raise IndexError end.

(** The [for goal in path[idx:]] loop.  [anchor] is [new_path[-1]], which
    the loop leaves alone until it breaks; the result is [new_path] and
    [idx] when the loop is left. *)
Fixpoint simplify_scan (anchor final : point) (goals : list point)
    (start : point) (idx : nat) (new_path : list point)
    : result (list point * nat) :=
  match goals with
  | [] => Ok (new_path, idx)
  | goal :: rest =>
      b ← is_collision anchor (Some goal);
      if negb b then
        let start := goal in
        let idx := S idx in
        if point_eqb start final then Ok (new_path ++ [start], idx)
        else simplify_scan anchor final rest start idx new_path
      else Ok (new_path ++ [start], idx)
  end.

(** The [while tuple(new_path[-1]) != tuple(path[-1])] loop. *)
Fixpoint simplify_loop (fuel : nat) (path new_path : list point) (idx : nat)
    : result (list point) :=
  anchor ← py_last new_path;
  final ← py_last path;
  if point_eqb anchor final then Ok new_path
  else
    match fuel with
    | O => OutOfFuel
    | S fuel' =>
        '(new_path', idx') ←
          simplify_scan anchor final (drop idx path) anchor idx new_path;
        simplify_loop fuel' path new_path' idx'
    end.

Definition simplify_path (fuel : nat) (path : list point) : result (list point) :=
  match path with
  | [] => Raise IndexError
  | p0 :: _ => simplify_loop fuel path [p0] 1%nat
  end.

(** ** Path reconstruction: [RRTStar._reconstruct_path] *)

(** [while current_idx is not None] *)
Fixpoint walk_parents (fuel : nat) (t : tree) (current_idx : option nat)
    (path : list point) : result (list point) :=
  match current_idx with
  | None => Ok path
  | Some i =>
      match fuel with
      | O => OutOfFuel
      | S fuel' =>
          p ← node_at t i;
          next ← parent_at t i;
          walk_parents fuel' t next (path ++ [p])
      end
  end.

Definition reconstruct_path (fuel : nat) (t : tree) (goal_idx : nat)
    : result (list point) :=
  path ← walk_parents fuel t (Some goal_idx) [];
  if simplify self then simplify_path fuel (rev path) else Ok (rev path).

(** ** The main loop: [RRTStar.find_path] *)

(** The validity test of a candidate:
    [not self._is_collision(new_point)
     or self._get_grid_cost(new_point) < self.traversability_threshold]. *)
Definition candidate_valid (new_point : point) : result bool :=
  b ← is_collision new_point None;
  if negb b then Ok true
  else
    c ← get_grid_cost new_point;
    Ok (Qltb c (traversability_threshold self)).

(** The inner [while True]: sample, steer, test.  It yields [nearest_idx],
    [nearest] and the accepted [new_point]. *)
Fixpoint propose (fuel : nat) : M (nat * point * point) :=
  match fuel with
  | O => lift OutOfFuel
  | S fuel' =>
      u ← random;
      rand_point ← (if Qltb u (1 # 10) then pure (goal self) else sample_point fuel');
      t ← get_tree;
      nearest_idx ← lift (nearest_node t rand_point);
      nearest ← lift (node_at t nearest_idx);
      new_point ← lift (steer nearest rand_point);
      ok ← lift (candidate_valid new_point);
      if (ok : bool) then pure (nearest_idx, nearest, new_point) else propose fuel'
  end.

(** The [for idx in near_nodes] loop that chooses the parent. *)
Fixpoint choose_parent (t : tree) (new_point : point) (near_nodes : list nat)
    (min_cost : Q) (min_parent : nat) : result (Q * nat) :=
  match near_nodes with
  | [] => Ok (min_cost, min_parent)
  | idx :: rest =>
      node ← node_at t idx;
      b ← is_collision node (Some new_point);
      if negb b then
        c ← cost_at t idx;
        pc ← path_cost node new_point;
        let cost := (c + pc)%Q in
        if Qltb cost min_cost then choose_parent t new_point rest cost idx
        else choose_parent t new_point rest min_cost min_parent
      else choose_parent t new_point rest min_cost min_parent
  end.

(** The [for idx in near_nodes] loop that rewires the tree. *)
Fixpoint rewire (new_idx : nat) (new_point : point) (min_parent : nat)
    (near_nodes : list nat) : M unit :=
  match near_nodes with
  | [] => pure tt
  | idx :: rest =>
      if Nat.eqb idx min_parent then rewire new_idx new_point min_parent rest
      else
        t ← get_tree;
        node ← lift (node_at t idx);
        cn ← lift (cost_at t new_idx);
        pc ← lift (path_cost new_point node);
        let new_cost := (cn + pc)%Q in
        ci ← lift (cost_at t idx);
        (if Qltb new_cost ci then
           b ← lift (is_collision new_point (Some node));
           if negb b then
             set_parent idx new_idx;;
             set_cost idx new_cost
           else skip
         else skip);;
        rewire new_idx new_point min_parent rest
  end.

(** The goal test at the end of an iteration; [Some path] is the value
    [find_path] returns from inside its loop. *)
Definition connect_goal (fuel : nat) (new_idx : nat) (new_point : point)
    : M (option (list point)) :=
  if Qltb (norm (psub new_point (goal self))) (goal_tolerance self) then
    b ← lift (is_collision new_point (Some (goal self)));
    if negb b then
      t ← get_tree;
      let goal_idx := length (nodes t) in
      nodes_append (goal self);;
      set_parent goal_idx new_idx;;
      t ← get_tree;
      cn ← lift (cost_at t new_idx);
      pc ← lift (path_cost new_point (goal self));
      set_cost goal_idx (cn + pc)%Q;;
      t ← get_tree;
      path ← lift (reconstruct_path fuel t goal_idx);
      pure (Some path)
    else pure None
  else pure None.

(** The part of an iteration after the candidate is accepted. *)
Definition extend (fuel : nat) (nearest_idx : nat) (nearest new_point : point)
    : M (option (list point)) :=
  b ← lift (is_collision nearest (Some new_point));
  if negb b then
    t ← get_tree;
    let new_idx := length (nodes t) in
    nodes_append new_point;;
    t ← get_tree;
    cn ← lift (cost_at t nearest_idx);
    pc ← lift (path_cost nearest new_point);
    let near_nodes := get_near_nodes t new_point in
    '(min_cost, min_parent) ←
      lift (choose_parent t new_point near_nodes (cn + pc)%Q nearest_idx);
    set_parent new_idx min_parent;;
    set_cost new_idx min_cost;;
    rewire new_idx new_point min_parent near_nodes;;
    connect_goal fuel new_idx new_point
  else pure None.

(** One round of [for _ in range(self.max_iter)]. *)
Definition iteration (fuel : nat) : M (option (list point)) :=
  '(nearest_idx, nearest, new_point) ← propose fuel;
  extend fuel nearest_idx nearest new_point.

Fixpoint find_path_loop (fuel : nat) (iters : nat) : M (option (list point)) :=
  match iters with
  | O => pure None
  | S iters' =>
      r ← iteration fuel;
      match r with
      | Some path => pure (Some path)
      | None => find_path_loop fuel iters'
      end
  end.

(** [RRTStar.find_path]; [fuel] bounds each of its unbounded loops. *)
Definition find_path (fuel : nat) : M (option (list point)) :=
  find_path_loop fuel (max_iter self).

(** The planner as [__init__] leaves it. *)
Definition init_tree : tree :=
  {| nodes := [start self]; parent := {[ O := None ]}; cost := {[ O := 0%Q ]} |}.

Definition init_world (tape : list Q) : world :=
  {| w_tree := init_tree; w_tape := tape; w_trace := [init_tree] |}.

(** ** Reference definitions

    Written from the specification's wording, for comparison with the code
    above. *)

(** The cell of a point once the cell size is known to be non-zero. *)
Definition cell_of (p : point) : cell :=
  (Qtrunc (fst p / grid_scale self), Qtrunc (snd p / grid_scale self)).

(** "cells of the segment that fall within grid bounds" *)
Definition in_bounds (c : cell) : bool :=
  (0 <=? snd c) && (snd c <? Z.of_nat (shape0 (grid self)))
  && (0 <=? fst c) && (fst c <? Z.of_nat (shape1 (grid self))).

(** The grid value of an in-bounds cell [(x, y)]: row [y], column [x]. *)
Definition cell_cost (c : cell) : Q :=
  item (grid self) (Z.to_nat (snd c)) (Z.to_nat (fst c)).

Definition Qsum (l : list Q) : Q := fold_right Qplus 0%Q l.

(** "the average is computed over the Bresenham-rasterized cells of the
    segment that fall within grid bounds (0 if no valid cells are
    traversed)" *)
Definition average_grid_cost (cells : list cell) : Q :=
  match List.filter in_bounds cells with
  | [] => 0%Q
  | valid =>
      (Qsum (map cell_cost valid) / inject_Z (Z.of_nat (length valid)))%Q
  end.

(** "each cell is a float in [0,1]": the lower bound is what the proofs
    use. *)
Definition grid_nonneg : Prop :=
  forall i j : nat,
    (i < shape0 (grid self))%nat -> (j < shape1 (grid self))%nat ->
    (0 <= item (grid self) i j)%Q.

(** "clamp(v, lo, hi)" *)
Definition clamp (v lo hi : Z) : Z :=
  if v <? lo then lo else if hi <? v then hi else v.

(** "strictly inside grid bounds" *)
Definition strictly_inside (c : cell) : bool :=
  (0 <? fst c) && (fst c <? Z.of_nat (shape1 (grid self)))
  && (0 <? snd c) && (snd c <? Z.of_nat (shape0 (grid self))).

(** "every consecutive pair of points passes [blocked(a, b) == false]" *)
Definition segments_free (path : list point) : Prop :=
  forall (i : nat) (a b : point),
    path !! i = Some a -> path !! S i = Some b ->
    is_collision a (Some b) = Ok false.

(** "following parent pointers from any node reaches the root (index 0,
    whose parent is None) in finitely many steps": [climb parent n i] is
    the node reached from [i] after [n] parent pointers. *)
Fixpoint climb (parent : gmap nat (option nat)) (n : nat) (i : nat) : option nat :=
  match n with
  | O => Some i
  | S n' =>
      match parent !! i with
      | Some (Some p) => climb parent n' p
      | _ => None
      end
  end.

Definition acyclic (t : tree) : Prop :=
  parent t !! O = Some None
  /\ forall i : nat, (i < length (nodes t))%nat ->
                     exists n : nat, climb (parent t) n i = Some O.

(** ** Invariants used in the proofs *)

(** The state of the simplification loop: [new_path] ends with
    [path[idx - 1]]. *)
Record simplify_inv (path new_path : list point) (idx : nat) : Prop := {
  inv_idx : (1 <= idx <= length path)%nat;
  inv_anchor : exists a, last new_path = Some a /\ path !! (idx - 1)%nat = Some a;
  inv_head : head new_path = head path;
  inv_free : segments_free new_path;
  inv_len : (length new_path <= idx)%nat
}.

(** What the simplified path owes the raw path. *)
Definition simplify_post (path res : list point) : Prop :=
  head res = head path
  /\ (exists a f, last res = Some a /\ last path = Some f /\ point_eqb a f = true)
  /\ segments_free res
  /\ (length res <= length path)%nat.

(** The parent chain of [i] ends at the root. *)
Inductive reaches_root (par : gmap nat (option nat)) : nat -> Prop :=
| reaches_root_here : par !! O = Some None -> reaches_root par O
| reaches_root_step (i p : nat) :
    par !! i = Some (Some p) -> reaches_root par p -> reaches_root par i.

(** The tree between two iterations: every node has a parent entry and a
    cost entry, stored costs do not decrease from parent to child, and every
    parent chain ends at the root. *)
Record tree_inv (t : tree) : Prop := {
  ti_nonempty : (0 < length (nodes t))%nat;
  ti_parent_dom : forall i, is_Some (parent t !! i) <-> (i < length (nodes t))%nat;
  ti_cost_dom : forall i, is_Some (cost t !! i) <-> (i < length (nodes t))%nat;
  ti_mono : forall i p, parent t !! i = Some (Some p) ->
                        exists ci cp, cost t !! i = Some ci /\ cost t !! p = Some cp
                                      /\ (cp <= ci)%Q;
  ti_reach : forall i, (i < length (nodes t))%nat -> reaches_root (parent t) i
}.

(** Weakest precondition of a computation: [Q] on a normal result, [E] on
    an exception or an exhausted budget. *)
Definition wp {A} (m : M A) (Q : A -> world -> Prop) (E : world -> Prop)
    (w : world) : Prop :=
  match m w with
  | (Ok a, w') => Q a w'
  | (_, w') => E w'
  end.

Definition trace_ok (w : world) : Prop := Forall acyclic (w_trace w).

(** A computation that leaves the tree and the history alone. *)
Definition tape_only {A} (m : M A) : Prop :=
  forall w : world,
    w_tree (m w).2 = w_tree w /\ w_trace (m w).2 = w_trace w.

(** [n] rounds of the main loop from [w] to [w'], none of which connects
    to the goal, raises or runs out of random numbers. *)
Inductive rounds_without_goal (fuel : nat) : nat -> world -> world -> Prop :=
| rounds_done (w : world) : rounds_without_goal fuel O w w
| rounds_next (n : nat) (w w1 w2 : world) :
    iteration fuel w = (Ok None, w1) ->
    rounds_without_goal fuel n w1 w2 ->
    rounds_without_goal fuel (S n) w w2.

(** Node 0 is the start and the only node without a parent, and every
    edge passed the collision check from parent to child. *)
Record edge_inv (t : tree) : Prop := {
  ei_root : nodes t !! O = Some (start self);
  ei_none : forall i, parent t !! i = Some None -> i = O;
  ei_free : forall i p,
      parent t !! i = Some (Some p) ->
      exists a b, nodes t !! p = Some a /\ nodes t !! i = Some b
                  /\ is_collision a (Some b) = Ok false
}.

(** "an ordered sequence of Point2D from start to goal" whose "every
    consecutive pair of points passes [blocked(a, b) == false]" *)
Definition sound_path (path : list point) : Prop :=
  head path = Some (start self)
  /\ (exists a, last path = Some a /\ point_eqb a (goal self) = true)
  /\ segments_free path.

(** ** Reference definitions for the rasterization *)

(** The number of steps along the longer axis between two cells. *)
Definition chebyshev (s g : cell) : Z :=
  Z.max (Z.abs (fst g - fst s)) (Z.abs (snd g - snd s)).

(** The rectangle of cells spanned by [s] and [g]. *)
Definition in_box (s g c : cell) : Prop :=
  Z.min (fst s) (fst g) <= fst c <= Z.max (fst s) (fst g)
  /\ Z.min (snd s) (snd g) <= snd c <= Z.max (snd s) (snd g).

(** The cross product of [g - s] and [c - s]: zero when [c] is on the line
    through [s] and [g], and [chebyshev s g] times the distance of [c] from
    that line, measured along the shorter axis, otherwise. *)
Definition cross (s g c : cell) : Z :=
  (fst g - fst s) * (snd c - snd s) - (snd g - snd s) * (fst c - fst s).

(** Two distinct cells that touch by a side or by a corner. *)
Definition king_move (a b : cell) : Prop :=
  a <> b /\ Z.abs (fst b - fst a) <= 1 /\ Z.abs (snd b - snd a) <= 1.

(** ** The grid extent *)

(** The rectangle [_sample_point] draws from: [shape[1] * grid_scale] wide
    and [shape[0] * grid_scale] high. *)
Definition extent_x : Q :=
  (inject_Z (Z.of_nat (shape1 (grid self))) * grid_scale self)%Q.
Definition extent_y : Q :=
  (inject_Z (Z.of_nat (shape0 (grid self))) * grid_scale self)%Q.

Definition in_extent (p : point) : Prop :=
  (0 <= fst p <= extent_x)%Q /\ (0 <= snd p <= extent_y)%Q.

(** A number [random.random()] may return. *)
Definition unit_interval (u : Q) : Prop := (0 <= u <= 1)%Q.

(** ** The bookkeeping of the tree *)

(** [self.parent] and [self.cost] have an entry for exactly the indices of
    [self.nodes], and every parent is such an index. *)
Record well_formed (t : tree) : Prop := {
  wf_nonempty : (0 < length (nodes t))%nat;
  wf_parent_dom : forall i, is_Some (parent t !! i) <-> (i < length (nodes t))%nat;
  wf_cost_dom : forall i, is_Some (cost t !! i) <-> (i < length (nodes t))%nat;
  wf_parent_lt : forall i p, parent t !! i = Some (Some p) ->
                             (p < length (nodes t))%nat
}.

(** Weakest precondition that tells exceptions apart: [Q] on a normal
    result, [E] on the exception raised; nothing is asked of a run cut
    short by its budget. *)
Definition wpx {A} (m : M A) (Q : A -> world -> Prop) (E : exn -> Prop)
    (w : world) : Prop :=
  match m w with
  | (Ok a, w') => Q a w'
  | (Raise e, _) => E e
  | (OutOfFuel, _) => True
  end.

(** The state between two rounds of the main loop, for a property [good]
    of the points and a property [ugood] of the random numbers. *)
Definition safe_state (good : point -> Prop) (ugood : Q -> Prop) (w : world) : Prop :=
  well_formed (w_tree w)
  /\ Forall good (nodes (w_tree w))
  /\ Forall ugood (w_tape w).

(** The stored cost of every node with a parent is at least the stored
    cost of the parent plus the cost of the edge between them. *)
Definition costs_cover_edges (t : tree) : Prop :=
  forall i p, parent t !! i = Some (Some p) ->
              exists (a b : point) (ci cp v : Q),
                nodes t !! p = Some a /\ nodes t !! i = Some b
                /\ cost t !! i = Some ci /\ cost t !! p = Some cp
                /\ path_cost a b = Ok v /\ (cp + v <= ci)%Q.

(** The planner with another list of obstacles. *)
Definition with_obstacles (obs : list obstacle) : RRTStar :=
  {| start := start self; goal := goal self; obstacles := obs; grid := grid self;
     max_iter := max_iter self; step_size := step_size self;
     neighbor_radius := neighbor_radius self; grid_scale := grid_scale self;
     traversability_threshold := traversability_threshold self;
     simplify := simplify self |}.

(** ** The caller: [ReplanPath] in [scripts/replan.py]

    [ReplanPath] builds a cost grid over the map, and replaces every
    segment of a mission path that hits an obstacle by a detour planned with
    [RRTStar].  Its methods are embedded below in the order the data flows:
    [_create_grid], [_split_ways], [_points_near_ref] and [fill_grid],
    [_reshape_grid], [_convert_obstacles], [_colides], [_rrt] and
    [replan_rrt].

    - The map data ([map_data.py] is not part of the sources) enters as the
      dictionary of node coordinates and the list of footways, each way
      being the list of the identifiers of its nodes.
    - [cKDTree.query] is the distance to the nearest reference point.
    - [shapely.transform] by [x - low] gives the obstacle that answers for a
      geometry as the original does for the geometry moved by [low].
    - A planner is constructed and run by the function [plan], which is
      given the planner object and the random numbers still to be drawn and
      returns the path and the numbers left; the theorems apply it to [run]
      below, which is [RRTStar(...).find_path()].
    - The plots ([visualize]) are left out. *)

(** [RRTStar.find_path] on a freshly constructed planner. *)
Definition run (fuel : nat) (tape : list Q) : result (option (list point)) * list Q :=
  ((find_path fuel (init_world tape)).1, w_tape (find_path fuel (init_world tape)).2).

(** A row [x, y, z] of the mission path, and [p[:2]]. *)
Definition point3 : Type := Q * Q * Q.
Definition xy (p : point3) : point := (p.1.1, p.1.2).

(** The attributes of [args] that [ReplanPath] reads. *)
Record Args : Type := {
  args_low : point;
  args_high : point;
  args_cell_size : Q;
  args_simplify_path : bool
}.

(** A two-dimensional array of floats by its rows; [width] is [shape[1]]. *)
Record table : Type := {
  width : nat;
  rows : list (list Q)
}.

(** [self.args], [self.grid] and [self.obstacles]. *)
Record ReplanPath : Type := {
  rp_args : Args;
  rp_grid : table;
  rp_obstacles : list obstacle
}.

(** The replanner object and the random numbers still to be drawn. *)
Record rworld : Type := {
  r_self : ReplanPath;
  r_tape : list Q
}.

(** *** The grid of points: [_create_grid] *)

(** [np.ceil(a / s).astype(int)].  With a cell size of zero the quotient
    is [inf] or [nan], whose conversion does not raise; the value taken here
    is the least integer of 64 bits, which makes [np.linspace] raise.  The
    properties below are stated for a positive cell size. *)
Definition ceil_astype_int (a s : Q) : Z :=
  if Qeq_bool s 0 then - 2 ^ 63 else Qceiling (a / s).

(** [np.linspace(a, b, num)]: [num] numbers from [a] in steps of
    [(b - a) / (num - 1)], the last of them set to [b]. *)
Definition linspace (a b : Q) (num : Z) : result (list Q) :=
  if num <? 0 then Raise ValueError
  else
    Ok (map (fun i : nat =>
               if (1 <? num) && (Z.of_nat i =? num - 1) then b
               else (a + inject_Z (Z.of_nat i) * ((b - a) / inject_Z (num - 1)))%Q)
            (seq 0 (Z.to_nat num))).

(** The rows [x, y, 0] of
    [np.pad(np.stack(np.meshgrid(xs, ys), axis=-1).reshape(-1, 2), ...)]:
    [y] varies slowest. *)
Definition create_grid (low high : point) (cell_size : Q) : result table :=
  xs ← linspace (fst low) (fst high) (ceil_astype_int (fst high - fst low) cell_size);
  ys ← linspace (snd low) (snd high) (ceil_astype_int (snd high - snd low) cell_size);
  Ok {| width := 3;
        rows := flat_map (fun y => map (fun x => [x; y; 0%Q]) xs) ys |}.

(** [ReplanPath.__init__] *)
Definition ReplanPath_init (args : Args) (obstacles : list obstacle)
    : result ReplanPath :=
  g ← create_grid (args_low args) (args_high args) (args_cell_size args);
  Ok {| rp_args := args; rp_grid := g; rp_obstacles := obstacles |}.

(** *** Points along the footways: [_split_ways] *)

(** [int(np.ceil(a / s))] on a [numpy.float64]: [int] raises on [inf] and
    on [nan]. *)
Definition int_ceil_quotient (a s : Q) : result Z :=
  if Qeq_bool s 0 then
    if Qeq_bool a 0 then Raise ValueError else Raise OverflowError
  else Ok (Qceiling (a / s)).

(** [points[n.id].ravel()[:2]] *)
Definition way_point (points : gmap nat point) (id : nat) : result point :=
  match points !! id with Some p => Ok p | None => Raise KeyError end.

(** The loop over [enumerate(zip(way.nodes, way.nodes[1:]))], from pair
    number [i] on. *)
Fixpoint split_way (points : gmap nat point) (max_dist : Q) (nodes : list nat)
    (i : nat) (waypoints : list point) : result (list point) :=
  match nodes with
  | n0 :: ((n1 :: _) as rest) =>
      point0 ← way_point points n0;
      point1 ← way_point points n1;
      let dist := norm (psub point1 point0) in
      let waypoints := if Nat.eqb i 0 then waypoints ++ [point0] else waypoints in
      if Qle_bool dist (1 # 1000) then
        split_way points max_dist rest (S i) (waypoints ++ [point1])
      else
        let vec := pdiv (psub point1 point0) dist in
        num ← int_ceil_quotient dist max_dist;
        let step := (dist / inject_Z num)%Q in
        split_way points max_dist rest (S i)
          (waypoints
           ++ map (fun j : nat =>
                     padd point0 (pscale vec ((inject_Z (Z.of_nat j) + 1) * step)%Q))
                  (seq 0 (Z.to_nat num)))
  | _ => Ok waypoints
  end.

(** [ReplanPath._split_ways] *)
Fixpoint split_ways (points : gmap nat point) (ways : list (list nat)) (max_dist : Q)
    (waypoints : list point) : result (list point) :=
  match ways with
  | [] => Ok waypoints
  | way :: rest =>
      waypoints ← split_way points max_dist way 0 waypoints;
      split_ways points rest max_dist waypoints
  end.

(** *** The costs of the grid points: [_points_near_ref] and [fill_grid] *)

(** The Euclidean distance of two rows. *)
Definition row_dist (a b : list Q) : Q :=
  fsqrt (fold_right Qplus 0%Q (zip_with (fun x y => (x - y) * (x - y))%Q a b)).

(** [ReplanPath._points_near_ref]: for every point the distance to the
    nearest reference point divided by [max_dist] when that distance is
    below [max_dist] (the point is in [mask]), and nothing otherwise. *)
Definition points_near_ref (points reference : list (list Q)) (max_dist : Q)
    : list (option Q) :=
  map (fun p =>
         match map (row_dist p) reference with
         | [] => None
         | d :: ds =>
             let m := fold_left (fun m y => if Qltb y m then y else m) ds d in
             if Qltb m max_dist then Some (m / max_dist)%Q else None
         end)
      points.

(** [ReplanPath.fill_grid], with [max_path_dist = 1] and the quadratic
    cost: a fourth column with the squared distance to the nearest footway
    point for the grid points less than 1 away from one, and 0.5 for the
    others.  Without a footway point [np.pad] raises on the empty array, and
    on a grid that has its fourth column already the query raises. *)
Definition fill_grid (rp : ReplanPath) (points : gmap nat point)
    (footways : list (list nat)) : result ReplanPath :=
  waypoints ← split_ways points footways (args_cell_size (rp_args rp)) [];
  match waypoints with
  | [] => Raise ValueError
  | _ =>
      let paths := map (fun p : point => [fst p; snd p; 0%Q]) waypoints in
      if negb (Nat.eqb (width (rp_grid rp)) 3) then Raise ValueError
      else
        let near := points_near_ref (rows (rp_grid rp)) paths 1 in
        let path_grid :=
          zip_with (fun row d =>
                      <[3%nat := match d with
                                 | Some t => ((t * t) / (1 * 1))%Q
                                 | None => (1 # 2)%Q
                                 end]> (row ++ [0%Q]))
                   (rows (rp_grid rp)) near in
        Ok {| rp_args := rp_args rp;
              rp_grid := {| width := 4; rows := path_grid |};
              rp_obstacles := rp_obstacles rp |}
  end.

(** *** The cost grid of the planner: [_reshape_grid] *)

(** [t[:, k]] *)
Definition column (t : table) (k : nat) : result (list Q) :=
  if (k <? width t)%nat then Ok (map (fun row => nth k row 0%Q) (rows t))
  else Raise IndexError.

(** [np.clip(v, lo, hi)] *)
Definition np_clip (v lo hi : Z) : Z := Z.min hi (Z.max v lo).

(** [grid[x_indices, y_indices] = c], one assignment after the other. *)
Fixpoint scatter (num_x num_y : nat) (x_indices y_indices : list Z) (c : list Q)
    (g : nat -> nat -> Q) : result (nat -> nat -> Q) :=
  match x_indices, y_indices, c with
  | x :: xs, y :: ys, v :: vs =>
      i ← np_axis num_x x;
      j ← np_axis num_y y;
      scatter num_x num_y xs ys vs
        (fun a b => if Nat.eqb a i && Nat.eqb b j then v else g a b)
  | _, _, _ => Ok g
  end.

(** [ReplanPath._reshape_grid].  The array is of single precision; as all
    floats here, a stored cost is the rational itself. *)
Definition reshape_grid (rp : ReplanPath) : result ndarray :=
  let low := args_low (rp_args rp) in
  let high := args_high (rp_args rp) in
  let cell_size := args_cell_size (rp_args rp) in
  num_x ← int_ceil_quotient (fst high - fst low) cell_size;
  num_y ← int_ceil_quotient (snd high - snd low) cell_size;
  if (num_x <? 0) || (num_y <? 0) then Raise ValueError
  else
    x ← column (rp_grid rp) 0;
    y ← column (rp_grid rp) 1;
    c ← column (rp_grid rp) 3;
    let x_indices :=
      map (fun x => np_clip (Qfloor ((x - fst low) / cell_size)) 0 (num_x - 1)) x in
    let y_indices :=
      map (fun y => np_clip (Qfloor ((y - snd low) / cell_size)) 0 (num_y - 1)) y in
    g ← scatter (Z.to_nat num_x) (Z.to_nat num_y) x_indices y_indices c
          (fun _ _ => 0%Q);
    Ok {| shape0 := Z.to_nat num_y; shape1 := Z.to_nat num_x;
          item := fun i j => g j i |}.

(** *** Obstacles in the frame of the grid: [_convert_obstacles] *)

Definition shift_geometry (g : geometry) (d : point) : geometry :=
  match g with
  | Point p => Point (padd p d)
  | LineString p1 p2 => LineString (padd p1 d) (padd p2 d)
  end.

(** [sh.transform(obstacle, lambda x: x - low)] *)
Definition transform (ob : obstacle) (low : point) : obstacle :=
  {| contains := fun g => contains ob (shift_geometry g low);
     intersects := fun g => intersects ob (shift_geometry g low) |}.

Definition convert_obstacles (rp : ReplanPath) (obstacles : list obstacle)
    : list obstacle :=
  map (fun ob => transform ob (args_low (rp_args rp))) obstacles.

(** *** Replanning: [_colides], [_rrt] and [replan_rrt] *)

(** [ReplanPath._colides] *)
Definition colides (path_seg : geometry) (obstacles : list obstacle) : bool :=
  existsb (fun ob => contains ob path_seg || intersects ob path_seg) obstacles.

(** The planner [_rrt] constructs: the arguments it passes, and the
    defaults of [RRTStar.__init__] for the others. *)
Definition rrt_planner (rp : ReplanPath) (start goal : point)
    (obst : list obstacle) (grid : ndarray) : RRTStar :=
  {| start := start; goal := goal; obstacles := obst; grid := grid;
     max_iter := 5000; step_size := (1 # 2)%Q; neighbor_radius := 1%Q;
     grid_scale := 1%Q; traversability_threshold := (3 # 4)%Q;
     simplify := args_simplify_path (rp_args rp) |}.

(** [path += self.args.low] and the column of zeros added by [np.hstack]. *)
Definition to_world (low : point) (p : point) : point3 :=
  ((fst p + fst low)%Q, (snd p + snd low)%Q, 0%Q).

(** [ReplanPath._rrt] *)
Definition rrt (plan : RRTStar -> list Q -> result (option (list point)) * list Q)
    (start goal : point) (obstacles : list obstacle) (w : rworld)
    : result (option (list point3)) * rworld :=
  let rp := r_self w in
  match reshape_grid rp with
  | Ok grid =>
      let obst := convert_obstacles rp obstacles in
      let rp := {| rp_args := rp_args rp; rp_grid := rp_grid rp;
                   rp_obstacles := obstacles |} in
      let rrt_star := rrt_planner rp start goal obst grid in
      let path := plan rrt_star (r_tape w) in
      let w' := {| r_self := rp; r_tape := path.2 |} in
      match path.1 with
      | Ok None => (Ok None, w')
      | Ok (Some path) => (Ok (Some (map (to_world (args_low (rp_args rp))) path)), w')
      | Raise e => (Raise e, w')
      | OutOfFuel => (OutOfFuel, w')
      end
  | Raise e => (Raise e, w)
  | OutOfFuel => (OutOfFuel, w)
  end.

(** [path[i]] *)
Definition path_row (path : list point3) (i : nat) : result point3 :=
  match path !! i with Some p => Ok p | None => Raise IndexError end.

(** [way[1:-1]] *)
Definition interior (way : list point3) : list point3 :=
  take (length way - 2) (drop 1 way).

(** The loop [for i in range(len(path) - 1)] of [replan_rrt] over the
    indices still to come: [Ok None] is the [return None] inside the loop,
    [Ok (Some new_path)] the list the loop leaves. *)
Fixpoint replan_loop (plan : RRTStar -> list Q -> result (option (list point)) * list Q)
    (path : list point3) (indices : list nat) (new_path : list point3) (w : rworld)
    : result (option (list point3)) * rworld :=
  match indices with
  | [] => (Ok (Some new_path), w)
  | i :: indices =>
      match path_row path i with
      | Ok start =>
          let new_path := new_path ++ [start] in
          match path_row path (S i) with
          | Ok goal =>
              let low := args_low (rp_args (r_self w)) in
              if colides (LineString (xy start) (xy goal)) (rp_obstacles (r_self w))
              then
                match rrt plan (psub (xy start) low) (psub (xy goal) low)
                        (rp_obstacles (r_self w)) w with
                | (Ok (Some way), w') =>
                    replan_loop plan path indices (new_path ++ interior way) w'
                | (Ok None, w') => (Ok None, w')
                | (Raise e, w') => (Raise e, w')
                | (OutOfFuel, w') => (OutOfFuel, w')
                end
              else replan_loop plan path indices new_path w
          | Raise e => (Raise e, w)
          | OutOfFuel => (OutOfFuel, w)
          end
      | Raise e => (Raise e, w)
      | OutOfFuel => (OutOfFuel, w)
      end
  end.

(** [ReplanPath.replan_rrt] *)
Definition replan_rrt (plan : RRTStar -> list Q -> result (option (list point)) * list Q)
    (path : list point3) (w : rworld) : result (option (list point3)) * rworld :=
  match replan_loop plan path (seq 0 (length path - 1)) [] w with
  | (Ok (Some new_path), w') =>
      match last path with
      | Some p => (Ok (Some (new_path ++ [p])), w')
      | None => (Raise IndexError, w')
      end
  | (r, w') => (r, w')
  end.

(** *** Reference definitions for the replanner *)

(** Two geometries with the same coordinates, as [==] on floats sees
    them. *)
Definition geometry_eqv (g1 g2 : geometry) : Prop :=
  match g1, g2 with
  | Point p, Point q => point_eqb p q = true
  | LineString a b, LineString c d => point_eqb a c = true /\ point_eqb b d = true
  | _, _ => False
  end.

(** An obstacle whose answers depend on the coordinates of a geometry
    only. *)
Definition respects_value (ob : obstacle) : Prop :=
  forall g1 g2, geometry_eqv g1 g2 ->
                contains ob g1 = contains ob g2 /\ intersects ob g1 = intersects ob g2.

(** No segment between two consecutive rows of the path hits an
    obstacle. *)
Definition free_chain (obstacles : list obstacle) (path : list point3) : Prop :=
  forall i u v, path !! i = Some u -> path !! S i = Some v ->
                colides (LineString (xy u) (xy v)) obstacles = false.

(** *** A replanner to run the model on *)

(** A wall along [x = c] below the height [h]: it is hit by the segments
    that reach the line [x = c] from an end point below [h]. *)
Definition wall (c h : Q) : obstacle :=
  {| contains := fun _ => false;
     intersects := fun g =>
       match g with
       | Point _ => false
       | LineString a b =>
           (Qle_bool (fst a) c && Qle_bool c (fst b)
            || Qle_bool (fst b) c && Qle_bool c (fst a))
           && (Qltb (snd a) h || Qltb (snd b) h)
       end |}.

(** Four by four cells of size 1 from the origin, no grid point filled in,
    and a wall along [x = 2] below 1.7. *)
Definition demo_args : Args :=
  {| args_low := (0%Q, 0%Q); args_high := (4%Q, 4%Q); args_cell_size := 1%Q;
     args_simplify_path := true |}.

Definition demo_replanner : ReplanPath :=
  {| rp_args := demo_args; rp_grid := {| width := 4; rows := [] |};
     rp_obstacles := [wall 2%Q (17 # 10)%Q] |}.

(** Two waypoints on either side of the wall, and two on the same side. *)
Definition blocked_path : list point3 :=
  [((3 # 2)%Q, (3 # 2)%Q, 7%Q); ((5 # 2)%Q, (3 # 2)%Q, 7%Q)].

Definition clear_path : list point3 :=
  [((1 # 2)%Q, (1 # 2)%Q, 7%Q); (1%Q, (1 # 2)%Q, 7%Q); (1%Q, 3%Q, 7%Q)].

(** Three samples that lead over the wall, then the goal. *)
Definition detour_tape : list Q :=
  [1 # 2; 3 # 8; 39 # 40;  1 # 2; 39 # 40; 1 # 2;  1 # 2; 39 # 40; 1 # 2;  0]%Q.

Definition demo_world (tape : list Q) : rworld :=
  {| r_self := demo_replanner; r_tape := tape |}.

(** One footway along the lower edge of the map, from node 0 to node 1. *)
Definition demo_points : gmap nat point :=
  <[1%nat := (2%Q, 0%Q)]> {[ O := (0%Q, 0%Q) ]}.

Definition demo_ways : list (list nat) := [[O; 1%nat]].

(** Random numbers for five thousand rounds toward the goal. *)
Definition goal_tape : list Q := repeat 0%Q 5000.

(** * Properties *)

(** ** Floats *)

Lemma Qltb_lt (a b : Q) : Qltb a b = true <-> (a < b)%Q.
Proof.
  unfold Qltb. rewrite negb_true_iff. split.
  - intros H. apply Qnot_le_lt. intros Hle. apply Qle_bool_iff in Hle. congruence.
  - intros H. destruct (Qle_bool b a) eqn:E; [|reflexivity].
    apply Qle_bool_iff in E. exfalso. apply (Qlt_not_le _ _ H E).
Qed.

Lemma Qltb_ge (a b : Q) : Qltb a b = false <-> (b <= a)%Q.
Proof.
  unfold Qltb. rewrite negb_false_iff. apply Qle_bool_iff.
Qed.

(** ** The result monad *)

Lemma bind_Ok {A B} (a : A) (f : A -> result B) : (Ok a ≫= f) = f a.
Proof. reflexivity. Qed.

Lemma bind_Ok_inv {A B} (m : result A) (f : A -> result B) (b : B) :
  m ≫= f = Ok b -> exists a, m = Ok a /\ f a = Ok b.
Proof. destruct m; simpl; intros H; try discriminate. eauto. Qed.

(** ** Bresenham *)

Lemma loop_x_spec (fuel : nat) (x1 dx dy sx sy : Z) :
  forall (x y : Z) (err : Q) (line : list cell),
    (sx = 1 /\ x <= x1) \/ (sx = -1 /\ x1 <= x) ->
    Z.abs (x1 - x) <= Z.of_nat fuel ->
    exists cells,
      loop_x fuel x1 dx dy sx sy x y err line = Ok (line ++ cells)
      /\ Forall (fun c : cell => fst c <> x1) cells
      /\ (x <> x1 -> head cells = Some (x, y)).
Proof.
  induction fuel as [|fuel IH]; intros x y err line Hdir Hfuel; simpl.
  - assert (x = x1) as -> by lia. rewrite Z.eqb_refl.
    exists []. rewrite app_nil_r. repeat split; [constructor | congruence].
  - destruct (Z.eqb_spec x x1) as [->|Hne].
    + exists []. rewrite app_nil_r. repeat split; [constructor | congruence].
    + assert (forall y' e', exists cells,
                 loop_x fuel x1 dx dy sx sy (x + sx) y' e' (line ++ [(x, y)])
                 = Ok (line ++ (x, y) :: cells)
                 /\ Forall (fun c : cell => fst c <> x1) cells) as Hstep.
      { intros y' e'. destruct (IH (x + sx) y' e' (line ++ [(x, y)]))
          as (cells & Heq & Hall & _); [lia | lia |].
        exists cells. rewrite Heq, <- app_assoc. auto. }
      destruct (Qltb (err - inject_Z dy) 0);
        (edestruct Hstep as (cells & Heq & Hall); rewrite Heq);
        exists ((x, y) :: cells);
        (split; [reflexivity | split; [constructor; assumption | reflexivity]]).
Qed.

Lemma loop_y_spec (fuel : nat) (y1 dx dy sx sy : Z) :
  forall (x y : Z) (err : Q) (line : list cell),
    (sy = 1 /\ y <= y1) \/ (sy = -1 /\ y1 <= y) ->
    Z.abs (y1 - y) <= Z.of_nat fuel ->
    exists cells,
      loop_y fuel y1 dx dy sx sy x y err line = Ok (line ++ cells)
      /\ Forall (fun c : cell => snd c <> y1) cells
      /\ (y <> y1 -> head cells = Some (x, y)).
Proof.
  induction fuel as [|fuel IH]; intros x y err line Hdir Hfuel; simpl.
  - assert (y = y1) as -> by lia. rewrite Z.eqb_refl.
    exists []. rewrite app_nil_r. repeat split; [constructor | congruence].
  - destruct (Z.eqb_spec y y1) as [->|Hne].
    + exists []. rewrite app_nil_r. repeat split; [constructor | congruence].
    + assert (forall x' e', exists cells,
                 loop_y fuel y1 dx dy sx sy x' (y + sy) e' (line ++ [(x, y)])
                 = Ok (line ++ (x, y) :: cells)
                 /\ Forall (fun c : cell => snd c <> y1) cells) as Hstep.
      { intros x' e'. destruct (IH x' (y + sy) e' (line ++ [(x, y)]))
          as (cells & Heq & Hall & _); [lia | lia |].
        exists cells. rewrite Heq, <- app_assoc. auto. }
      destruct (Qltb (err - inject_Z dx) 0);
        (edestruct Hstep as (cells & Heq & Hall); rewrite Heq);
        exists ((x, y) :: cells);
        (split; [reflexivity | split; [constructor; assumption | reflexivity]]).
Qed.

Lemma loop_y_done (fuel : nat) (dx dy sx sy x y : Z) (err : Q) (line : list cell) :
  loop_y fuel y dx dy sx sy x y err line = Ok line.
Proof. destruct fuel; simpl; rewrite Z.eqb_refl; reflexivity. Qed.

(** The rasterization always returns, starts at the start cell and never
    contains the goal cell. *)
Lemma bresenham_spec (s g : cell) :
  exists line,
    bresenham s g = Ok line
    /\ (s <> g -> head line = Some s /\ g ∉ line)
    /\ (s = g -> line = []).
Proof.
  destruct s as [x0 y0], g as [x1 y1]. unfold bresenham, bresenham_fuel. simpl.
  destruct (Z.ltb_spec (Z.abs (y1 - y0)) (Z.abs (x1 - x0))) as [Hlt|Hge].
  - edestruct (loop_x_spec (Z.to_nat (Z.max (Z.abs (x1 - x0)) (Z.abs (y1 - y0))))
                 x1 (Z.abs (x1 - x0)) (Z.abs (y1 - y0))
                 (if x1 <? x0 then -1 else 1) (if y1 <? y0 then -1 else 1)
                 x0 y0 (inject_Z (Z.abs (x1 - x0)) / 2)%Q [])
      as (cells & Heq & Hall & Hhd).
    + destruct (Z.ltb_spec x1 x0); lia.
    + lia.
    + exists cells. split; [exact Heq|]. split.
      * intros _. split; [apply Hhd; lia|].
        intros Hin. rewrite Forall_forall in Hall. apply Hall in Hin. simpl in Hin. congruence.
      * intros [= -> ->]. lia.
  - edestruct (loop_y_spec (Z.to_nat (Z.max (Z.abs (x1 - x0)) (Z.abs (y1 - y0))))
                 y1 (Z.abs (x1 - x0)) (Z.abs (y1 - y0))
                 (if x1 <? x0 then -1 else 1) (if y1 <? y0 then -1 else 1)
                 x0 y0 (inject_Z (Z.abs (y1 - y0)) / 2)%Q [])
      as (cells & Heq & Hall & Hhd).
    + destruct (Z.ltb_spec y1 y0); lia.
    + lia.
    + exists cells. split; [exact Heq|]. split.
      * intros Hne. assert (y0 <> y1) as Hy.
        { intros ->. assert (x0 = x1) by lia. congruence. }
        split; [apply Hhd; exact Hy|].
        intros Hin. rewrite Forall_forall in Hall. apply Hall in Hin. simpl in Hin. congruence.
      * intros [= -> ->]. rewrite loop_y_done in Heq. simpl in Heq. congruence.
Qed.

(** ** Grid access and edge cost *)

Lemma int_of_quotient_ok (a s : Q) :
  ~ (s == 0)%Q -> int_of_quotient a s = Ok (Qtrunc (a / s)).
Proof.
  intros Hs. unfold int_of_quotient.
  destruct (Qeq_bool s 0) eqn:E; [|reflexivity].
  apply Qeq_bool_iff in E. contradiction.
Qed.

Lemma to_cell_ok (p : point) :
  ~ (grid_scale self == 0)%Q -> to_cell p = Ok (cell_of p).
Proof.
  intros Hs. unfold to_cell, cell_of.
  rewrite !int_of_quotient_ok by assumption. reflexivity.
Qed.

Lemma np_axis_in_range (n : nat) (i : Z) :
  0 <= i < Z.of_nat n -> np_axis n i = Ok (Z.to_nat i).
Proof.
  intros [H0 Hn]. unfold np_axis.
  destruct (Z.leb_spec 0 i); [|lia]. destruct (Z.ltb_spec i (Z.of_nat n)); [|lia].
  reflexivity.
Qed.

Lemma getitem_in_bounds (c : cell) :
  in_bounds c = true -> getitem (grid self) (snd c) (fst c) = Ok (cell_cost c).
Proof.
  unfold in_bounds, getitem, cell_cost. rewrite !andb_true_iff.
  intros [[[H1 H2] H3] H4].
  apply Z.leb_le in H1, H3. apply Z.ltb_lt in H2, H4.
  rewrite !np_axis_in_range by lia. reflexivity.
Qed.

Lemma sum_cells_spec (cells : list cell) :
  forall (total : Q) (n : nat),
  exists total',
    sum_cells cells total n
    = Ok (total', (n + length (List.filter in_bounds cells))%nat)
    /\ (total' == total + Qsum (map cell_cost (List.filter in_bounds cells)))%Q.
Proof.
  induction cells as [|[x y] cells IH]; intros total n.
  - exists total. simpl. split; [f_equal; f_equal; lia | unfold Qsum; simpl; ring].
  - cbn [sum_cells List.filter].
    change ((0 <=? y) && (y <? Z.of_nat (shape0 (grid self)))
            && (0 <=? x) && (x <? Z.of_nat (shape1 (grid self))))
      with (in_bounds (x, y)).
    destruct (in_bounds (x, y)) eqn:Hin.
    + pose proof (getitem_in_bounds (x, y) Hin) as Hget. simpl in Hget.
      rewrite Hget. simpl.
      destruct (IH (total + cell_cost (x, y))%Q (S n)) as (t & Heq & Ht).
      exists t. rewrite Heq. split; [f_equal; f_equal; lia|].
      rewrite Ht. unfold Qsum. simpl. ring.
    + destruct (IH total n) as (t & Heq & Ht). exists t. split; assumption.
Qed.

Lemma Qsum_nonneg (l : list Q) :
  Forall (fun q => 0 <= q)%Q l -> (0 <= Qsum l)%Q.
Proof.
  induction 1 as [|q l Hq _ IH]; unfold Qsum; simpl; [apply Qle_refl|].
  fold (Qsum l). lra.
Qed.

Lemma average_grid_cost_nonneg (cells : list cell) :
  grid_nonneg ->
  (0 <= average_grid_cost cells)%Q.
Proof.
  intros Hg. unfold average_grid_cost.
  destruct (List.filter in_bounds cells) as [|c valid] eqn:Hvalid; [apply Qle_refl|].
  apply Qle_shift_div_l.
  - change 0%Q with (inject_Z 0). rewrite <- Zlt_Qlt. simpl. lia.
  - rewrite Qmult_0_l. apply Qsum_nonneg.
    apply Forall_forall. intros q Hq. apply list_elem_of_In, in_map_iff in Hq.
    destruct Hq as (c' & <- & Hc'). rewrite <- Hvalid in Hc'.
    apply filter_In in Hc'. destruct Hc' as [_ Hin].
    unfold in_bounds in Hin. rewrite !andb_true_iff in Hin.
    destruct Hin as [[[H1 H2] H3] H4].
    apply Z.leb_le in H1, H3. apply Z.ltb_lt in H2, H4.
    apply Hg; lia.
Qed.

(** The value [_path_cost] computes, in the specification's terms. *)
Lemma path_cost_average (a b : point) :
  ~ (grid_scale self == 0)%Q ->
  exists cells v,
    bresenham (cell_of a) (cell_of b) = Ok cells
    /\ path_cost a b = Ok v
    /\ (v == norm (psub b a) * (1 + average_grid_cost cells))%Q.
Proof.
  intros Hs. unfold path_cost. rewrite !to_cell_ok by assumption.
  rewrite !bind_Ok.
  destruct (bresenham_spec (cell_of a) (cell_of b)) as (cells & Hb & _).
  rewrite Hb, bind_Ok.
  destruct (sum_cells_spec cells 0%Q O) as (total & Hsum & Htotal).
  rewrite Hsum, bind_Ok. exists cells. eexists. split; [reflexivity|].
  split; [reflexivity|].
  unfold average_grid_cost. cbn [Nat.add].
  destruct (List.filter in_bounds cells) as [|c valid] eqn:Hvalid.
  - reflexivity.
  - replace (0 <? length (c :: valid))%nat with true
      by (symmetry; apply Nat.ltb_lt; simpl; lia).
    rewrite Htotal. rewrite Qplus_0_l. reflexivity.
Qed.

Lemma path_cost_nonneg (a b : point) (v : Q) :
  (forall q, 0 <= fsqrt q)%Q ->
  grid_nonneg ->
  path_cost a b = Ok v -> (0 <= v)%Q.
Proof.
  intros Hsqrt Hgrid Hv.
  destruct (Qeq_dec (grid_scale self) 0) as [Hz|Hnz].
  - unfold path_cost, to_cell, int_of_quotient in Hv.
    apply Qeq_bool_iff in Hz. rewrite Hz in Hv.
    destruct (Qeq_bool (fst a) 0); discriminate.
  - destruct (path_cost_average a b Hnz) as (cells & v' & _ & Hv' & Heq).
    rewrite Hv in Hv'. injection Hv' as <-. rewrite Heq.
    apply Qmult_le_0_compat; [apply Hsqrt|].
    pose proof (average_grid_cost_nonneg cells Hgrid). lra.
Qed.

Lemma trunc_clamp (q : Q) (n : nat) :
  (0 < n)%nat ->
  Z.max 0 (Z.min (Qtrunc q) (Z.of_nat n - 1)) = clamp (Qfloor q) 0 (Z.of_nat n - 1).
Proof.
  intros Hn. destruct q as [num den]. unfold Qtrunc, Qfloor, clamp. simpl.
  destruct (Z_lt_le_dec num 0) as [Hneg|Hpos].
  - assert (num / Z.pos den < 0) as Hdiv by (apply Z.div_lt_upper_bound; lia).
    assert (num ÷ Z.pos den <= 0) as Hquot.
    { replace num with (- (- num)) by lia. rewrite Z.quot_opp_l by lia.
      pose proof (Z.quot_pos (- num) (Z.pos den)). lia. }
    destruct (Z.ltb_spec (num / Z.pos den) 0); lia.
  - rewrite Z.quot_div_nonneg by lia.
    assert (0 <= num / Z.pos den) by (apply Z.div_pos; lia).
    destruct (Z.ltb_spec (num / Z.pos den) 0); [lia|].
    destruct (Z.ltb_spec (Z.of_nat n - 1) (num / Z.pos den)); lia.
Qed.

Lemma clamp_range (v : Z) (n : nat) :
  (0 < n)%nat -> 0 <= clamp v 0 (Z.of_nat n - 1) < Z.of_nat n.
Proof.
  intros Hn. unfold clamp.
  destruct (Z.ltb_spec v 0); [lia|].
  destruct (Z.ltb_spec (Z.of_nat n - 1) v); lia.
Qed.

(** C7: [edge_cost(a, b)], that is [_path_cost(a, b)], is the Euclidean
    distance between [a] and [b] multiplied by one plus the average grid
    cost, the average being taken over the Bresenham cells of the segment
    that lie within the grid bounds, and being 0 when no rasterized cell is
    in bounds. *)
Theorem path_cost_scales_distance (a b : point) :
  ~ (grid_scale self == 0)%Q ->
  exists cells v,
    to_cell a = Ok (cell_of a) /\ to_cell b = Ok (cell_of b)
    /\ bresenham (cell_of a) (cell_of b) = Ok cells
    /\ path_cost a b = Ok v
    /\ (v == norm (psub b a) * (1 + average_grid_cost cells))%Q
    /\ (List.filter in_bounds cells = [] -> average_grid_cost cells = 0%Q).
Proof.
  intros Hs. destruct (path_cost_average a b Hs) as (cells & v & Hb & Hv & Heq).
  exists cells, v. repeat split; try assumption; try (apply to_cell_ok; assumption).
  intros Hnone. unfold average_grid_cost. rewrite Hnone. reflexivity.
Qed.

(** C8: for every world point, also outside the grid extent,
    [_get_grid_cost] returns the cell value at row
    [clamp(floor(y / cell_size), 0, rows - 1)] and column
    [clamp(floor(x / cell_size), 0, cols - 1)], and does not fail. *)
Theorem get_grid_cost_clamps (p : point) :
  ~ (grid_scale self == 0)%Q ->
  (0 < shape0 (grid self))%nat ->
  (0 < shape1 (grid self))%nat ->
  let row := clamp (Qfloor (snd p / grid_scale self)) 0 (Z.of_nat (shape0 (grid self)) - 1) in
  let col := clamp (Qfloor (fst p / grid_scale self)) 0 (Z.of_nat (shape1 (grid self)) - 1) in
  0 <= row < Z.of_nat (shape0 (grid self))
  /\ 0 <= col < Z.of_nat (shape1 (grid self))
  /\ get_grid_cost p = Ok (item (grid self) (Z.to_nat row) (Z.to_nat col)).
Proof.
  intros Hs Hrows Hcols row col.
  pose proof (clamp_range (Qfloor (snd p / grid_scale self)) _ Hrows) as Hr.
  pose proof (clamp_range (Qfloor (fst p / grid_scale self)) _ Hcols) as Hc.
  fold row in Hr. fold col in Hc.
  split; [exact Hr|]. split; [exact Hc|].
  unfold get_grid_cost. rewrite !int_of_quotient_ok by assumption.
  rewrite !bind_Ok. rewrite !trunc_clamp by assumption.
  fold row col. unfold getitem.
  rewrite !np_axis_in_range by assumption. reflexivity.
Qed.

(** C9: the rasterization of two distinct cells starts with the start cell
    and leaves the goal cell out, and it is empty when the two cells are
    equal; so a zero-length segment traverses no cell and its edge cost is
    its Euclidean distance. *)
Theorem bresenham_start_included_goal_excluded :
  (forall s g : cell,
      exists line,
        bresenham s g = Ok line
        /\ (s <> g -> head line = Some s /\ g ∉ line)
        /\ (s = g -> line = []))
  /\ (forall a : point,
         ~ (grid_scale self == 0)%Q ->
         bresenham (cell_of a) (cell_of a) = Ok []
         /\ exists v, path_cost a a = Ok v /\ (v == norm (psub a a))%Q).
Proof.
  split; [exact bresenham_spec|].
  intros a Hs.
  destruct (bresenham_spec (cell_of a) (cell_of a)) as (line & Hline & _ & Hnil).
  rewrite (Hnil eq_refl) in Hline. split; [exact Hline|].
  destruct (path_cost_average a a Hs) as (cells & v & Hb & Hv & Heq).
  rewrite Hline in Hb. injection Hb as <-.
  exists v. split; [exact Hv|]. rewrite Heq. unfold average_grid_cost. simpl. ring.
Qed.

(** ** The grid part of the collision check *)

(** The first rasterized cell that is strictly inside the grid ends the
    scan, whatever the grid holds there and further along the segment. *)
Lemma scan_line_stops_inside (c : cell) (rest : list cell) :
  strictly_inside c = true -> scan_line (c :: rest) = Ok false.
Proof.
  destruct c as [x y]. unfold strictly_inside. simpl. intros ->. reflexivity.
Qed.

(** On any other cell the scan reads [grid[x - 1, y - 1]]. *)
Lemma scan_line_reads_outside (c : cell) (rest : list cell) :
  strictly_inside c = false ->
  scan_line (c :: rest)
  = v ← getitem (grid self) (fst c - 1) (snd c - 1);
    if Qle_bool (traversability_threshold self) v then Ok true else scan_line rest.
Proof.
  destruct c as [x y]. unfold strictly_inside. simpl. intros ->. reflexivity.
Qed.

(** ** Collision checks return or raise *)

Lemma scan_line_terminates (line : list cell) : scan_line line <> OutOfFuel.
Proof.
  induction line as [|[px py] line IH]; simpl; [discriminate|].
  destruct (_ && _); [discriminate|].
  unfold getitem, np_axis.
  repeat (destruct (_ && _); simpl; try discriminate);
    destruct (Qle_bool _ _); try discriminate; exact IH.
Qed.

Lemma is_collision_terminates (p : point) (q : option point) :
  is_collision p q <> OutOfFuel.
Proof.
  unfold is_collision. destruct (existsb _ _); [discriminate|].
  destruct q as [p2|]; [|discriminate].
  unfold to_cell, int_of_quotient.
  destruct (Qeq_bool (grid_scale self) 0).
  - destruct (Qeq_bool (fst p) 0); discriminate.
  - rewrite !bind_Ok.
    destruct (bresenham_spec (Qtrunc (fst p / grid_scale self), Qtrunc (snd p / grid_scale self))
                (Qtrunc (fst p2 / grid_scale self), Qtrunc (snd p2 / grid_scale self)))
      as (line & -> & _).
    rewrite bind_Ok. apply scan_line_terminates.
Qed.

Lemma is_collision_cases (p : point) (q : option point) :
  (exists b, is_collision p q = Ok b) \/ (exists e, is_collision p q = Raise e).
Proof.
  pose proof (is_collision_terminates p q).
  destruct (is_collision p q); eauto. contradiction.
Qed.

(** ** Path simplification *)

Lemma point_eqb_refl (p : point) : point_eqb p p = true.
Proof.
  unfold point_eqb. apply andb_true_iff. split; apply Qeq_bool_iff; reflexivity.
Qed.

Lemma segments_free_snoc (l : list point) (a s : point) :
  segments_free l -> last l = Some a -> is_collision a (Some s) = Ok false ->
  segments_free (l ++ [s]).
Proof.
  intros Hfree Hlast Hcol i x y Hx Hy.
  assert (S i < length (l ++ [s]))%nat as Hlen by (eapply lookup_lt_Some; eassumption).
  rewrite length_app in Hlen. simpl in Hlen.
  destruct (decide (S i < length l)%nat) as [Hin|Hout].
  - rewrite lookup_app_l in Hx by lia. rewrite lookup_app_l in Hy by lia.
    eapply Hfree; eassumption.
  - assert (S i = length l) as Hi by lia.
    rewrite lookup_app_l in Hx by lia.
    rewrite lookup_app_r in Hy by lia.
    rewrite Hi, Nat.sub_diag in Hy. simpl in Hy. injection Hy as <-.
    rewrite last_lookup in Hlast. rewrite <- Hi in Hlast. simpl in Hlast.
    rewrite Hx in Hlast. injection Hlast as ->. exact Hcol.
Qed.

(** What the [for] loop can do from [anchor]: raise on a check, run out of
    goals without appending, append [start] untouched because the first
    check is blocked, or append the goal at offset [k] after [S k]
    unblocked checks. *)
Lemma simplify_scan_cases (anchor final : point) (goals : list point) :
  forall (start : point) (idx : nat) (new_path : list point),
    (exists e g, g ∈ goals /\ is_collision anchor (Some g) = Raise e
                 /\ simplify_scan anchor final goals start idx new_path = Raise e)
    \/ (simplify_scan anchor final goals start idx new_path
        = Ok (new_path, (idx + length goals)%nat)
        /\ Forall (fun g => point_eqb g final = false) goals)
    \/ (simplify_scan anchor final goals start idx new_path
        = Ok (new_path ++ [start], idx)
        /\ exists g rest, goals = g :: rest /\ is_collision anchor (Some g) = Ok true)
    \/ (exists k s,
           simplify_scan anchor final goals start idx new_path
           = Ok (new_path ++ [s], (idx + S k)%nat)
           /\ goals !! k = Some s
           /\ is_collision anchor (Some s) = Ok false).
Proof.
  induction goals as [|g rest IH]; intros start idx new_path.
  - right. left. simpl. rewrite Nat.add_0_r. split; [reflexivity | constructor].
  - simpl. destruct (is_collision_cases anchor (Some g)) as [[b Hb]|[e He]].
    + rewrite Hb, bind_Ok. destruct b; simpl.
      * right. right. left. split; [reflexivity|]. eauto.
      * destruct (point_eqb g final) eqn:Hfin.
        -- right. right. right. exists O, g.
           rewrite Nat.add_1_r. split; [reflexivity|]. split; [reflexivity | exact Hb].
        -- destruct (IH g (S idx) new_path)
             as [(e & g' & Hin & Hraise & Heq)
                |[(Heq & Hall)
                 |[(Heq & g' & rest' & -> & Hblocked)
                  |(k & s & Heq & Hk & Hfree)]]].
           ++ left. exists e, g'. split; [right; exact Hin|]. split; assumption.
           ++ right. left. rewrite Heq. split; [f_equal; f_equal; lia|].
              constructor; assumption.
           ++ right. right. right. exists O, g. rewrite Heq, Nat.add_1_r.
              split; [reflexivity|]. split; [reflexivity | exact Hb].
           ++ right. right. right. exists (S k), s. rewrite Heq.
              split; [f_equal; f_equal; lia|]. split; assumption.
    + left. exists e, g. rewrite He. split; [left|]. split; reflexivity.
Qed.

Lemma last_drop (l : list point) (n : nat) :
  (n < length l)%nat -> last (drop n l) = last l.
Proof.
  intros Hn. rewrite !last_lookup, lookup_drop, length_drop.
  f_equal. lia.
Qed.

Lemma py_last_Some (l : list point) (a : point) :
  last l = Some a -> py_last l = Ok a.
Proof. unfold py_last. intros ->. reflexivity. Qed.

(** With consecutive segments unblocked the loop returns a path with the
    required properties, raises because a collision check between two
    points of the path raised, or is cut short by a budget below the number
    of points left. *)
Lemma simplify_loop_cases (path : list point) :
  segments_free path ->
  forall (fuel : nat) (new_path : list point) (idx : nat),
    simplify_inv path new_path idx ->
    (exists res,
        simplify_loop fuel path new_path idx = Ok res /\ simplify_post path res)
    \/ (exists e i j a b,
           (i < j)%nat /\ path !! i = Some a /\ path !! j = Some b
           /\ is_collision a (Some b) = Raise e
           /\ simplify_loop fuel path new_path idx = Raise e)
    \/ (simplify_loop fuel path new_path idx = OutOfFuel
        /\ (idx + fuel < length path)%nat).
Proof.
  intros Hpath fuel.
  induction fuel as [|fuel IH]; intros new_path idx [Hidx (a & Hlast & Ha) Hhead Hfree Hlen].
  - assert (exists f, last path = Some f) as [f Hfin].
    { apply last_is_Some. intros ->. simpl in Hidx. lia. }
    simpl. rewrite (py_last_Some _ _ Hlast), (py_last_Some _ _ Hfin), !bind_Ok.
    destruct (point_eqb a f) eqn:Haf.
    + left. exists new_path. split; [reflexivity|].
      unfold simplify_post. split; [exact Hhead|]. split; [|split; [exact Hfree | lia]].
      exists a, f. auto.
    + right. right. split; [reflexivity|].
      destruct (decide (idx = length path)) as [->|]; [|lia].
      rewrite last_lookup in Hfin.
      replace (pred (length path)) with (length path - 1)%nat in Hfin by lia.
      rewrite Ha in Hfin. injection Hfin as ->.
      rewrite point_eqb_refl in Haf. discriminate.
  - assert (exists f, last path = Some f) as [f Hfin].
    { apply last_is_Some. intros ->. simpl in Hidx. lia. }
    simpl. rewrite (py_last_Some _ _ Hlast), (py_last_Some _ _ Hfin), !bind_Ok.
    destruct (point_eqb a f) eqn:Haf.
    + left. exists new_path. split; [reflexivity|].
      unfold simplify_post. split; [exact Hhead|]. split; [|split; [exact Hfree | lia]].
      exists a, f. auto.
    + assert (idx < length path)%nat as Hlt.
      { destruct (decide (idx = length path)) as [->|]; [|lia].
        rewrite last_lookup in Hfin.
        replace (pred (length path)) with (length path - 1)%nat in Hfin by lia.
        rewrite Ha in Hfin. injection Hfin as ->.
        rewrite point_eqb_refl in Haf. discriminate. }
      destruct (simplify_scan_cases a f (drop idx path) a idx new_path)
        as [(e & g & Hin & Hraise & Heq)
           |[(Heq & Hall)
            |[(Heq & g & rest & Hgoals & Hblocked)
             |(k & s & Heq & Hk & Hs)]]].
      * right. left. apply list_elem_of_lookup in Hin. destruct Hin as [k Hk].
        rewrite lookup_drop in Hk.
        exists e, (idx - 1)%nat, (idx + k)%nat, a, g.
        rewrite Heq. repeat split; try assumption. lia.
      * exfalso. rewrite Forall_forall in Hall.
        assert (f ∈ drop idx path) as Hf.
        { apply last_Some_elem_of. rewrite last_drop by assumption. exact Hfin. }
        apply Hall in Hf. rewrite point_eqb_refl in Hf. discriminate.
      * exfalso. assert (path !! idx = Some g) as Hg.
        { replace idx with (idx + 0)%nat at 1 by lia. rewrite <- lookup_drop, Hgoals.
          reflexivity. }
        assert (is_collision a (Some g) = Ok false) as Hc.
        { apply (Hpath (idx - 1)%nat); [exact Ha|].
          replace (S (idx - 1)) with idx by lia. exact Hg. }
        congruence.
      * rewrite Heq, bind_Ok. rewrite lookup_drop in Hk.
        assert (idx + k < length path)%nat as Hk' by (eapply lookup_lt_Some; eassumption).
        destruct (IH (new_path ++ [s]) (idx + S k)%nat) as [Hok|[Herr|[Hout Hshort]]].
        -- split.
           ++ lia.
           ++ exists s. split; [apply last_snoc|].
              replace (idx + S k - 1)%nat with (idx + k)%nat by lia. exact Hk.
           ++ rewrite head_app. destruct new_path; [discriminate|]. exact Hhead.
           ++ eapply segments_free_snoc; eassumption.
           ++ rewrite length_app. simpl. lia.
        -- left. exact Hok.
        -- right. left. exact Herr.
        -- right. right. split; [exact Hout | lia].
Qed.

Lemma simplify_inv_init (p0 : point) (rest : list point) :
  simplify_inv (p0 :: rest) [p0] 1.
Proof.
  split; simpl.
  - lia.
  - exists p0. split; reflexivity.
  - reflexivity.
  - intros i a b Ha Hb. destruct i; discriminate.
  - lia.
Qed.

Lemma simplify_path_outcomes (path : list point) (fuel : nat) :
  segments_free path ->
  path <> [] ->
  (exists res, simplify_path fuel path = Ok res /\ simplify_post path res)
  \/ (exists e i j a b,
         (i < j)%nat /\ path !! i = Some a /\ path !! j = Some b
         /\ is_collision a (Some b) = Raise e
         /\ simplify_path fuel path = Raise e)
  \/ (simplify_path fuel path = OutOfFuel /\ (S fuel < length path)%nat).
Proof.
  intros Hfree Hne. destruct path as [|p0 rest]; [contradiction|].
  unfold simplify_path.
  apply simplify_loop_cases; [exact Hfree | apply simplify_inv_init].
Qed.

Lemma simplify_path_cases (path : list point) (fuel : nat) :
  segments_free path ->
  path <> [] ->
  (length path <= fuel)%nat ->
  (exists res, simplify_path fuel path = Ok res /\ simplify_post path res)
  \/ (exists e i j a b,
         (i < j)%nat /\ path !! i = Some a /\ path !! j = Some b
         /\ is_collision a (Some b) = Raise e
         /\ simplify_path fuel path = Raise e).
Proof.
  intros Hfree Hne Hfuel.
  destruct (simplify_path_outcomes path fuel Hfree Hne) as [H|[H|[_ H]]]; auto. lia.
Qed.

(** A blocked first segment makes the loop append its anchor for ever. *)
Lemma simplify_loop_stuck (a b f : point) (rest : list point) :
  is_collision a (Some b) = Ok true ->
  last (a :: b :: rest) = Some f ->
  point_eqb a f = false ->
  forall (fuel : nat) (new_path : list point),
    last new_path = Some a ->
    simplify_loop fuel (a :: b :: rest) new_path 1 = OutOfFuel.
Proof.
  intros Hblocked Hfin Hneq fuel.
  induction fuel as [|fuel IH]; intros new_path Hlast; simpl simplify_loop;
    rewrite (py_last_Some _ _ Hlast), (py_last_Some _ _ Hfin), !bind_Ok, Hneq.
  - reflexivity.
  - cbn [drop simplify_scan]. rewrite Hblocked, bind_Ok. cbn [negb].
    rewrite bind_Ok. apply IH. apply last_snoc.
Qed.

(** C3: on a raw path whose consecutive segments all pass the collision
    check, simplification does not loop, and the path it produces starts at
    the raw path's first point, ends at its last point, has every
    consecutive pair unblocked and has at most as many points as the raw
    path.  The only other outcome is an exception raised by a collision
    check between an earlier and a later point of the raw path. *)
Theorem simplify_path_non_degrading (path : list point) (fuel : nat) :
  segments_free path ->
  path <> [] ->
  (length path <= fuel)%nat ->
  (exists new_path,
      simplify_path fuel path = Ok new_path
      /\ head new_path = head path
      /\ (exists a f, last new_path = Some a /\ last path = Some f
                      /\ point_eqb a f = true)
      /\ segments_free new_path
      /\ (length new_path <= length path)%nat)
  \/ (exists e i j a b,
         (i < j)%nat /\ path !! i = Some a /\ path !! j = Some b
         /\ is_collision a (Some b) = Raise e
         /\ simplify_path fuel path = Raise e).
Proof.
  intros Hfree Hne Hfuel.
  destruct (simplify_path_outcomes path fuel Hfree Hne) as [Hok|[Hraise|[_ Hshort]]].
  - left. exact Hok.
  - right. exact Hraise.
  - lia.
Qed.

(** C10: on a path of at least two points whose consecutive segments all
    pass the collision check the simplification loop terminates, within
    [length path] rounds; on a path whose first segment is blocked and whose
    first point differs from the last it never does. *)
Theorem simplify_path_terminates_when_segments_free :
  (forall (path : list point) (fuel : nat),
      (2 <= length path)%nat ->
      segments_free path ->
      (length path <= fuel)%nat ->
      simplify_path fuel path <> OutOfFuel)
  /\ (forall (a b f : point) (rest : list point),
         is_collision a (Some b) = Ok true ->
         last (a :: b :: rest) = Some f ->
         point_eqb a f = false ->
         forall fuel : nat, simplify_path fuel (a :: b :: rest) = OutOfFuel).
Proof.
  split.
  - intros path fuel Hlen Hfree Hfuel.
    destruct (simplify_path_cases path fuel Hfree) as [(res & -> & _)|(e & i & j & a & b & _ & _ & _ & _ & ->)];
      try discriminate; try assumption.
    intros ->. simpl in Hlen. lia.
  - intros a b f rest Hblocked Hfin Hneq fuel. unfold simplify_path.
    eapply simplify_loop_stuck; eauto.
Qed.

(** ** The planner monad *)

Lemma wp_bind {A B} (m : M A) (f : A -> M B) (Q : B -> world -> Prop)
    (E : world -> Prop) (w : world) :
  wp m (fun a w' => wp (f a) Q E w') E w -> wp (m ≫= f) Q E w.
Proof.
  unfold wp, mbind, M_bind. destruct (m w) as [[a| |] w']; auto.
Qed.

Lemma wp_pure {A} (a : A) (Q : A -> world -> Prop) (E : world -> Prop) (w : world) :
  Q a w -> wp (pure a) Q E w.
Proof. auto. Qed.

Lemma wp_lift {A} (r : result A) (Q : A -> world -> Prop) (E : world -> Prop)
    (w : world) :
  (forall a, r = Ok a -> Q a w) -> E w -> wp (lift r) Q E w.
Proof. unfold wp, lift. destruct r; auto. Qed.

Lemma wp_get_tree (Q : tree -> world -> Prop) (E : world -> Prop) (w : world) :
  Q (w_tree w) w -> wp get_tree Q E w.
Proof. auto. Qed.

Lemma wp_mono {A} (m : M A) (Q Q' : A -> world -> Prop) (E E' : world -> Prop)
    (w : world) :
  wp m Q E w ->
  (forall a w', Q a w' -> Q' a w') -> (forall w', E w' -> E' w') ->
  wp m Q' E' w.
Proof.
  unfold wp. destruct (m w) as [[a| |] w']; auto.
Qed.

(** ** Parent chains *)

Lemma reaches_root_base (par : gmap nat (option nat)) (i : nat) :
  reaches_root par i -> par !! O = Some None.
Proof. induction 1; assumption. Qed.

Lemma reaches_root_climb (par : gmap nat (option nat)) (i : nat) :
  reaches_root par i -> exists n, climb par n i = Some O.
Proof.
  induction 1 as [|i p Hp _ [n IH]].
  - exists O. reflexivity.
  - exists (S n). simpl. rewrite Hp. exact IH.
Qed.

Lemma climb_reaches_root (par : gmap nat (option nat)) (n : nat) :
  par !! O = Some None ->
  forall i, climb par n i = Some O -> reaches_root par i.
Proof.
  intros Hroot. induction n as [|n IH]; intros i Hc; simpl in Hc.
  - injection Hc as ->. constructor. exact Hroot.
  - destruct (par !! i) as [[p|]|] eqn:Hi; try discriminate.
    eapply reaches_root_step; eauto.
Qed.

Lemma tree_inv_acyclic (t : tree) : tree_inv t -> acyclic t.
Proof.
  intros Hinv. split.
  - eapply reaches_root_base, (ti_reach t Hinv O), (ti_nonempty t Hinv).
  - intros i Hi. apply reaches_root_climb, (ti_reach t Hinv i Hi).
Qed.

(** A new key leaves the existing chains alone. *)
Lemma reaches_root_insert_fresh (par : gmap nat (option nat)) (k : nat)
    (x : option nat) (i : nat) :
  par !! k = None -> reaches_root par i -> reaches_root (<[k := x]> par) i.
Proof.
  intros Hk. induction 1 as [Hroot|i p Hp _ IH].
  - constructor. rewrite lookup_insert_ne; [exact Hroot | congruence].
  - eapply reaches_root_step; [|exact IH].
    rewrite lookup_insert_ne; [exact Hp | congruence].
Qed.

(** Re-parenting [idx] leaves alone every chain whose stored costs stay
    below the stored cost of [idx]. *)
Lemma reaches_root_below (par : gmap nat (option nat)) (cst : gmap nat Q)
    (idx nw : nat) (c ci : Q) :
  (forall i p, par !! i = Some (Some p) ->
               exists ci cp, cst !! i = Some ci /\ cst !! p = Some cp /\ (cp <= ci)%Q) ->
  cst !! idx = Some ci -> (c < ci)%Q ->
  forall a, reaches_root par a ->
            forall ca, cst !! a = Some ca -> (ca <= c)%Q ->
                       reaches_root (<[idx := Some nw]> par) a.
Proof.
  intros Hmono Hci Hlt a Hreach.
  induction Hreach as [Hroot|a p Hp _ IH]; intros ca Hca Hle.
  - constructor. rewrite lookup_insert_ne; [exact Hroot|].
    intros ->. rewrite Hci in Hca. injection Hca as ->. lra.
  - assert (idx <> a) as Hne.
    { intros ->. rewrite Hci in Hca. injection Hca as ->. lra. }
    destruct (Hmono a p Hp) as (ca' & cp & Hca' & Hcp & Hle').
    rewrite Hca in Hca'. injection Hca' as <-.
    eapply reaches_root_step.
    + rewrite lookup_insert_ne; [exact Hp | exact Hne].
    + apply (IH cp Hcp). lra.
Qed.

(** Once the new parent still reaches the root, so does every node. *)
Lemma reaches_root_rewired (par : gmap nat (option nat)) (idx nw : nat) :
  reaches_root (<[idx := Some nw]> par) nw ->
  forall j, reaches_root par j -> reaches_root (<[idx := Some nw]> par) j.
Proof.
  intros Hnw j Hreach. induction Hreach as [Hroot|j p Hp _ IH].
  - destruct (decide (idx = O)) as [->|Hne].
    + eapply reaches_root_step; [apply lookup_insert_eq | exact Hnw].
    + constructor. rewrite lookup_insert_ne; [exact Hroot | exact Hne].
  - destruct (decide (idx = j)) as [->|Hne].
    + eapply reaches_root_step; [apply lookup_insert_eq | exact Hnw].
    + eapply reaches_root_step; [|exact IH].
      rewrite lookup_insert_ne; [exact Hp | exact Hne].
Qed.

(** ** The tree invariant under the three kinds of update *)

Lemma cost_at_Ok (t : tree) (i : nat) (c : Q) :
  cost_at t i = Ok c -> cost t !! i = Some c.
Proof. unfold cost_at. destruct (cost t !! i); congruence. Qed.

Lemma is_Some_insert_fresh {V} (m : gmap nat V) (n i : nat) (v : V) :
  (forall j, is_Some (m !! j) <-> (j < n)%nat) ->
  is_Some (<[n := v]> m !! i) <-> (i < S n)%nat.
Proof.
  intros Hdom. destruct (decide (n = i)) as [->|Hne].
  - rewrite lookup_insert_eq. split; [lia | eauto].
  - rewrite lookup_insert_ne by exact Hne. rewrite Hdom. lia.
Qed.

Lemma is_Some_insert_old {V} (m : gmap nat V) (n k i : nat) (v : V) :
  (forall j, is_Some (m !! j) <-> (j < n)%nat) ->
  (k < n)%nat ->
  is_Some (<[k := v]> m !! i) <-> (i < n)%nat.
Proof.
  intros Hdom Hk. destruct (decide (k = i)) as [->|Hne].
  - rewrite lookup_insert_eq. split; [auto | eauto].
  - rewrite lookup_insert_ne by exact Hne. apply Hdom.
Qed.

(** A node appended to [nodes] gets the parent [mp]: the tree right after
    [self.parent[n] = mp] has no cycle. *)
Lemma attach_acyclic (t : tree) (p : point) (mp : nat) :
  tree_inv t -> (mp < length (nodes t))%nat ->
  acyclic {| nodes := nodes t ++ [p];
             parent := <[length (nodes t) := Some mp]> (parent t);
             cost := cost t |}.
Proof.
  intros Hinv Hmp.
  assert (parent t !! length (nodes t) = None) as Hfresh.
  { apply eq_None_not_Some. rewrite (ti_parent_dom t Hinv). lia. }
  assert (forall i, (i < length (nodes t ++ [p]))%nat ->
                    reaches_root (<[length (nodes t) := Some mp]> (parent t)) i) as Hall.
  { intros i Hi. rewrite length_app in Hi. simpl in Hi.
    destruct (decide (i = length (nodes t))) as [->|Hne].
    - eapply reaches_root_step; [apply lookup_insert_eq|].
      apply reaches_root_insert_fresh; [exact Hfresh | apply (ti_reach t Hinv); exact Hmp].
    - apply reaches_root_insert_fresh; [exact Hfresh | apply (ti_reach t Hinv); lia]. }
  split; simpl.
  - eapply reaches_root_base, (Hall O). rewrite length_app. simpl. lia.
  - intros i Hi. apply reaches_root_climb, Hall, Hi.
Qed.

(** ... and once its cost is stored the invariant holds again. *)
Lemma attach_inv (t : tree) (p : point) (mp : nat) (mc cp : Q) :
  tree_inv t -> cost t !! mp = Some cp -> (cp <= mc)%Q ->
  tree_inv {| nodes := nodes t ++ [p];
              parent := <[length (nodes t) := Some mp]> (parent t);
              cost := <[length (nodes t) := mc]> (cost t) |}.
Proof.
  intros Hinv Hcp Hle.
  assert (mp < length (nodes t))%nat as Hmp by (apply (ti_cost_dom t Hinv); eauto).
  assert (parent t !! length (nodes t) = None) as Hfresh.
  { apply eq_None_not_Some. rewrite (ti_parent_dom t Hinv). lia. }
  split; simpl.
  - rewrite length_app. simpl. lia.
  - intros i. rewrite length_app, Nat.add_1_r.
    apply is_Some_insert_fresh, (ti_parent_dom t Hinv).
  - intros i. rewrite length_app, Nat.add_1_r.
    apply is_Some_insert_fresh, (ti_cost_dom t Hinv).
  - intros i q Hq. destruct (decide (length (nodes t) = i)) as [<-|Hne].
    + rewrite lookup_insert_eq in Hq. injection Hq as <-.
      exists mc, cp. rewrite lookup_insert_eq, lookup_insert_ne by lia. auto.
    + rewrite lookup_insert_ne in Hq by exact Hne.
      destruct (ti_mono t Hinv i q Hq) as (ci & cq & Hci & Hcq & Hle').
      exists ci, cq. rewrite !lookup_insert_ne; [auto| |exact Hne].
      intros <-. assert (length (nodes t) < length (nodes t))%nat; [|lia].
      apply (ti_cost_dom t Hinv). eauto.
  - intros i Hi. rewrite length_app in Hi. simpl in Hi.
    destruct (decide (i = length (nodes t))) as [->|Hne].
    + eapply reaches_root_step; [apply lookup_insert_eq|].
      apply reaches_root_insert_fresh; [exact Hfresh | apply (ti_reach t Hinv); exact Hmp].
    + apply reaches_root_insert_fresh; [exact Hfresh | apply (ti_reach t Hinv); lia].
Qed.

(** Rewiring [idx] to [nw] when that strictly lowers the stored cost of
    [idx] below [new_cost], itself no less than the stored cost of [nw]. *)
Lemma rewire_reaches (t : tree) (idx nw : nat) (cn ci new_cost : Q) :
  tree_inv t ->
  cost t !! nw = Some cn -> cost t !! idx = Some ci ->
  (cn <= new_cost)%Q -> (new_cost < ci)%Q ->
  forall j, (j < length (nodes t))%nat ->
            reaches_root (<[idx := Some nw]> (parent t)) j.
Proof.
  intros Hinv Hcn Hci Hle Hlt j Hj.
  assert (nw < length (nodes t))%nat as Hnw by (apply (ti_cost_dom t Hinv); eauto).
  apply reaches_root_rewired; [|apply (ti_reach t Hinv); exact Hj].
  eapply (reaches_root_below (parent t) (cost t) idx nw cn ci).
  - apply (ti_mono t Hinv).
  - exact Hci.
  - lra.
  - apply (ti_reach t Hinv); exact Hnw.
  - exact Hcn.
  - lra.
Qed.

Lemma rewire_acyclic (t : tree) (idx nw : nat) (cn ci new_cost : Q) :
  tree_inv t ->
  cost t !! nw = Some cn -> cost t !! idx = Some ci ->
  (cn <= new_cost)%Q -> (new_cost < ci)%Q ->
  acyclic {| nodes := nodes t;
             parent := <[idx := Some nw]> (parent t);
             cost := cost t |}.
Proof.
  intros Hinv Hcn Hci Hle Hlt.
  pose proof (rewire_reaches t idx nw cn ci new_cost Hinv Hcn Hci Hle Hlt) as Hall.
  split; simpl.
  - eapply reaches_root_base, (Hall O), (ti_nonempty t Hinv).
  - intros i Hi. apply reaches_root_climb, Hall, Hi.
Qed.

Lemma rewire_inv (t : tree) (idx nw : nat) (cn ci new_cost : Q) :
  tree_inv t ->
  cost t !! nw = Some cn -> cost t !! idx = Some ci ->
  (cn <= new_cost)%Q -> (new_cost < ci)%Q ->
  tree_inv {| nodes := nodes t;
              parent := <[idx := Some nw]> (parent t);
              cost := <[idx := new_cost]> (cost t) |}.
Proof.
  intros Hinv Hcn Hci Hle Hlt.
  assert (idx < length (nodes t))%nat as Hidx by (apply (ti_cost_dom t Hinv); eauto).
  assert (idx <> nw) as Hne.
  { intros ->. rewrite Hci in Hcn. injection Hcn as ->. lra. }
  split; simpl.
  - apply (ti_nonempty t Hinv).
  - intros i. apply is_Some_insert_old; [apply (ti_parent_dom t Hinv) | exact Hidx].
  - intros i. apply is_Some_insert_old; [apply (ti_cost_dom t Hinv) | exact Hidx].
  - intros i q Hq. destruct (decide (idx = i)) as [<-|Hi].
    + rewrite lookup_insert_eq in Hq. injection Hq as <-.
      exists new_cost, cn. rewrite lookup_insert_eq, lookup_insert_ne by exact Hne. auto.
    + rewrite lookup_insert_ne in Hq by exact Hi.
      destruct (ti_mono t Hinv i q Hq) as (ci' & cq & Hci' & Hcq & Hle').
      rewrite (lookup_insert_ne (cost t) idx i) by exact Hi.
      destruct (decide (idx = q)) as [<-|Hq'].
      * rewrite Hci in Hcq. injection Hcq as <-.
        exists ci', new_cost. rewrite lookup_insert_eq. repeat split; [exact Hci' | lra].
      * exists ci', cq. rewrite lookup_insert_ne by exact Hq'. auto.
  - apply (rewire_reaches t idx nw cn ci new_cost Hinv Hcn Hci Hle Hlt).
Qed.

Lemma choose_parent_sound (t : tree) (new_point : point) (near_nodes : list nat) :
  (forall q, 0 <= fsqrt q)%Q ->
  grid_nonneg ->
  forall (min_cost : Q) (min_parent : nat) (c' : Q) (p' : nat),
    choose_parent t new_point near_nodes min_cost min_parent = Ok (c', p') ->
    (exists cp, cost t !! min_parent = Some cp /\ (cp <= min_cost)%Q) ->
    exists cp', cost t !! p' = Some cp' /\ (cp' <= c')%Q.
Proof.
  intros Hsqrt Hgrid.
  induction near_nodes as [|idx rest IH]; intros min_cost min_parent c' p' Hch Hmin.
  - simpl in Hch. injection Hch as <- <-. exact Hmin.
  - simpl in Hch.
    apply bind_Ok_inv in Hch. destruct Hch as (node & _ & Hch).
    apply bind_Ok_inv in Hch. destruct Hch as (b & _ & Hch).
    destruct b; simpl in Hch; [eapply IH; eassumption|].
    apply bind_Ok_inv in Hch. destruct Hch as (c & Hc & Hch).
    apply bind_Ok_inv in Hch. destruct Hch as (pc & Hpc & Hch).
    apply cost_at_Ok in Hc.
    pose proof (path_cost_nonneg _ _ _ Hsqrt Hgrid Hpc) as Hpos.
    destruct (Qltb (c + pc) min_cost); [|eapply IH; eassumption].
    eapply IH; [eassumption|]. exists c. split; [exact Hc | lra].
Qed.

Lemma wp_rewire (new_idx : nat) (new_point : point) (min_parent : nat)
    (near_nodes : list nat) :
  (forall q, 0 <= fsqrt q)%Q ->
  grid_nonneg ->
  forall w : world,
    tree_inv (w_tree w) -> trace_ok w ->
    wp (rewire new_idx new_point min_parent near_nodes)
       (fun _ w' => tree_inv (w_tree w') /\ trace_ok w'
                    /\ length (nodes (w_tree w')) = length (nodes (w_tree w)))
       trace_ok w.
Proof.
  intros Hsqrt Hgrid.
  induction near_nodes as [|idx rest IH]; intros w Hinv Htr.
  - apply wp_pure. auto.
  - cbn [rewire]. destruct (Nat.eqb idx min_parent); [apply IH; assumption|].
    apply wp_bind, wp_get_tree.
    apply wp_bind, wp_lift; [intros node Hnode | exact Htr].
    apply wp_bind, wp_lift; [intros cn Hcn | exact Htr].
    apply wp_bind, wp_lift; [intros pc Hpc | exact Htr].
    apply wp_bind, wp_lift; [intros ci Hci | exact Htr].
    apply cost_at_Ok in Hcn, Hci.
    pose proof (path_cost_nonneg _ _ _ Hsqrt Hgrid Hpc) as Hpos.
    apply wp_bind.
    destruct (Qltb (cn + pc) ci) eqn:Hlt; [|apply wp_pure, IH; assumption].
    apply Qltb_lt in Hlt.
    apply wp_bind, wp_lift; [intros b Hb | exact Htr].
    destruct b; cbn [negb]; [apply wp_pure, IH; assumption|].
    unfold wp at 1. cbn [mbind M_bind set_parent set_cost].
    eapply wp_mono; [apply IH| |auto].
    + cbn [w_tree]. eapply (rewire_inv (w_tree w) idx new_idx cn ci); eauto; lra.
    + constructor; [|exact Htr].
      eapply (rewire_acyclic (w_tree w) idx new_idx cn ci); eauto; lra.
    + cbn [w_tree nodes]. intros _ w' (? & ? & ?). auto.
Qed.


Lemma wp_connect_goal (fuel new_idx : nat) (new_point : point) (w : world) :
  (forall q, 0 <= fsqrt q)%Q ->
  grid_nonneg ->
  tree_inv (w_tree w) -> trace_ok w ->
  (new_idx < length (nodes (w_tree w)))%nat ->
  wp (connect_goal fuel new_idx new_point)
     (fun _ w' => tree_inv (w_tree w') /\ trace_ok w')
     trace_ok w.
Proof.
  intros Hsqrt Hgrid Hinv Htr Hnew. unfold connect_goal.
  destruct (Qltb _ _); [|apply wp_pure; auto].
  apply wp_bind, wp_lift; [intros b Hb | exact Htr].
  destruct b; cbn [negb]; [apply wp_pure; auto|].
  apply wp_bind, wp_get_tree.
  apply wp_bind. unfold wp at 1. cbn [nodes_append].
  apply wp_bind. unfold wp at 1. cbn [set_parent w_tree w_tape w_trace nodes parent cost].
  pose proof (attach_acyclic (w_tree w) (goal self) new_idx Hinv Hnew) as Hacyc.
  assert (Forall acyclic
            ({| nodes := nodes (w_tree w) ++ [goal self];
                parent := <[length (nodes (w_tree w)) := Some new_idx]> (parent (w_tree w));
                cost := cost (w_tree w) |} :: w_trace w)) as Htr'
    by (constructor; assumption).
  apply wp_bind, wp_get_tree.
  apply wp_bind, wp_lift; [intros cn Hcn | exact Htr'].
  apply wp_bind, wp_lift; [intros pc Hpc | exact Htr'].
  apply cost_at_Ok in Hcn. cbn [w_tree cost] in Hcn.
  pose proof (path_cost_nonneg _ _ _ Hsqrt Hgrid Hpc) as Hpos.
  apply wp_bind. unfold wp at 1. cbn [set_cost w_tree w_tape w_trace nodes parent cost].
  apply wp_bind, wp_get_tree.
  assert (tree_inv
            {| nodes := nodes (w_tree w) ++ [goal self];
               parent := <[length (nodes (w_tree w)) := Some new_idx]> (parent (w_tree w));
               cost := <[length (nodes (w_tree w)) := (cn + pc)%Q]> (cost (w_tree w)) |})
    as Hinv' by (eapply attach_inv; eauto; lra).
  apply wp_bind, wp_lift; [intros path Hpath | exact Htr'].
  apply wp_pure. split; assumption.
Qed.

Lemma wp_extend (fuel nearest_idx : nat) (nearest new_point : point) (w : world) :
  (forall q, 0 <= fsqrt q)%Q ->
  grid_nonneg ->
  tree_inv (w_tree w) -> trace_ok w ->
  wp (extend fuel nearest_idx nearest new_point)
     (fun _ w' => tree_inv (w_tree w') /\ trace_ok w')
     trace_ok w.
Proof.
  intros Hsqrt Hgrid Hinv Htr. unfold extend.
  apply wp_bind, wp_lift; [intros b Hb | exact Htr].
  destruct b; cbn [negb]; [apply wp_pure; auto|].
  apply wp_bind, wp_get_tree.
  apply wp_bind. unfold wp at 1. cbn [nodes_append].
  apply wp_bind, wp_get_tree. cbn [w_tree].
  apply wp_bind, wp_lift; [intros cn Hcn | exact Htr].
  apply wp_bind, wp_lift; [intros pc Hpc | exact Htr].
  apply wp_bind, wp_lift; [intros [min_cost min_parent] Hch | exact Htr].
  apply cost_at_Ok in Hcn. cbn [cost] in Hcn.
  pose proof (path_cost_nonneg _ _ _ Hsqrt Hgrid Hpc) as Hpos.
  destruct (choose_parent_sound _ _ _ Hsqrt Hgrid _ _ _ _ Hch) as (cp & Hcp & Hle).
  { exists cn. split; [exact Hcn | lra]. }
  cbn [cost] in Hcp.
  assert (min_parent < length (nodes (w_tree w)))%nat as Hmp
    by (apply (ti_cost_dom _ Hinv); eauto).
  apply wp_bind. unfold wp at 1. cbn [set_parent w_tree w_tape w_trace nodes parent cost].
  apply wp_bind. unfold wp at 1. cbn [set_cost w_tree w_tape w_trace nodes parent cost].
  apply wp_bind.
  eapply wp_mono; [apply wp_rewire; [exact Hsqrt | exact Hgrid | |] | |auto].
  - cbn [w_tree]. eapply attach_inv; eassumption.
  - constructor; [|exact Htr]. apply attach_acyclic; assumption.
  - cbn [w_tree nodes]. intros _ w' (Hinv' & Htr' & Hlen).
    apply wp_connect_goal; try assumption.
    rewrite Hlen, length_app. simpl. lia.
Qed.

(** Sampling and steering read the tree and draw random numbers; they
    change neither the tree nor the history. *)
Lemma tape_only_bind {A B} (m : M A) (f : A -> M B) :
  tape_only m -> (forall a, tape_only (f a)) -> tape_only (m ≫= f).
Proof.
  intros Hm Hf w. specialize (Hm w). unfold mbind, M_bind.
  destruct (m w) as [[a| |] w']; simpl in *; try exact Hm.
  destruct (Hf a w') as [H1 H2]. destruct Hm as [H3 H4]. split; congruence.
Qed.

Lemma tape_only_pure {A} (a : A) : tape_only (pure a).
Proof. intros w. split; reflexivity. Qed.

Lemma tape_only_lift {A} (r : result A) : tape_only (lift r).
Proof. intros w. split; reflexivity. Qed.

Lemma tape_only_get_tree : tape_only get_tree.
Proof. intros w. split; reflexivity. Qed.

Lemma tape_only_random : tape_only random.
Proof. intros w. unfold random. destruct (w_tape w); split; reflexivity. Qed.

Lemma tape_only_uniform (a b : Q) : tape_only (uniform a b).
Proof.
  apply tape_only_bind; [apply tape_only_random | intros u; apply tape_only_pure].
Qed.

Lemma tape_only_sample_point (fuel : nat) : tape_only (sample_point fuel).
Proof.
  induction fuel as [|fuel IH]; cbn [sample_point]; [apply tape_only_lift|].
  apply tape_only_bind; [apply tape_only_uniform | intros x].
  apply tape_only_bind; [apply tape_only_uniform | intros y].
  apply tape_only_bind; [apply tape_only_lift | intros c].
  destruct (Qltb _ _); [|exact IH].
  apply tape_only_bind; [apply tape_only_lift | intros b].
  destruct (negb b); [apply tape_only_pure | exact IH].
Qed.

Lemma tape_only_propose (fuel : nat) : tape_only (propose fuel).
Proof.
  induction fuel as [|fuel IH]; cbn [propose]; [apply tape_only_lift|].
  apply tape_only_bind; [apply tape_only_random | intros u].
  apply tape_only_bind.
  { destruct (Qltb _ _); [apply tape_only_pure | apply tape_only_sample_point]. }
  intros rand_point.
  apply tape_only_bind; [apply tape_only_get_tree | intros t].
  apply tape_only_bind; [apply tape_only_lift | intros nearest_idx].
  apply tape_only_bind; [apply tape_only_lift | intros nearest].
  apply tape_only_bind; [apply tape_only_lift | intros new_point].
  apply tape_only_bind; [apply tape_only_lift | intros ok].
  destruct ok; [apply tape_only_pure | exact IH].
Qed.

Lemma wp_tape_only {A} (m : M A) (Q : A -> world -> Prop) (E : world -> Prop)
    (w : world) :
  tape_only m ->
  (forall a w', w_tree w' = w_tree w -> w_trace w' = w_trace w -> Q a w') ->
  (forall w', w_tree w' = w_tree w -> w_trace w' = w_trace w -> E w') ->
  wp m Q E w.
Proof.
  intros Hm HQ HE. unfold wp. destruct (Hm w) as [H1 H2].
  destruct (m w) as [[a| |] w']; simpl in *; auto.
Qed.

Lemma wp_iteration (fuel : nat) (w : world) :
  (forall q, 0 <= fsqrt q)%Q ->
  grid_nonneg ->
  tree_inv (w_tree w) -> trace_ok w ->
  wp (iteration fuel)
     (fun _ w' => tree_inv (w_tree w') /\ trace_ok w')
     trace_ok w.
Proof.
  intros Hsqrt Hgrid Hinv Htr. unfold iteration.
  apply wp_bind, wp_tape_only; [apply tape_only_propose | |].
  - intros [[nearest_idx nearest] new_point] w' Htree Htrace.
    apply wp_extend; try assumption.
    + rewrite Htree. exact Hinv.
    + unfold trace_ok. rewrite Htrace. exact Htr.
  - intros w' _ Htrace. unfold trace_ok. rewrite Htrace. exact Htr.
Qed.

Lemma wp_find_path_loop (fuel iters : nat) :
  (forall q, 0 <= fsqrt q)%Q ->
  grid_nonneg ->
  forall w : world,
    tree_inv (w_tree w) -> trace_ok w ->
    wp (find_path_loop fuel iters)
       (fun _ w' => tree_inv (w_tree w') /\ trace_ok w')
       trace_ok w.
Proof.
  intros Hsqrt Hgrid.
  induction iters as [|iters IH]; intros w Hinv Htr; cbn [find_path_loop].
  - apply wp_pure. auto.
  - apply wp_bind. eapply wp_mono; [apply wp_iteration; assumption | |auto].
    intros [path|] w' [Hinv' Htr']; [apply wp_pure; auto | apply IH; assumption].
Qed.

Lemma init_tree_inv : tree_inv init_tree.
Proof.
  split; simpl.
  - lia.
  - intros i. destruct i as [|i].
    + rewrite lookup_singleton_eq. split; [lia | eauto].
    + rewrite lookup_singleton_ne by lia. split; [intros [? ?]; discriminate | lia].
  - intros i. destruct i as [|i].
    + rewrite lookup_singleton_eq. split; [lia | eauto].
    + rewrite lookup_singleton_ne by lia. split; [intros [? ?]; discriminate | lia].
  - intros i p Hp. destruct i as [|i].
    + rewrite lookup_singleton_eq in Hp. discriminate.
    + rewrite lookup_singleton_ne in Hp by lia. discriminate.
  - intros i Hi. assert (i = O) as -> by lia. constructor. apply lookup_singleton_eq.
Qed.

(** C2: at every point of a run of [find_path], and after it, the parent
    relation has no cycle: following parent pointers from any node reaches
    the root, index 0 with parent [None], in finitely many steps.  The
    history of the run holds the tree as it stood right after each
    assignment to [self.parent], the first entry being the tree at
    construction; grid costs are non-negative, as the data model says. *)
Theorem find_path_parents_acyclic (fuel : nat) (tape : list Q) :
  (forall q, 0 <= fsqrt q)%Q ->
  grid_nonneg ->
  Forall acyclic (w_trace (find_path fuel (init_world tape)).2)
  /\ (is_ok (find_path fuel (init_world tape)).1 ->
      acyclic (w_tree (find_path fuel (init_world tape)).2)).
Proof.
  intros Hsqrt Hgrid.
  pose proof (wp_find_path_loop fuel (max_iter self) Hsqrt Hgrid (init_world tape)) as H.
  unfold wp in H. fold (find_path fuel) in H.
  assert (trace_ok (init_world tape)) as Htr0.
  { constructor; [apply tree_inv_acyclic, init_tree_inv | constructor]. }
  specialize (H init_tree_inv Htr0).
  destruct (find_path fuel (init_world tape)) as [[r| |] w']; simpl.
  - destruct H as [Hinv Htr]. split; [exact Htr|]. intros _. apply tree_inv_acyclic, Hinv.
  - split; [exact H | contradiction].
  - split; [exact H | contradiction].
Qed.

(** ** The main loop *)

Lemma find_path_loop_none (fuel n : nat) :
  forall w w', find_path_loop fuel n w = (Ok None, w') ->
               rounds_without_goal fuel n w w'.
Proof.
  induction n as [|n IH]; intros w w' H; cbn [find_path_loop] in H.
  - injection H as <-. constructor.
  - unfold mbind, M_bind in H.
    destruct (iteration fuel w) as [[[path|]| |] w1] eqn:Hit; try discriminate.
    econstructor; [exact Hit | apply IH, H].
Qed.

Lemma find_path_loop_some (fuel n : nat) :
  forall (w w' : world) (path : list point),
    find_path_loop fuel n w = (Ok (Some path), w') ->
    exists (k : nat) (w1 : world),
      (k < n)%nat /\ rounds_without_goal fuel k w w1
      /\ iteration fuel w1 = (Ok (Some path), w').
Proof.
  induction n as [|n IH]; intros w w' path H; cbn [find_path_loop] in H;
    [discriminate|].
  unfold mbind, M_bind in H.
  destruct (iteration fuel w) as [[[p|]| |] w1] eqn:Hit; try discriminate.
  - injection H as <- <-. exists O, w. split; [lia|]. split; [constructor | exact Hit].
  - destruct (IH w1 w' path H) as (k & w2 & Hk & Hrounds & Hlast).
    exists (S k), w2. split; [lia|]. split; [|exact Hlast].
    econstructor; eassumption.
Qed.

(** C4: when the [max_iter] rounds of the loop all pass without
    connecting to the goal, [find_path] returns [None]: a value, not an
    exception, and not a path.  [None] is returned in no other case, and a
    path only from a round that connects to the goal. *)
Theorem find_path_exhausted_returns_none (fuel : nat) (w w' : world) :
  (rounds_without_goal fuel (max_iter self) w w' ->
   find_path fuel w = (Ok None, w'))
  /\ (find_path fuel w = (Ok None, w') ->
      rounds_without_goal fuel (max_iter self) w w')
  /\ (forall path : list point,
         find_path fuel w = (Ok (Some path), w') ->
         exists (k : nat) (w1 : world),
           (k < max_iter self)%nat /\ rounds_without_goal fuel k w w1
           /\ iteration fuel w1 = (Ok (Some path), w')).
Proof.
  unfold find_path. split; [|split].
  - generalize (max_iter self). intros n Hrounds.
    induction Hrounds as [v|n v v1 v2 Hit _ IH]; [reflexivity|].
    cbn [find_path_loop]. unfold mbind, M_bind. rewrite Hit. exact IH.
  - apply find_path_loop_none.
  - intros path. apply find_path_loop_some.
Qed.

(** ** The validity test *)

Lemma is_collision_point (p : point) :
  is_collision p None = Ok true \/ is_collision p None = Ok false.
Proof. unfold is_collision. destruct (existsb _ _); auto. Qed.

Lemma propose_valid (fuel : nat) :
  forall (w w' : world) (nearest_idx : nat) (nearest new_point : point),
    propose fuel w = (Ok (nearest_idx, nearest, new_point), w') ->
    candidate_valid new_point = Ok true.
Proof.
  induction fuel as [|fuel IH]; intros w w' nearest_idx nearest new_point H;
    cbn [propose] in H; [discriminate|].
  unfold mbind at 1, M_bind at 1 in H.
  destruct (random w) as [[u| |] w1]; try discriminate.
  unfold mbind at 1, M_bind at 1 in H.
  destruct ((if Qltb u (1 # 10) then pure (goal self) else sample_point fuel) w1)
    as [[rand_point| |] w2]; try discriminate.
  unfold mbind, M_bind, get_tree, lift in H.
  destruct (nearest_node (w_tree w2) rand_point) as [i| |]; try discriminate.
  destruct (node_at (w_tree w2) i) as [n| |]; try discriminate.
  destruct (steer n rand_point) as [p| |]; try discriminate.
  destruct (candidate_valid p) as [[|]| |] eqn:Hvalid; try discriminate.
  - injection H as _ _ <- _. exact Hvalid.
  - eapply IH. exact H.
Qed.

(** One round of the sampling loop, once the candidate is there: the
    outcome is that of the validity test. *)
Lemma propose_round (fuel : nat) (w w1 w2 : world) (u : Q) (rand_point : point)
    (nearest_idx : nat) (nearest new_point : point) :
  random w = (Ok u, w1) ->
  (if Qltb u (1 # 10) then pure (goal self) else sample_point fuel) w1
  = (Ok rand_point, w2) ->
  nearest_node (w_tree w2) rand_point = Ok nearest_idx ->
  node_at (w_tree w2) nearest_idx = Ok nearest ->
  steer nearest rand_point = Ok new_point ->
  propose (S fuel) w
  = match candidate_valid new_point with
    | Ok true => (Ok (nearest_idx, nearest, new_point), w2)
    | Ok false => propose fuel w2
    | Raise e => (Raise e, w2)
    | OutOfFuel => (OutOfFuel, w2)
    end.
Proof.
  intros Hu Hrand Hidx Hnode Hsteer. cbn [propose].
  unfold mbind at 1, M_bind at 1. rewrite Hu.
  unfold mbind at 1, M_bind at 1. rewrite Hrand.
  unfold mbind, M_bind, get_tree, lift. rewrite Hidx, Hnode, Hsteer.
  destruct (candidate_valid new_point) as [[|]| |]; reflexivity.
Qed.

Lemma candidate_valid_true (new_point : point) :
  candidate_valid new_point = Ok true <->
  is_collision new_point None = Ok false
  \/ exists c, get_grid_cost new_point = Ok c
               /\ (c < traversability_threshold self)%Q.
Proof.
  unfold candidate_valid.
  destruct (is_collision_point new_point) as [-> | ->]; rewrite bind_Ok; cbn [negb].
  - split.
    + intros H. right. destruct (get_grid_cost new_point) as [c| |]; try discriminate.
      exists c. split; [reflexivity|]. apply Qltb_lt. simpl in H. congruence.
    + intros [H|(c & -> & Hc)]; [discriminate|].
      rewrite bind_Ok. f_equal. apply Qltb_lt, Hc.
  - split; auto.
Qed.

Lemma candidate_valid_false (new_point : point) :
  candidate_valid new_point = Ok false <->
  is_collision new_point None = Ok true
  /\ exists c, get_grid_cost new_point = Ok c
               /\ (traversability_threshold self <= c)%Q.
Proof.
  unfold candidate_valid.
  destruct (is_collision_point new_point) as [-> | ->]; rewrite bind_Ok; cbn [negb].
  - split.
    + intros H. split; [reflexivity|].
      destruct (get_grid_cost new_point) as [c| |]; try discriminate.
      exists c. split; [reflexivity|]. apply Qltb_ge. simpl in H. congruence.
    + intros (_ & c & -> & Hc). rewrite bind_Ok. f_equal. apply Qltb_ge, Hc.
  - split; [discriminate | intros [H _]; discriminate].
Qed.

(** C5: in a round of the sampling loop of [find_path], let [new_point]
    be the candidate that sampling and steering produce, from the nearest
    node [nearest], and [w2] the state then.  The loop is left with this
    candidate, in this state, exactly when the candidate is not
    point-blocked or its grid cost is below the threshold.  When it is both
    point-blocked and at or above the threshold the loop goes round again
    from [w2], and these are the only two outcomes when the grid cost can be
    read.  The test itself is this disjunction, and no candidate that fails
    it ever leaves the loop. *)
Theorem candidate_accepted_iff_free_or_cheap :
  (forall (fuel : nat) (w w1 w2 : world) (u : Q) (rand_point : point)
          (nearest_idx : nat) (nearest new_point : point),
      random w = (Ok u, w1) ->
      (if Qltb u (1 # 10) then pure (goal self) else sample_point fuel) w1
      = (Ok rand_point, w2) ->
      nearest_node (w_tree w2) rand_point = Ok nearest_idx ->
      node_at (w_tree w2) nearest_idx = Ok nearest ->
      steer nearest rand_point = Ok new_point ->
      (propose (S fuel) w = (Ok (nearest_idx, nearest, new_point), w2) <->
       is_collision new_point None = Ok false
       \/ exists c, get_grid_cost new_point = Ok c
                    /\ (c < traversability_threshold self)%Q)
      /\ (is_collision new_point None = Ok true
          /\ (exists c, get_grid_cost new_point = Ok c
                        /\ (traversability_threshold self <= c)%Q) ->
          propose (S fuel) w = propose fuel w2)
      /\ ((exists c, get_grid_cost new_point = Ok c) ->
          propose (S fuel) w = (Ok (nearest_idx, nearest, new_point), w2)
          \/ propose (S fuel) w = propose fuel w2))
  /\ (forall new_point : point,
         (candidate_valid new_point = Ok true <->
          is_collision new_point None = Ok false
          \/ exists c, get_grid_cost new_point = Ok c
                       /\ (c < traversability_threshold self)%Q)
         /\ (candidate_valid new_point = Ok false <->
             is_collision new_point None = Ok true
             /\ exists c, get_grid_cost new_point = Ok c
                          /\ (traversability_threshold self <= c)%Q))
  /\ (forall (fuel : nat) (w w' : world) (nearest_idx : nat) (nearest p : point),
         propose fuel w = (Ok (nearest_idx, nearest, p), w') ->
         candidate_valid p = Ok true).
Proof.
  split; [|split; [|intros fuel w w' i n p; apply propose_valid]].
  - intros fuel w w1 w2 u rand_point nearest_idx nearest new_point
           Hu Hrand Hidx Hnode Hsteer.
    pose proof (propose_round fuel w w1 w2 u rand_point nearest_idx nearest new_point
                  Hu Hrand Hidx Hnode Hsteer) as Hround.
    split; [|split].
    + split.
      * intros Hacc. apply candidate_valid_true.
        eapply propose_valid. exact Hacc.
      * intros Hok. apply candidate_valid_true in Hok.
        rewrite Hround, Hok. reflexivity.
    + intros Hbad. apply candidate_valid_false in Hbad.
      rewrite Hround, Hbad. reflexivity.
    + intros (c & Hc). rewrite Hround. unfold candidate_valid.
      destruct (is_collision_point new_point) as [-> | ->]; rewrite bind_Ok; cbn [negb].
      * rewrite Hc, bind_Ok. destruct (Qltb c _); auto.
      * left. reflexivity.
  - intros new_point. split; [apply candidate_valid_true | apply candidate_valid_false].
Qed.

(** ** The goal test *)



(** ** Returned paths *)

Lemma segments_free_one (p : point) : segments_free [p].
Proof. intros i a b Ha Hb. destruct i; discriminate. Qed.

Lemma segments_free_cons (p c : point) (l : list point) :
  is_collision p (Some c) = Ok false -> segments_free (c :: l) ->
  segments_free (p :: c :: l).
Proof.
  intros Hpc Hl i a b Ha Hb. destruct i as [|i].
  - simpl in Ha, Hb. injection Ha as <-. injection Hb as <-. exact Hpc.
  - simpl in Ha, Hb. eapply Hl; eassumption.
Qed.

Lemma node_at_Ok (t : tree) (i : nat) (p : point) :
  node_at t i = Ok p -> nodes t !! i = Some p.
Proof. unfold node_at. destruct (nodes t !! i); congruence. Qed.

Lemma parent_at_Ok (t : tree) (i : nat) (p : option nat) :
  parent_at t i = Ok p -> parent t !! i = Some p.
Proof. unfold parent_at. destruct (parent t !! i); congruence. Qed.

(** The walk from a node up to the root, read backwards, is a path from the
    start along checked edges. *)
Lemma walk_parents_chain (t : tree) :
  edge_inv t ->
  forall (fuel i : nat) (acc raw : list point) (b : point),
    walk_parents fuel t (Some i) acc = Ok raw ->
    nodes t !! i = Some b ->
    segments_free (b :: rev acc) ->
    segments_free (rev raw)
    /\ head (rev raw) = Some (start self)
    /\ last (rev raw) = last (b :: rev acc).
Proof.
  intros Hinv fuel.
  induction fuel as [|fuel IH]; intros i acc raw b Hwalk Hb Hfree;
    cbn [walk_parents] in Hwalk; [discriminate|].
  apply bind_Ok_inv in Hwalk. destruct Hwalk as (p & Hp & Hwalk).
  apply node_at_Ok in Hp. rewrite Hb in Hp. injection Hp as <-.
  apply bind_Ok_inv in Hwalk. destruct Hwalk as (next & Hnext & Hwalk).
  apply parent_at_Ok in Hnext.
  destruct next as [q|].
  - destruct (ei_free t Hinv i q Hnext) as (a & b' & Ha & Hb' & Hcol).
    rewrite Hb in Hb'. injection Hb' as <-.
    destruct (IH q (acc ++ [b]) raw a Hwalk Ha) as (H1 & H2 & H3).
    + rewrite rev_app_distr. simpl. apply segments_free_cons; assumption.
    + split; [exact H1|]. split; [exact H2|].
      rewrite H3, rev_app_distr. simpl. reflexivity.
  - assert (raw = acc ++ [b]) as -> by (destruct fuel; simpl in Hwalk; congruence).
    rewrite rev_app_distr. simpl.
    pose proof (ei_none t Hinv i Hnext) as ->.
    rewrite (ei_root t Hinv) in Hb. injection Hb as <-.
    split; [exact Hfree|]. split; reflexivity.
Qed.

Lemma reconstruct_path_sound (t : tree) (fuel goal_idx : nat) (path : list point) :
  edge_inv t ->
  nodes t !! goal_idx = Some (goal self) ->
  reconstruct_path fuel t goal_idx = Ok path ->
  sound_path path.
Proof.
  intros Hinv Hgoal Hrec. unfold reconstruct_path in Hrec.
  apply bind_Ok_inv in Hrec. destruct Hrec as (raw & Hwalk & Hrec).
  destruct (walk_parents_chain t Hinv fuel goal_idx [] raw (goal self) Hwalk Hgoal)
    as (Hfree & Hhead & Hlast); [apply segments_free_one|].
  simpl in Hlast.
  destruct (simplify self).
  - destruct (simplify_path_outcomes (rev raw) fuel Hfree)
      as [(res & Hres & Hh & (a & f & Ha & Hf & Haf) & Hfr & _)
         |[(e & _ & _ & _ & _ & _ & _ & _ & _ & Hraise)|[Hout _]]];
      try congruence.
    + intros Hnil. rewrite Hnil in Hhead. discriminate.
    + rewrite Hrec in Hres. injection Hres as <-.
      split; [congruence|]. split; [|exact Hfr].
      exists a. split; [exact Ha|]. congruence.
  - injection Hrec as <-. split; [exact Hhead|]. split; [|exact Hfree].
    exists (goal self). split; [exact Hlast | apply point_eqb_refl].
Qed.

Lemma edge_inv_same (t t' : tree) :
  nodes t' = nodes t -> parent t' = parent t -> edge_inv t -> edge_inv t'.
Proof.
  intros Hn Hp [H1 H2 H3]. split; rewrite ?Hn, ?Hp; assumption.
Qed.

Lemma edge_inv_append (t : tree) (p : point) :
  edge_inv t ->
  edge_inv {| nodes := nodes t ++ [p]; parent := parent t; cost := cost t |}.
Proof.
  intros [H1 H2 H3]. split; simpl.
  - apply lookup_app_l_Some, H1.
  - exact H2.
  - intros i q Hq. destruct (H3 i q Hq) as (a & b & Ha & Hb & Hcol).
    exists a, b. auto using lookup_app_l_Some.
Qed.

Lemma edge_inv_set_parent (t : tree) (k p : nat) (a b : point) :
  edge_inv t ->
  nodes t !! p = Some a -> nodes t !! k = Some b ->
  is_collision a (Some b) = Ok false ->
  edge_inv {| nodes := nodes t; parent := <[k := Some p]> (parent t); cost := cost t |}.
Proof.
  intros [H1 H2 H3] Ha Hb Hcol. split; simpl.
  - exact H1.
  - intros i Hi. destruct (decide (k = i)) as [->|Hne].
    + rewrite lookup_insert_eq in Hi. discriminate.
    + rewrite lookup_insert_ne in Hi by exact Hne. apply H2, Hi.
  - intros i q Hq. destruct (decide (k = i)) as [->|Hne].
    + rewrite lookup_insert_eq in Hq. injection Hq as <-. eauto.
    + rewrite lookup_insert_ne in Hq by exact Hne. apply H3, Hq.
Qed.

Lemma choose_parent_edge (t : tree) (new_point : point) (near_nodes : list nat)
    (nearest_idx : nat) :
  forall (min_cost : Q) (min_parent : nat) (c' : Q) (p' : nat),
    choose_parent t new_point near_nodes min_cost min_parent = Ok (c', p') ->
    (min_parent = nearest_idx
     \/ exists node, nodes t !! min_parent = Some node
                     /\ is_collision node (Some new_point) = Ok false) ->
    p' = nearest_idx
    \/ exists node, nodes t !! p' = Some node
                    /\ is_collision node (Some new_point) = Ok false.
Proof.
  induction near_nodes as [|idx rest IH]; intros min_cost min_parent c' p' Hch Hmin.
  - simpl in Hch. injection Hch as _ <-. exact Hmin.
  - simpl in Hch.
    apply bind_Ok_inv in Hch. destruct Hch as (node & Hnode & Hch).
    apply bind_Ok_inv in Hch. destruct Hch as (b & Hb & Hch).
    destruct b; simpl in Hch; [eapply IH; eassumption|].
    apply bind_Ok_inv in Hch. destruct Hch as (c & _ & Hch).
    apply bind_Ok_inv in Hch. destruct Hch as (pc & _ & Hch).
    destruct (Qltb (c + pc) min_cost); [|eapply IH; eassumption].
    eapply IH; [eassumption|]. right. exists node. split; [apply node_at_Ok, Hnode | exact Hb].
Qed.

Lemma wp_rewire_edges (new_idx : nat) (new_point : point) (min_parent : nat)
    (near_nodes : list nat) :
  forall w : world,
    edge_inv (w_tree w) -> nodes (w_tree w) !! new_idx = Some new_point ->
    wp (rewire new_idx new_point min_parent near_nodes)
       (fun _ w' => edge_inv (w_tree w') /\ nodes (w_tree w') = nodes (w_tree w))
       (fun _ => True) w.
Proof.
  induction near_nodes as [|idx rest IH]; intros w Hinv Hnew.
  - apply wp_pure. auto.
  - cbn [rewire]. destruct (Nat.eqb idx min_parent); [apply IH; assumption|].
    apply wp_bind, wp_get_tree.
    apply wp_bind, wp_lift; [intros node Hnode | exact I].
    apply wp_bind, wp_lift; [intros cn Hcn | exact I].
    apply wp_bind, wp_lift; [intros pc Hpc | exact I].
    apply wp_bind, wp_lift; [intros ci Hci | exact I].
    apply node_at_Ok in Hnode.
    apply wp_bind.
    destruct (Qltb (cn + pc) ci); [|apply wp_pure, IH; assumption].
    apply wp_bind, wp_lift; [intros b Hb | exact I].
    destruct b; cbn [negb]; [apply wp_pure, IH; assumption|].
    unfold wp at 1. cbn [mbind M_bind set_parent set_cost].
    eapply wp_mono; [apply IH| |auto].
    + cbn [w_tree].
      eapply edge_inv_same;
        [| |exact (edge_inv_set_parent (w_tree w) idx new_idx new_point node
                     Hinv Hnew Hnode Hb)]; reflexivity.
    + exact Hnew.
    + cbn [w_tree nodes]. intros _ w' (? & ?). auto.
Qed.

Lemma wp_connect_goal_edges (fuel new_idx : nat) (new_point : point) (w : world) :
  edge_inv (w_tree w) -> nodes (w_tree w) !! new_idx = Some new_point ->
  wp (connect_goal fuel new_idx new_point)
     (fun r w' => edge_inv (w_tree w')
                  /\ forall path, r = Some path -> sound_path path)
     (fun _ => True) w.
Proof.
  intros Hinv Hnew. unfold connect_goal.
  destruct (Qltb _ _); [|apply wp_pure; split; [assumption | discriminate]].
  apply wp_bind, wp_lift; [intros b Hb | exact I].
  destruct b; cbn [negb]; [apply wp_pure; split; [assumption | discriminate]|].
  apply wp_bind, wp_get_tree.
  apply wp_bind. unfold wp at 1. cbn [nodes_append].
  apply wp_bind. unfold wp at 1. cbn [set_parent w_tree w_tape w_trace nodes parent cost].
  apply wp_bind, wp_get_tree.
  apply wp_bind, wp_lift; [intros cn Hcn | exact I].
  apply wp_bind, wp_lift; [intros pc Hpc | exact I].
  apply wp_bind. unfold wp at 1. cbn [set_cost w_tree w_tape w_trace nodes parent cost].
  apply wp_bind, wp_get_tree. cbn [w_tree].
  assert (edge_inv
            {| nodes := nodes (w_tree w) ++ [goal self];
               parent := <[length (nodes (w_tree w)) := Some new_idx]> (parent (w_tree w));
               cost := <[length (nodes (w_tree w)) := (cn + pc)%Q]> (cost (w_tree w)) |})
    as Hinv'.
  { eapply edge_inv_same;
      [| |apply (edge_inv_set_parent _ (length (nodes (w_tree w))) new_idx
                   new_point (goal self) (edge_inv_append _ (goal self) Hinv))];
      try reflexivity; simpl.
    - apply lookup_app_l_Some, Hnew.
    - rewrite lookup_app_r by lia. rewrite Nat.sub_diag. reflexivity.
    - exact Hb. }
  apply wp_bind, wp_lift; [intros path Hpath | exact I].
  apply wp_pure. split; [exact Hinv'|].
  intros path' [= <-].
  eapply reconstruct_path_sound; [exact Hinv' | | exact Hpath].
  simpl. rewrite lookup_app_r by lia. rewrite Nat.sub_diag. reflexivity.
Qed.

Lemma wp_extend_edges (fuel nearest_idx : nat) (nearest new_point : point) (w : world) :
  edge_inv (w_tree w) -> nodes (w_tree w) !! nearest_idx = Some nearest ->
  wp (extend fuel nearest_idx nearest new_point)
     (fun r w' => edge_inv (w_tree w')
                  /\ forall path, r = Some path -> sound_path path)
     (fun _ => True) w.
Proof.
  intros Hinv Hnearest. unfold extend.
  apply wp_bind, wp_lift; [intros b Hb | exact I].
  destruct b; cbn [negb]; [apply wp_pure; split; [assumption | discriminate]|].
  apply wp_bind, wp_get_tree.
  apply wp_bind. unfold wp at 1. cbn [nodes_append].
  apply wp_bind, wp_get_tree. cbn [w_tree].
  apply wp_bind, wp_lift; [intros cn Hcn | exact I].
  apply wp_bind, wp_lift; [intros pc Hpc | exact I].
  apply wp_bind, wp_lift; [intros [min_cost min_parent] Hch | exact I].
  pose proof (edge_inv_append _ new_point Hinv) as Hpending.
  assert (exists node,
             (nodes (w_tree w) ++ [new_point]) !! min_parent = Some node
             /\ is_collision node (Some new_point) = Ok false) as (node & Hnode & Hfree).
  { destruct (choose_parent_edge _ _ _ nearest_idx _ _ _ _ Hch (or_introl eq_refl))
      as [->|(node & Hnode & Hfree)]; [|eauto].
    exists nearest. split; [apply lookup_app_l_Some, Hnearest | exact Hb]. }
  assert ((nodes (w_tree w) ++ [new_point]) !! length (nodes (w_tree w)) = Some new_point)
    as Hnew by (rewrite lookup_app_r by lia; rewrite Nat.sub_diag; reflexivity).
  apply wp_bind. unfold wp at 1. cbn [set_parent w_tree w_tape w_trace nodes parent cost].
  apply wp_bind. unfold wp at 1. cbn [set_cost w_tree w_tape w_trace nodes parent cost].
  apply wp_bind.
  eapply wp_mono; [apply wp_rewire_edges | |auto].
  - cbn [w_tree].
    eapply edge_inv_same;
      [| |exact (edge_inv_set_parent _ (length (nodes (w_tree w))) min_parent node
                   new_point Hpending Hnode Hnew Hfree)]; reflexivity.
  - exact Hnew.
  - cbn [w_tree nodes]. intros _ w' (Hinv' & Hnodes).
    apply wp_connect_goal_edges; [exact Hinv'|]. rewrite Hnodes. exact Hnew.
Qed.

Lemma propose_node (fuel : nat) :
  forall (w w' : world) (nearest_idx : nat) (nearest new_point : point),
    propose fuel w = (Ok (nearest_idx, nearest, new_point), w') ->
    nodes (w_tree w') !! nearest_idx = Some nearest.
Proof.
  induction fuel as [|fuel IH]; intros w w' nearest_idx nearest new_point H;
    cbn [propose] in H; [discriminate|].
  unfold mbind at 1, M_bind at 1 in H.
  destruct (random w) as [[u| |] w1]; try discriminate.
  unfold mbind at 1, M_bind at 1 in H.
  destruct ((if Qltb u (1 # 10) then pure (goal self) else sample_point fuel) w1)
    as [[rand_point| |] w2]; try discriminate.
  unfold mbind, M_bind, get_tree, lift in H.
  destruct (nearest_node (w_tree w2) rand_point) as [i| |]; try discriminate.
  destruct (node_at (w_tree w2) i) as [n| |] eqn:Hn; try discriminate.
  destruct (steer n rand_point) as [p| |]; try discriminate.
  destruct (candidate_valid p) as [[|]| |]; try discriminate.
  - injection H as <- <- _ <-. apply node_at_Ok, Hn.
  - eapply IH. exact H.
Qed.

Lemma wp_iteration_edges (fuel : nat) (w : world) :
  edge_inv (w_tree w) ->
  wp (iteration fuel)
     (fun r w' => edge_inv (w_tree w')
                  /\ forall path, r = Some path -> sound_path path)
     (fun _ => True) w.
Proof.
  intros Hinv. unfold iteration, wp, mbind, M_bind.
  destruct (propose fuel w) as [[[[nearest_idx nearest] new_point]| |] w1] eqn:Hprop;
    try exact I.
  pose proof (propose_node fuel _ _ _ _ _ Hprop) as Hnode.
  destruct (tape_only_propose fuel w) as [Htree _]. rewrite Hprop in Htree. simpl in Htree.
  apply (wp_extend_edges fuel nearest_idx nearest new_point w1).
  - rewrite Htree. exact Hinv.
  - exact Hnode.
Qed.

Lemma wp_find_path_loop_edges (fuel iters : nat) :
  forall w : world,
    edge_inv (w_tree w) ->
    wp (find_path_loop fuel iters)
       (fun r w' => forall path, r = Some path -> sound_path path)
       (fun _ => True) w.
Proof.
  induction iters as [|iters IH]; intros w Hinv; cbn [find_path_loop].
  - apply wp_pure. discriminate.
  - apply wp_bind. eapply wp_mono; [apply wp_iteration_edges; assumption | |auto].
    intros [path|] w' [Hinv' Hsound].
    + apply wp_pure. exact Hsound.
    + apply IH. exact Hinv'.
Qed.

Lemma init_tree_edges : edge_inv init_tree.
Proof.
  split; simpl.
  - reflexivity.
  - intros i Hi. destruct i; [reflexivity|].
    rewrite lookup_singleton_ne in Hi by lia. discriminate.
  - intros i p Hp. destruct i.
    + rewrite lookup_singleton_eq in Hp. discriminate.
    + rewrite lookup_singleton_ne in Hp by lia. discriminate.
Qed.

(** X1: every path [find_path] returns starts at the start, ends at the
    goal (by value) and has every consecutive pair of points unblocked. *)
Theorem find_path_returns_sound_path (fuel : nat) (tape : list Q) (path : list point)
    (w' : world) :
  find_path fuel (init_world tape) = (Ok (Some path), w') ->
  sound_path path.
Proof.
  intros Hrun.
  pose proof (wp_find_path_loop_edges fuel (max_iter self) (init_world tape)
                init_tree_edges) as H.
  unfold wp in H. fold (find_path fuel) in H. rewrite Hrun in H.
  apply H. reflexivity.
Qed.

(** ** Sampling and neighbour queries *)

(** X2: a sampled point has a grid cost below the threshold and lies in no
    obstacle. *)
Theorem sample_point_below_threshold_and_free (fuel : nat) :
  forall (w w' : world) (p : point),
    sample_point fuel w = (Ok p, w') ->
    (exists c, get_grid_cost p = Ok c /\ (c < traversability_threshold self)%Q)
    /\ is_collision p None = Ok false.
Proof.
  induction fuel as [|fuel IH]; intros w w' p H; cbn [sample_point] in H;
    [discriminate|].
  unfold mbind at 1, M_bind at 1 in H.
  destruct (uniform _ _ w) as [[x| |] w1]; try discriminate.
  unfold mbind at 1, M_bind at 1 in H.
  destruct (uniform _ _ w1) as [[y| |] w2]; try discriminate.
  unfold mbind at 1, M_bind at 1, lift at 1 in H.
  destruct (get_grid_cost (x, y)) as [c| |] eqn:Hc; try discriminate.
  destruct (Qltb c (traversability_threshold self)) eqn:Hlt; [|eapply IH; exact H].
  unfold mbind at 1, M_bind at 1, lift at 1 in H.
  destruct (is_collision (x, y) None) as [[|]| |] eqn:Hb; try discriminate;
    cbn [negb] in H; [eapply IH; exact H|].
  injection H as <- _. split; [|exact Hb].
  exists c. split; [exact Hc | apply Qltb_lt, Hlt].
Qed.

Lemma near_from_spec (new_point : point) (l : list point) :
  forall (k i : nat),
    i ∈ near_from k l new_point <->
    exists (j : nat) (node : point),
      i = (k + j)%nat /\ l !! j = Some node
      /\ (0 < norm (psub node new_point))%Q
      /\ (norm (psub node new_point) < neighbor_radius self)%Q.
Proof.
  induction l as [|node l IH]; intros k i; cbn [near_from].
  - split; [intros H; inversion H | intros (j & n & _ & Hj & _); discriminate].
  - destruct (Qltb (norm (psub node new_point)) (neighbor_radius self)) eqn:Hr;
      destruct (Qltb 0 (norm (psub node new_point))) eqn:Hz; cbn [andb];
      rewrite ?elem_of_cons, IH; split.
    + intros [->|(j & n & -> & Hj & H0 & H1)].
      * exists O, node. rewrite Nat.add_0_r. apply Qltb_lt in Hr, Hz. auto.
      * exists (S j), n. repeat split; try assumption. lia.
    + intros (j & n & -> & Hj & H0 & H1). destruct j as [|j].
      * left. lia.
      * right. exists j, n. repeat split; try assumption. lia.
    + intros (j & n & -> & Hj & H0 & H1).
      exists (S j), n. repeat split; try assumption. lia.
    + intros (j & n & -> & Hj & H0 & H1). destruct j as [|j].
      * simpl in Hj. injection Hj as <-. apply Qltb_lt in H0. congruence.
      * exists j, n. repeat split; try assumption. lia.
    + intros (j & n & -> & Hj & H0 & H1).
      exists (S j), n. repeat split; try assumption. lia.
    + intros (j & n & -> & Hj & H0 & H1). destruct j as [|j].
      * simpl in Hj. injection Hj as <-. apply Qltb_lt in H1. congruence.
      * exists j, n. repeat split; try assumption. lia.
    + intros (j & n & -> & Hj & H0 & H1).
      exists (S j), n. repeat split; try assumption. lia.
    + intros (j & n & -> & Hj & H0 & H1). destruct j as [|j].
      * simpl in Hj. injection Hj as <-. apply Qltb_lt in H1. congruence.
      * exists j, n. repeat split; try assumption. lia.
Qed.

(** X3: the near nodes of a point are the indices of the nodes at a
    distance in the open interval (0, [neighbor_radius]). *)
Theorem get_near_nodes_open_interval (t : tree) (new_point : point) (i : nat) :
  i ∈ get_near_nodes t new_point <->
  exists node : point,
    nodes t !! i = Some node
    /\ (0 < norm (psub node new_point))%Q
    /\ (norm (psub node new_point) < neighbor_radius self)%Q.
Proof.
  unfold get_near_nodes. rewrite near_from_spec. split.
  - intros (j & n & -> & H). exists n. exact H.
  - intros (n & H). exists i, n. split; [reflexivity | exact H].
Qed.

Lemma fold_min_spec (xs : list Q) :
  forall x : Q,
    let m := fold_left (fun m y => if Qltb y m then y else m) xs x in
    m ∈ x :: xs /\ forall y, y ∈ x :: xs -> (m <= y)%Q.
Proof.
  induction xs as [|z xs IH]; intros x; cbn [fold_left].
  - split; [left|]. intros y Hy. apply list_elem_of_singleton in Hy. subst. apply Qle_refl.
  - destruct (Qltb z x) eqn:Hzx.
    + destruct (IH z) as [Hin Hmin]. split.
      * right. exact Hin.
      * intros y Hy. apply elem_of_cons in Hy. destruct Hy as [->|Hy]; [|apply Hmin, Hy].
        apply Qltb_lt in Hzx. specialize (Hmin z (list_elem_of_here _ _)). lra.
    + destruct (IH x) as [Hin Hmin]. split.
      * apply elem_of_cons in Hin. destruct Hin as [Hin|Hin];
          [rewrite Hin; left | right; right; exact Hin].
      * intros y Hy. apply elem_of_cons in Hy. destruct Hy as [->|Hy].
        -- apply Hmin. left.
        -- apply elem_of_cons in Hy. destruct Hy as [->|Hy].
           ++ apply Qltb_ge in Hzx. specialize (Hmin x (list_elem_of_here _ _)). lra.
           ++ apply Hmin. right. exact Hy.
Qed.

Lemma py_index_spec (v : Q) (l : list Q) :
  (exists y, y ∈ l /\ (y == v)%Q) ->
  exists (i : nat) (x : Q),
    py_index v l = Ok i /\ l !! i = Some x /\ (x == v)%Q
    /\ forall j y, (j < i)%nat -> l !! j = Some y -> ~ (y == v)%Q.
Proof.
  induction l as [|x l IH]; intros (y & Hy & Hyv); [inversion Hy|].
  cbn [py_index]. destruct (Qeq_bool x v) eqn:Hx.
  - exists O, x. apply Qeq_bool_iff in Hx. repeat split; try assumption. intros j z Hj. lia.
  - apply Qeq_bool_neq in Hx.
    apply elem_of_cons in Hy. destruct Hy as [->|Hy]; [contradiction|].
    destruct IH as (i & z & Hi & Hz & Hzv & Hbefore); [eauto|].
    exists (S i), z. rewrite Hi. repeat split; try assumption.
    intros j w Hj Hw. destruct j as [|j].
    + simpl in Hw. injection Hw as <-. exact Hx.
    + simpl in Hw. eapply Hbefore; [|exact Hw]. lia.
Qed.

(** X4: the nearest node is a node at the least distance from the point,
    and the first such node in [self.nodes]. *)
Theorem nearest_node_first_minimum (t : tree) (p : point) :
  nodes t <> [] ->
  exists (i : nat) (n : point),
    nearest_node t p = Ok i
    /\ nodes t !! i = Some n
    /\ (forall j m, nodes t !! j = Some m ->
                    (norm (psub n p) <= norm (psub m p))%Q)
    /\ (forall j m, (j < i)%nat -> nodes t !! j = Some m ->
                    (norm (psub n p) < norm (psub m p))%Q).
Proof.
  intros Hne. unfold nearest_node.
  destruct (nodes t) as [|n0 ns] eqn:Hnodes; [contradiction|].
  set (dist := fun node : point => norm (psub node p)).
  change (map (fun node => norm (psub node p)) (n0 :: ns)) with (map dist (n0 :: ns)).
  cbn [map py_min]. rewrite bind_Ok.
  destruct (fold_min_spec (map dist ns) (dist n0)) as [Hin Hmin].
  set (m := fold_left (fun m y => if Qltb y m then y else m) (map dist ns) (dist n0)) in *.
  destruct (py_index_spec m (dist n0 :: map dist ns)) as (i & x & Hi & Hx & Hxm & Hbefore).
  { exists m. split; [exact Hin | reflexivity]. }
  change (dist n0 :: map dist ns) with (map dist (n0 :: ns)) in *.
  rewrite list_lookup_fmap in Hx.
  destruct ((n0 :: ns) !! i) as [n|] eqn:Hn; [|discriminate].
  simpl in Hx. injection Hx as <-.
  exists i, n. split; [exact Hi|]. split; [exact Hn|]. split.
  - intros j q Hq. fold (dist n) (dist q). rewrite Hxm. apply Hmin.
    apply list_elem_of_lookup. exists j. rewrite list_lookup_fmap, Hq. reflexivity.
  - intros j q Hj Hq.
    assert (map dist (n0 :: ns) !! j = Some (dist q)) as Hdq
      by (rewrite list_lookup_fmap, Hq; reflexivity).
    pose proof (Hbefore j (dist q) Hj Hdq) as Hneq.
    assert (m <= dist q)%Q as Hle
      by (apply Hmin, list_elem_of_lookup; exists j; exact Hdq).
    fold (dist n) (dist q). rewrite Hxm.
    apply Qle_lteq in Hle. destruct Hle as [Hlt|Heq]; [exact Hlt|].
    exfalso. apply Hneq. symmetry. exact Heq.
Qed.
(** ** The shape of a rasterized line *)

Lemma err_bounds (err : Q) (d t : Z) :
  (err == inject_Z d / 2 + inject_Z t)%Q ->
  (0 <= err)%Q -> (err < inject_Z d)%Q ->
  - d <= 2 * t < d.
Proof.
  intros Heq H0 H1.
  assert (inject_Z (d + 2 * t) == 2 * err)%Q as Hz.
  { rewrite inject_Z_plus, inject_Z_mult, Heq. change (inject_Z 2) with 2%Q. field. }
  split.
  - assert (inject_Z 0 <= inject_Z (d + 2 * t))%Q as H.
    { rewrite Hz. change (inject_Z 0) with 0%Q. lra. }
    rewrite <- Zle_Qle in H. lia.
  - assert (inject_Z (d + 2 * t) < inject_Z (2 * d))%Q as H.
    { rewrite Hz, inject_Z_mult. change (inject_Z 2) with 2%Q. lra. }
    rewrite <- Zlt_Qlt in H. lia.
Qed.

(** The loop of the branch [dx > dy], started after [k] rounds with [m]
    steps in [y]: round [k + i] appends the cell [k + i] columns and [m']
    rows away from the start, where [m'] is the one integer with
    [-dx <= 2 (m' dx - (k + i) dy) < dx]. *)
Lemma loop_x_cells (fuel : nat) (x0 y0 x1 dx dy sx sy : Z) :
  0 <= dy -> dy <= dx -> x1 = x0 + dx * sx -> sx = 1 \/ sx = -1 ->
  forall (k m : Z) (err : Q) (line : list cell),
    0 <= k <= dx ->
    (err == inject_Z dx / 2 + inject_Z (m * dx - k * dy))%Q ->
    (0 <= err)%Q -> (err < inject_Z dx)%Q ->
    dx - k <= Z.of_nat fuel ->
    exists cells,
      loop_x fuel x1 dx dy sx sy (x0 + k * sx) (y0 + m * sy) err line
      = Ok (line ++ cells)
      /\ length cells = Z.to_nat (dx - k)
      /\ forall (i : nat) (c : cell),
          cells !! i = Some c ->
          exists m', c = (x0 + (k + Z.of_nat i) * sx, y0 + m' * sy)
                     /\ - dx <= 2 * (m' * dx - (k + Z.of_nat i) * dy) < dx.
Proof.
  intros Hdy Hdx Hx1 Hsx.
  induction fuel as [|fuel IH]; intros k m err line Hk Herr H0 H1 Hfuel.
  - assert (k = dx) as -> by lia. simpl.
    replace (x0 + dx * sx =? x1) with true by (symmetry; apply Z.eqb_eq; lia).
    exists []. rewrite app_nil_r, Z.sub_diag. repeat split.
    intros i c Hc. rewrite lookup_nil in Hc. discriminate.
  - simpl. destruct (Z.eqb_spec (x0 + k * sx) x1) as [Heq|Hne].
    + assert (k = dx) as -> by (subst x1; destruct Hsx; subst sx; lia).
      exists []. rewrite app_nil_r, Z.sub_diag. repeat split.
      intros i c Hc. rewrite lookup_nil in Hc. discriminate.
    + assert (k < dx) as Hlt by (assert (k <> dx) by (intros ->; lia); lia).
      pose proof (err_bounds err dx _ Herr H0 H1) as Hb.
      assert (inject_Z (dy) <= inject_Z dx)%Q as Hdq by (rewrite <- Zle_Qle; lia).
      assert (0 <= inject_Z dy)%Q as Hdy0
          by (change 0%Q with (inject_Z 0); rewrite <- Zle_Qle; lia).
      assert (forall m2 e2,
                 (e2 == inject_Z dx / 2 + inject_Z (m2 * dx - (k + 1) * dy))%Q ->
                 (0 <= e2)%Q -> (e2 < inject_Z dx)%Q ->
                 exists cells,
                   loop_x fuel x1 dx dy sx sy (x0 + k * sx + sx) (y0 + m2 * sy) e2
                     (line ++ [(x0 + k * sx, y0 + m * sy)])
                   = Ok (line ++ cells)
                   /\ length cells = Z.to_nat (dx - k)
                   /\ forall (i : nat) (c : cell),
                       cells !! i = Some c ->
                       exists m', c = (x0 + (k + Z.of_nat i) * sx, y0 + m' * sy)
                                  /\ - dx <= 2 * (m' * dx - (k + Z.of_nat i) * dy) < dx)
        as Hstep.
      { intros m2 e2 He2 He0 He1.
        destruct (IH (k + 1) m2 e2 (line ++ [(x0 + k * sx, y0 + m * sy)]))
          as (cells & Heq & Hlen & Hcells); try assumption; try lia.
        replace (x0 + (k + 1) * sx) with (x0 + k * sx + sx) in Heq by lia.
        exists ((x0 + k * sx, y0 + m * sy) :: cells).
        rewrite Heq, <- app_assoc. split; [reflexivity|]. split.
        - simpl. rewrite Hlen. lia.
        - intros [|i] c Hc.
          + injection Hc as <-. exists m. split; [f_equal; lia | lia].
          + apply Hcells in Hc. destruct Hc as (m' & -> & Hm').
            exists m'. split; [f_equal; lia|].
            replace (k + Z.of_nat (S i)) with (k + 1 + Z.of_nat i) by lia. exact Hm'. }
      destruct (Qltb (err - inject_Z dy) 0) eqn:Hneg.
      * apply Qltb_lt in Hneg.
        replace (y0 + m * sy + sy) with (y0 + (m + 1) * sy) by lia.
        apply Hstep; [|lra|lra].
        rewrite Herr.
        replace ((m + 1) * dx - (k + 1) * dy) with ((m * dx - k * dy) + (dx - dy)) by lia.
        rewrite (inject_Z_plus (m * dx - k * dy)).
        unfold Z.sub at 3. rewrite inject_Z_plus, inject_Z_opp. ring.
      * apply Qltb_ge in Hneg.
        apply Hstep; [|lra|lra].
        rewrite Herr.
        replace (m * dx - (k + 1) * dy) with ((m * dx - k * dy) + - dy) by lia.
        rewrite (inject_Z_plus (m * dx - k * dy)), inject_Z_opp. ring.
Qed.

Lemma loop_y_cells (fuel : nat) (x0 y0 y1 dx dy sx sy : Z) :
  0 <= dx -> dx <= dy -> y1 = y0 + dy * sy -> sy = 1 \/ sy = -1 ->
  forall (k m : Z) (err : Q) (line : list cell),
    0 <= k <= dy ->
    (err == inject_Z dy / 2 + inject_Z (m * dy - k * dx))%Q ->
    (0 <= err)%Q -> (err < inject_Z dy)%Q ->
    dy - k <= Z.of_nat fuel ->
    exists cells,
      loop_y fuel y1 dx dy sx sy (x0 + m * sx) (y0 + k * sy) err line
      = Ok (line ++ cells)
      /\ length cells = Z.to_nat (dy - k)
      /\ forall (i : nat) (c : cell),
          cells !! i = Some c ->
          exists m', c = (x0 + m' * sx, y0 + (k + Z.of_nat i) * sy)
                     /\ - dy <= 2 * (m' * dy - (k + Z.of_nat i) * dx) < dy.
Proof.
  intros Hdx Hdy Hy1 Hsy.
  induction fuel as [|fuel IH]; intros k m err line Hk Herr H0 H1 Hfuel.
  - assert (k = dy) as -> by lia. simpl.
    replace (y0 + dy * sy =? y1) with true by (symmetry; apply Z.eqb_eq; lia).
    exists []. rewrite app_nil_r, Z.sub_diag. repeat split.
    intros i c Hc. rewrite lookup_nil in Hc. discriminate.
  - simpl. destruct (Z.eqb_spec (y0 + k * sy) y1) as [Heq|Hne].
    + assert (k = dy) as -> by (subst y1; destruct Hsy; subst sy; lia).
      exists []. rewrite app_nil_r, Z.sub_diag. repeat split.
      intros i c Hc. rewrite lookup_nil in Hc. discriminate.
    + assert (k < dy) as Hlt by (assert (k <> dy) by (intros ->; lia); lia).
      pose proof (err_bounds err dy _ Herr H0 H1) as Hb.
      assert (inject_Z (dx) <= inject_Z dy)%Q as Hdq by (rewrite <- Zle_Qle; lia).
      assert (0 <= inject_Z dx)%Q as Hdx0
          by (change 0%Q with (inject_Z 0); rewrite <- Zle_Qle; lia).
      assert (forall m2 e2,
                 (e2 == inject_Z dy / 2 + inject_Z (m2 * dy - (k + 1) * dx))%Q ->
                 (0 <= e2)%Q -> (e2 < inject_Z dy)%Q ->
                 exists cells,
                   loop_y fuel y1 dx dy sx sy (x0 + m2 * sx) (y0 + k * sy + sy) e2
                     (line ++ [(x0 + m * sx, y0 + k * sy)])
                   = Ok (line ++ cells)
                   /\ length cells = Z.to_nat (dy - k)
                   /\ forall (i : nat) (c : cell),
                       cells !! i = Some c ->
                       exists m', c = (x0 + m' * sx, y0 + (k + Z.of_nat i) * sy)
                                  /\ - dy <= 2 * (m' * dy - (k + Z.of_nat i) * dx) < dy)
        as Hstep.
      { intros m2 e2 He2 He0 He1.
        destruct (IH (k + 1) m2 e2 (line ++ [(x0 + m * sx, y0 + k * sy)]))
          as (cells & Heq & Hlen & Hcells); try assumption; try lia.
        replace (y0 + (k + 1) * sy) with (y0 + k * sy + sy) in Heq by lia.
        exists ((x0 + m * sx, y0 + k * sy) :: cells).
        rewrite Heq, <- app_assoc. split; [reflexivity|]. split.
        - simpl. rewrite Hlen. lia.
        - intros [|i] c Hc.
          + injection Hc as <-. exists m. split; [f_equal; lia | lia].
          + apply Hcells in Hc. destruct Hc as (m' & -> & Hm').
            exists m'. split; [f_equal; lia|].
            replace (k + Z.of_nat (S i)) with (k + 1 + Z.of_nat i) by lia. exact Hm'. }
      destruct (Qltb (err - inject_Z dx) 0) eqn:Hneg.
      * apply Qltb_lt in Hneg.
        replace (x0 + m * sx + sx) with (x0 + (m + 1) * sx) by lia.
        apply Hstep; [|lra|lra].
        rewrite Herr.
        replace ((m + 1) * dy - (k + 1) * dx) with ((m * dy - k * dx) + (dy - dx)) by lia.
        rewrite (inject_Z_plus (m * dy - k * dx)).
        unfold Z.sub at 3. rewrite inject_Z_plus, inject_Z_opp. ring.
      * apply Qltb_ge in Hneg.
        apply Hstep; [|lra|lra].
        rewrite Herr.
        replace (m * dy - (k + 1) * dx) with ((m * dy - k * dx) + - dx) by lia.
        rewrite (inject_Z_plus (m * dy - k * dx)), inject_Z_opp. ring.
Qed.

Lemma half_bounds (d : Z) :
  0 < d ->
  (0 <= inject_Z d / 2)%Q /\ (inject_Z d / 2 < inject_Z d)%Q.
Proof.
  intros Hd.
  assert (0 < inject_Z d)%Q as H by (change 0%Q with (inject_Z 0); rewrite <- Zlt_Qlt; lia).
  unfold Qdiv. change (/ 2)%Q with (1 # 2)%Q. split; lra.
Qed.

(** Every cell of the line, by its number [i]: it lies [i] steps along the
    major axis and [m] steps along the other one, where [m] is the one
    integer within half a step of the ideal line. *)
Lemma bresenham_cells (x0 y0 x1 y1 : Z) :
  let dx := Z.abs (x1 - x0) in
  let dy := Z.abs (y1 - y0) in
  let sx := if x1 <? x0 then -1 else 1 in
  let sy := if y1 <? y0 then -1 else 1 in
  exists line,
    bresenham (x0, y0) (x1, y1) = Ok line
    /\ length line = Z.to_nat (Z.max dx dy)
    /\ forall (i : nat) (c : cell),
        line !! i = Some c ->
        exists m,
          (dy < dx /\ c = (x0 + Z.of_nat i * sx, y0 + m * sy)
           /\ - dx <= 2 * (m * dx - Z.of_nat i * dy) < dx)
          \/ (dx <= dy /\ c = (x0 + m * sx, y0 + Z.of_nat i * sy)
              /\ - dy <= 2 * (m * dy - Z.of_nat i * dx) < dy).
Proof.
  intros dx dy sx sy. unfold bresenham, bresenham_fuel. cbn [fst snd].
  fold dx dy sx sy.
  destruct (Z.ltb_spec dy dx) as [Hlt|Hge].
  - destruct (half_bounds dx) as (H0 & H1); [lia|].
    destruct (loop_x_cells (Z.to_nat (Z.max dx dy)) x0 y0 x1 dx dy sx sy)
      with (k := 0) (m := 0) (err := (inject_Z dx / 2)%Q) (line := @nil cell)
      as (cells & Heq & Hlen & Hcells); try assumption; try lia.
    { subst dx sx. destruct (Z.ltb_spec x1 x0); lia. }
    { subst sx. destruct (x1 <? x0); auto. }
    { replace (0 * dx - 0 * dy) with 0 by lia. change (inject_Z 0) with 0%Q. ring. }
    rewrite !Z.mul_0_l, !Z.add_0_r in Heq. rewrite Heq. simpl.
    exists cells. split; [reflexivity|]. split; [rewrite Hlen; f_equal; lia|].
    intros i c Hc. apply Hcells in Hc. destruct Hc as (m & -> & Hm).
    exists m. left. rewrite Z.add_0_l in *. auto.
  - destruct (Z.eq_dec dy 0) as [Hz|Hnz].
    + assert (dx = 0) by lia. assert (y0 = y1) as -> by lia.
      rewrite loop_y_done. exists []. split; [reflexivity|].
      split; [simpl; lia|]. intros i c Hc. rewrite lookup_nil in Hc. discriminate.
    + destruct (half_bounds dy) as (H0 & H1); [lia|].
      destruct (loop_y_cells (Z.to_nat (Z.max dx dy)) x0 y0 y1 dx dy sx sy)
        with (k := 0) (m := 0) (err := (inject_Z dy / 2)%Q) (line := @nil cell)
        as (cells & Heq & Hlen & Hcells); try assumption; try lia.
      { subst dy sy. destruct (Z.ltb_spec y1 y0); lia. }
      { subst sy. destruct (y1 <? y0); auto. }
      { replace (0 * dy - 0 * dx) with 0 by lia. change (inject_Z 0) with 0%Q. ring. }
      rewrite !Z.mul_0_l, !Z.add_0_r in Heq. rewrite Heq. simpl.
      exists cells. split; [reflexivity|]. split; [rewrite Hlen; f_equal; lia|].
      intros i c Hc. apply Hcells in Hc. destruct Hc as (m & -> & Hm).
      exists m. right. rewrite Z.add_0_l in *. auto.
Qed.

Lemma bresenham_steps (x0 y0 x1 y1 : Z) :
  let dx := Z.abs (x1 - x0) in
  let dy := Z.abs (y1 - y0) in
  let sx := if x1 <? x0 then -1 else 1 in
  let sy := if y1 <? y0 then -1 else 1 in
  x1 - x0 = sx * dx /\ y1 - y0 = sy * dy
  /\ (sx = 1 \/ sx = -1) /\ (sy = 1 \/ sy = -1) /\ 0 <= dx /\ 0 <= dy.
Proof.
  simpl. destruct (Z.ltb_spec x1 x0), (Z.ltb_spec y1 y0); lia.
Qed.

(** Count, rectangle and distance from the line, for every cell. *)
Lemma bresenham_cells_close (s g : cell) :
  exists line,
    bresenham s g = Ok line
    /\ length line = Z.to_nat (chebyshev s g)
    /\ forall c, c ∈ line ->
                 in_box s g c /\ 2 * Z.abs (cross s g c) <= chebyshev s g.
Proof.
  destruct s as [x0 y0], g as [x1 y1].
  destruct (bresenham_cells x0 y0 x1 y1) as (line & Heq & Hlen & Hcells).
  destruct (bresenham_steps x0 y0 x1 y1) as (Hx & Hy & Hsx & Hsy & Hdx & Hdy).
  exists line. split; [exact Heq|]. split; [exact Hlen|].
  intros c Hc. apply list_elem_of_lookup in Hc. destruct Hc as (i & Hi).
  pose proof (lookup_lt_Some _ _ _ Hi) as Hlt. rewrite Hlen in Hlt.
  apply Hcells in Hi. unfold in_box, cross, chebyshev. cbn [fst snd].
  revert Hx Hy Hsx Hsy Hdx Hdy Hlt Hi.
  generalize (Z.abs (x1 - x0)) (Z.abs (y1 - y0))
             (if x1 <? x0 then -1 else 1) (if y1 <? y0 then -1 else 1).
  intros dx dy sx sy Hx Hy Hsx Hsy Hdx Hdy Hlt (m & [(Hmaj & -> & Hm)|(Hmaj & -> & Hm)]);
    cbn [fst snd].
  - assert (0 <= m <= dy) as Hmr by nia.
    replace (x0 + Z.of_nat i * sx - x0) with (Z.of_nat i * sx) by lia.
    replace (y0 + m * sy - y0) with (m * sy) by lia.
    rewrite Hx, Hy.
    destruct Hsx as [-> | ->], Hsy as [-> | ->]; split; try lia.
  - assert (0 <= m <= dx) as Hmr by nia.
    replace (y0 + Z.of_nat i * sy - y0) with (Z.of_nat i * sy) by lia.
    replace (x0 + m * sx - x0) with (m * sx) by lia.
    rewrite Hx, Hy.
    destruct Hsx as [-> | ->], Hsy as [-> | ->]; split; try lia.
Qed.

Lemma bresenham_cells_in_box (s g : cell) :
  exists line,
    bresenham s g = Ok line /\ forall c, c ∈ line -> in_box s g c.
Proof.
  destruct (bresenham_cells_close s g) as (line & Heq & _ & H).
  exists line. split; [exact Heq|]. intros c Hc. apply H, Hc.
Qed.

(** X5: the rasterized line has as many cells as there are steps along
    the longer axis; every cell lies in the rectangle spanned by the two end
    cells and within half a step of the straight line between them. *)
Theorem bresenham_cells_hug_segment (s g : cell) :
  exists line,
    bresenham s g = Ok line
    /\ length line = Z.to_nat (chebyshev s g)
    /\ forall c, c ∈ line ->
                 in_box s g c /\ 2 * Z.abs (cross s g c) <= chebyshev s g.
Proof. exact (bresenham_cells_close s g). Qed.

(** X6: the rasterized line followed by the goal cell is a chain of
    king moves: each cell touches the next one by a side or a corner, and the
    last cell of the line touches the goal cell, which the line leaves
    out. *)
Theorem bresenham_line_is_connected (s g : cell) :
  exists line,
    bresenham s g = Ok line
    /\ forall (i : nat) (a b : cell),
        (line ++ [g]) !! i = Some a -> (line ++ [g]) !! S i = Some b ->
        king_move a b.
Proof.
  destruct s as [x0 y0], g as [x1 y1].
  destruct (bresenham_cells x0 y0 x1 y1) as (line & Heq & Hlen & Hcells).
  destruct (bresenham_steps x0 y0 x1 y1) as (Hx & Hy & Hsx & Hsy & Hdx & Hdy).
  exists line. split; [exact Heq|].
  intros i a b Ha Hb.
  assert (i < length line)%nat as Hi.
  { apply lookup_lt_Some in Hb. rewrite length_app in Hb. simpl in Hb. lia. }
  rewrite lookup_app_l in Ha by exact Hi.
  apply Hcells in Ha.
  assert (exists m,
             (Z.abs (y1 - y0) < Z.abs (x1 - x0)
              /\ b = (x0 + Z.of_nat (S i) * (if x1 <? x0 then -1 else 1),
                      y0 + m * (if y1 <? y0 then -1 else 1))
              /\ - Z.abs (x1 - x0)
                 <= 2 * (m * Z.abs (x1 - x0) - Z.of_nat (S i) * Z.abs (y1 - y0))
                 < Z.abs (x1 - x0))
             \/ (Z.abs (x1 - x0) <= Z.abs (y1 - y0)
                 /\ b = (x0 + m * (if x1 <? x0 then -1 else 1),
                         y0 + Z.of_nat (S i) * (if y1 <? y0 then -1 else 1))
                 /\ - Z.abs (y1 - y0)
                    <= 2 * (m * Z.abs (y1 - y0) - Z.of_nat (S i) * Z.abs (x1 - x0))
                    < Z.abs (y1 - y0))) as Hb'.
  { destruct (decide (S i < length line)%nat) as [Hlt|Hge].
    - rewrite lookup_app_l in Hb by exact Hlt. apply Hcells in Hb.
      destruct Hb as (m & [(? & ? & ?)|(? & ? & ?)]); exists m; [left|right];
        repeat split; try assumption; lia.
    - assert (S i = length line) as Hlast by lia.
      rewrite lookup_app_r, Hlast, Nat.sub_diag in Hb by lia.
      injection Hb as <-. rewrite Hlast, Hlen.
      destruct (Z.ltb_spec (Z.abs (y1 - y0)) (Z.abs (x1 - x0))) as [Hmaj|Hmaj].
      + exists (Z.abs (y1 - y0)). left. split; [exact Hmaj|].
        rewrite Z2Nat.id by lia. rewrite Z.max_l by lia. split; [f_equal; lia | lia].
      + exists (Z.abs (x1 - x0)). right. split; [exact Hmaj|].
        rewrite Z2Nat.id by lia. rewrite Z.max_r by lia. split; [f_equal; lia | lia]. }
  clear Hb Hcells Heq. rewrite Hlen in Hi. unfold king_move.
  revert Hx Hy Hsx Hsy Hdx Hdy Hi Ha Hb'.
  generalize (Z.abs (x1 - x0)) (Z.abs (y1 - y0))
             (if x1 <? x0 then -1 else 1) (if y1 <? y0 then -1 else 1).
  intros dx dy sx sy Hx Hy Hsx Hsy Hdx Hdy Hi
         (m & [(Hmaj & -> & Hm)|(Hmaj & -> & Hm)])
         (m2 & [(Hmaj2 & -> & Hm2)|(Hmaj2 & -> & Hm2)]);
    try lia; cbn [fst snd].
  - assert (0 <= m2 - m <= 1) as Hd by nia.
    split; [intros [= Hxx _]; destruct Hsx; lia|].
    destruct Hsx as [-> | ->], Hsy as [-> | ->]; lia.
  - assert (0 <= m2 - m <= 1) as Hd by nia.
    split; [intros [= _ Hyy]; destruct Hsy; lia|].
    destruct Hsx as [-> | ->], Hsy as [-> | ->]; lia.
Qed.
(** ** Where the collision check and the cost functions can raise *)

Lemma Qtrunc_range (q : Q) (n : Z) :
  (0 <= q)%Q -> (q <= inject_Z n)%Q -> 0 <= Qtrunc q <= n.
Proof.
  intros H0 Hn.
  assert (Qtrunc q = Qfloor q) as ->.
  { destruct q as [num den]. unfold Qtrunc, Qfloor. simpl.
    unfold Qle in H0. simpl in H0. apply Z.quot_div_nonneg; lia. }
  split.
  - rewrite <- (Qfloor_Z 0). apply Qfloor_resp_le. exact H0.
  - rewrite <- (Qfloor_Z n). apply Qfloor_resp_le. exact Hn.
Qed.

Lemma cell_of_in_extent (p : point) :
  (0 < grid_scale self)%Q -> in_extent p ->
  0 <= fst (cell_of p) <= Z.of_nat (shape1 (grid self))
  /\ 0 <= snd (cell_of p) <= Z.of_nat (shape0 (grid self)).
Proof.
  intros Hs [[Hx0 Hx1] [Hy0 Hy1]]. unfold cell_of, extent_x, extent_y in *. cbn [fst snd].
  split; apply Qtrunc_range.
  - apply Qle_shift_div_l; [exact Hs | lra].
  - apply Qle_shift_div_r; [exact Hs | exact Hx1].
  - apply Qle_shift_div_l; [exact Hs | lra].
  - apply Qle_shift_div_r; [exact Hs | exact Hy1].
Qed.

Lemma np_axis_wraps (n : nat) (i : Z) :
  - Z.of_nat n <= i < Z.of_nat n -> exists r, np_axis n i = Ok r.
Proof.
  intros Hi. unfold np_axis.
  destruct (Z.leb_spec 0 i), (Z.ltb_spec i (Z.of_nat n)); cbn [andb]; eauto; try lia.
  destruct (Z.leb_spec (- Z.of_nat n) i), (Z.ltb_spec i 0); cbn [andb]; eauto; lia.
Qed.

(** On a square grid the read [grid[x - 1, y - 1]] is in range for every
    cell from the corner [(0, 0)] to the corner [(n, n)]. *)
Lemma scan_line_square (line : list cell) :
  shape0 (grid self) = shape1 (grid self) ->
  (0 < shape0 (grid self))%nat ->
  Forall (fun c : cell => 0 <= fst c <= Z.of_nat (shape1 (grid self))
                          /\ 0 <= snd c <= Z.of_nat (shape0 (grid self))) line ->
  exists b, scan_line line = Ok b.
Proof.
  intros Hsq Hpos. induction 1 as [|[x y] line [Hx Hy] _ IH]; cbn [scan_line]; [eauto|].
  cbn [fst snd] in Hx, Hy.
  destruct (_ && _); [eauto|].
  unfold getitem.
  destruct (np_axis_wraps (shape0 (grid self)) (x - 1)) as [r ->]; [lia|].
  destruct (np_axis_wraps (shape1 (grid self)) (y - 1)) as [c ->]; [lia|].
  rewrite !bind_Ok. destruct (Qle_bool _ _); [eauto | exact IH].
Qed.

Lemma is_collision_square (a b : point) :
  shape0 (grid self) = shape1 (grid self) ->
  (0 < shape0 (grid self))%nat ->
  (0 < grid_scale self)%Q ->
  in_extent a -> in_extent b ->
  exists r, is_collision a (Some b) = Ok r.
Proof.
  intros Hsq Hpos Hs Ha Hb. unfold is_collision.
  destruct (existsb _ _); [eauto|].
  assert (~ (grid_scale self == 0)%Q) as Hnz by lra.
  rewrite !to_cell_ok, !bind_Ok by exact Hnz.
  destruct (bresenham_cells_in_box (cell_of a) (cell_of b)) as (line & -> & Hbox).
  rewrite bind_Ok. apply scan_line_square; [exact Hsq | exact Hpos|].
  apply Forall_forall. intros c Hc. apply Hbox in Hc.
  destruct (cell_of_in_extent a Hs Ha), (cell_of_in_extent b Hs Hb).
  unfold in_box in Hc. lia.
Qed.

Lemma get_grid_cost_returns (p : point) :
  ~ (grid_scale self == 0)%Q ->
  (0 < shape0 (grid self))%nat -> (0 < shape1 (grid self))%nat ->
  exists c, get_grid_cost p = Ok c.
Proof.
  intros Hs H0 H1. unfold get_grid_cost.
  rewrite !int_of_quotient_ok, !bind_Ok by exact Hs.
  unfold getitem. rewrite !np_axis_in_range by lia. eauto.
Qed.

Lemma path_cost_returns (a b : point) :
  ~ (grid_scale self == 0)%Q -> exists v, path_cost a b = Ok v.
Proof.
  intros Hs. destruct (path_cost_average a b Hs) as (_ & v & _ & Hv & _). eauto.
Qed.

(** ** Steering *)

(** With a positive step the steered point is [a + k (b - a)] for some
    [0 < k <= 1]. *)
Lemma steer_convex (a b : point) :
  (0 < step_size self)%Q ->
  exists (r : point) (k : Q),
    steer a b = Ok r
    /\ (0 < k)%Q /\ (k <= 1)%Q
    /\ (fst r == fst a + k * (fst b - fst a))%Q
    /\ (snd r == snd a + k * (snd b - snd a))%Q
    /\ (Qltb (norm (psub b a)) (step_size self) = true -> r = b).
Proof.
  intros Hstep. unfold steer.
  destruct (Qltb (norm (psub b a)) (step_size self)) eqn:Hlt.
  - exists b, 1%Q. repeat split; try reflexivity; try lra; ring.
  - apply Qltb_ge in Hlt.
    destruct (Qeq_bool (norm (psub b a)) 0) eqn:Hz.
    { apply Qeq_bool_iff in Hz. lra. }
    apply Qeq_bool_neq in Hz.
    exists (padd a (pscale (pdiv (psub b a) (norm (psub b a))) (step_size self))),
      (step_size self / norm (psub b a))%Q.
    split; [reflexivity|]. split; [apply Qlt_shift_div_l; lra|].
    split; [apply Qle_shift_div_r; lra|].
    unfold padd, pscale, pdiv, psub. cbn [fst snd].
    repeat split; try (field; exact Hz). discriminate.
Qed.

Lemma convex_between (a b k r lo hi : Q) :
  (lo <= a <= hi)%Q -> (lo <= b <= hi)%Q -> (0 <= k <= 1)%Q ->
  (r == a + k * (b - a))%Q -> (lo <= r <= hi)%Q.
Proof.
  intros Ha Hb Hk ->. split; nra.
Qed.

Lemma steer_in_extent (a b r : point) :
  (0 < step_size self)%Q ->
  in_extent a -> in_extent b -> steer a b = Ok r -> in_extent r.
Proof.
  intros Hstep [Hax Hay] [Hbx Hby] Hr.
  destruct (steer_convex a b Hstep) as (r' & k & Hr' & Hk0 & Hk1 & Hx & Hy & _).
  rewrite Hr in Hr'. injection Hr' as <-.
  split.
  - apply (convex_between (fst a) (fst b) k); [exact Hax | exact Hbx | lra | exact Hx].
  - apply (convex_between (snd a) (snd b) k); [exact Hay | exact Hby | lra | exact Hy].
Qed.

(** ** The exception-aware weakest precondition *)

Lemma wpx_bind {A B} (m : M A) (f : A -> M B) (Q : B -> world -> Prop)
    (E : exn -> Prop) (w : world) :
  wpx m (fun a w' => wpx (f a) Q E w') E w -> wpx (m ≫= f) Q E w.
Proof.
  unfold wpx, mbind, M_bind. destruct (m w) as [[a| |] w']; auto.
Qed.

Lemma wpx_pure {A} (a : A) (Q : A -> world -> Prop) (E : exn -> Prop) (w : world) :
  Q a w -> wpx (pure a) Q E w.
Proof. auto. Qed.

Lemma wpx_lift {A} (r : result A) (Q : A -> world -> Prop) (E : exn -> Prop)
    (w : world) :
  (forall a, r = Ok a -> Q a w) -> (forall e, r = Raise e -> E e) ->
  wpx (lift r) Q E w.
Proof. unfold wpx, lift. destruct r; auto. Qed.

Lemma wpx_get_tree (Q : tree -> world -> Prop) (E : exn -> Prop) (w : world) :
  Q (w_tree w) w -> wpx get_tree Q E w.
Proof. auto. Qed.

Lemma wpx_mono {A} (m : M A) (Q Q' : A -> world -> Prop) (E : exn -> Prop)
    (w : world) :
  wpx m Q E w -> (forall a w', Q a w' -> Q' a w') -> wpx m Q' E w.
Proof.
  unfold wpx. destruct (m w) as [[a| |] w']; auto.
Qed.

(** ** Lookups that cannot fail *)

Lemma nearest_node_returns (t : tree) (p : point) :
  nodes t <> [] ->
  exists (i : nat) (n : point), nearest_node t p = Ok i /\ nodes t !! i = Some n.
Proof.
  intros Hne. unfold nearest_node.
  destruct (nodes t) as [|n0 ns] eqn:Hnodes; [contradiction|].
  set (dist := fun node : point => norm (psub node p)).
  change (map (fun node => norm (psub node p)) (n0 :: ns)) with (map dist (n0 :: ns)).
  cbn [map py_min]. rewrite bind_Ok.
  destruct (fold_min_spec (map dist ns) (dist n0)) as [Hin Hmin].
  set (m := fold_left (fun m y => if Qltb y m then y else m) (map dist ns) (dist n0)) in *.
  destruct (py_index_spec m (dist n0 :: map dist ns)) as (i & x & Hi & Hx & _).
  { exists m. split; [exact Hin | reflexivity]. }
  change (dist n0 :: map dist ns) with (map dist (n0 :: ns)) in *.
  rewrite list_lookup_fmap in Hx.
  destruct ((n0 :: ns) !! i) as [n|] eqn:Hn; [|discriminate].
  exists i, n. split; [exact Hi | exact Hn].
Qed.

Lemma node_at_lt (t : tree) (i : nat) :
  (i < length (nodes t))%nat -> exists p, node_at t i = Ok p /\ nodes t !! i = Some p.
Proof.
  intros Hi. unfold node_at. destruct (lookup_lt_is_Some_2 _ _ Hi) as [p Hp].
  rewrite Hp. eauto.
Qed.

Lemma cost_at_wf (t : tree) (i : nat) :
  well_formed t -> (i < length (nodes t))%nat -> exists c, cost_at t i = Ok c.
Proof.
  intros Hwf Hi. unfold cost_at. apply (wf_cost_dom t Hwf) in Hi.
  destruct Hi as [c ->]. eauto.
Qed.

Lemma well_formed_attach (t : tree) (p : point) (mp : nat) (c : Q) :
  well_formed t -> (mp <= length (nodes t))%nat ->
  well_formed {| nodes := nodes t ++ [p];
                 parent := <[length (nodes t) := Some mp]> (parent t);
                 cost := <[length (nodes t) := c]> (cost t) |}.
Proof.
  intros [H0 Hp Hc Hlt] Hmp. split; cbn [nodes parent cost].
  - rewrite length_app. simpl. lia.
  - intros i. rewrite length_app, Nat.add_1_r. apply is_Some_insert_fresh, Hp.
  - intros i. rewrite length_app, Nat.add_1_r. apply is_Some_insert_fresh, Hc.
  - intros i q Hq. rewrite length_app, Nat.add_1_r.
    destruct (decide (length (nodes t) = i)) as [<-|Hne].
    + rewrite lookup_insert_eq in Hq. injection Hq as <-. lia.
    + rewrite lookup_insert_ne in Hq by exact Hne. apply Hlt in Hq. lia.
Qed.

Lemma well_formed_rewire (t : tree) (idx nw : nat) (c : Q) :
  well_formed t -> (idx < length (nodes t))%nat -> (nw < length (nodes t))%nat ->
  well_formed {| nodes := nodes t;
                 parent := <[idx := Some nw]> (parent t);
                 cost := <[idx := c]> (cost t) |}.
Proof.
  intros [H0 Hp Hc Hlt] Hidx Hnw. split; cbn [nodes parent cost].
  - exact H0.
  - intros i. apply is_Some_insert_old; assumption.
  - intros i. apply is_Some_insert_old; assumption.
  - intros i q Hq.
    destruct (decide (idx = i)) as [<-|Hne].
    + rewrite lookup_insert_eq in Hq. injection Hq as <-. exact Hnw.
    + rewrite lookup_insert_ne in Hq by exact Hne. eapply Hlt, Hq.
Qed.

Lemma init_tree_well_formed : well_formed init_tree.
Proof.
  split; simpl.
  - lia.
  - intros i. destruct i.
    + rewrite lookup_singleton_eq. split; [lia | eauto].
    + rewrite lookup_singleton_ne by lia. split; [intros [? ?]; discriminate | lia].
  - intros i. destruct i.
    + rewrite lookup_singleton_eq. split; [lia | eauto].
    + rewrite lookup_singleton_ne by lia. split; [intros [? ?]; discriminate | lia].
  - intros i p Hp. destruct i.
    + rewrite lookup_singleton_eq in Hp. discriminate.
    + rewrite lookup_singleton_ne in Hp by lia. discriminate.
Qed.

(** The parent walk of a well-formed tree never misses a key. *)
Lemma walk_parents_wf (t : tree) (good : point -> Prop) :
  well_formed t -> Forall good (nodes t) ->
  forall (fuel : nat) (cur : option nat) (path : list point),
    (forall i, cur = Some i -> (i < length (nodes t))%nat) ->
    Forall good path ->
    match walk_parents fuel t cur path with
    | Ok path' => Forall good path' /\ (is_Some cur \/ path <> [] -> path' <> [])
    | Raise _ => False
    | OutOfFuel => True
    end.
Proof.
  intros Hwf Hgood. induction fuel as [|fuel IH]; intros cur path Hcur Hpath.
  - destruct cur; simpl; [exact I|]. split; [exact Hpath|].
    intros [[? ?]|?]; [discriminate | assumption].
  - destruct cur as [i|]; cbn [walk_parents].
    2:{ split; [exact Hpath|]. intros [[? ?]|?]; [discriminate | assumption]. }
    destruct (node_at_lt t i (Hcur i eq_refl)) as (p & -> & Hp). rewrite bind_Ok.
    unfold parent_at.
    destruct (proj2 (wf_parent_dom t Hwf i) (Hcur i eq_refl)) as [next Hnext].
    rewrite Hnext, bind_Ok.
    assert (Forall good (path ++ [p])) as Hpath'.
    { apply Forall_app. split; [exact Hpath|]. constructor; [|constructor].
      rewrite Forall_forall in Hgood. apply Hgood.
      apply list_elem_of_lookup. eauto. }
    assert (forall j, next = Some j -> (j < length (nodes t))%nat) as Hnext'.
    { intros j ->. eapply (wf_parent_lt t Hwf), Hnext. }
    specialize (IH next (path ++ [p]) Hnext' Hpath').
    destruct (walk_parents fuel t next (path ++ [p])) as [path'| |]; try exact IH.
    destruct IH as [Hall Hne]. split; [exact Hall|].
    intros _. apply Hne. right. destruct path; discriminate.
Qed.

Lemma elem_of_rev (a : point) (l : list point) : a ∈ rev l -> a ∈ l.
Proof. intros H. apply list_elem_of_In. apply in_rev. apply list_elem_of_In, H. Qed.

(** The simplification raises only what a collision check between two
    points of the path raises. *)
Lemma simplify_loop_raise_source (path : list point) (fuel : nat) :
  forall (new_path : list point) (idx : nat) (e : exn),
    (exists a, last new_path = Some a /\ a ∈ path) ->
    simplify_loop fuel path new_path idx = Raise e ->
    exists a b, a ∈ path /\ b ∈ path /\ is_collision a (Some b) = Raise e.
Proof.
  induction fuel as [|fuel IH]; intros new_path idx e (a & Hlast & Ha) Hraise.
  - assert (exists f, last path = Some f) as [f Hfin].
    { apply last_is_Some. intros ->. inversion Ha. }
    simpl in Hraise.
    rewrite (py_last_Some _ _ Hlast), (py_last_Some _ _ Hfin), !bind_Ok in Hraise.
    destruct (point_eqb a f); discriminate.
  - assert (exists f, last path = Some f) as [f Hfin].
    { apply last_is_Some. intros ->. inversion Ha. }
    simpl in Hraise.
    rewrite (py_last_Some _ _ Hlast), (py_last_Some _ _ Hfin), !bind_Ok in Hraise.
    destruct (point_eqb a f); [discriminate|].
    assert (forall g, g ∈ drop idx path -> g ∈ path) as Hdrop.
    { intros g Hg. apply list_elem_of_lookup in Hg. destruct Hg as [k Hk].
      rewrite lookup_drop in Hk. apply list_elem_of_lookup. eauto. }
    destruct (simplify_scan_cases a f (drop idx path) a idx new_path)
      as [(e' & g & Hin & Hcol & Heq)
         |[(Heq & _)
          |[(Heq & _)
           |(k & s & Heq & Hk & _)]]]; rewrite Heq in Hraise.
    + injection Hraise as <-. exists a, g. auto.
    + rewrite bind_Ok in Hraise. eapply IH; [|exact Hraise]. eauto.
    + rewrite bind_Ok in Hraise. eapply IH; [|exact Hraise].
      exists a. split; [apply last_snoc | exact Ha].
    + rewrite bind_Ok in Hraise. eapply IH; [|exact Hraise].
      exists s. split; [apply last_snoc|].
      apply Hdrop, list_elem_of_lookup. eauto.
Qed.

Lemma simplify_path_raise_source (path : list point) (fuel : nat) (e : exn) :
  path <> [] ->
  simplify_path fuel path = Raise e ->
  exists a b, a ∈ path /\ b ∈ path /\ is_collision a (Some b) = Raise e.
Proof.
  intros Hne Hraise. destruct path as [|p0 rest]; [contradiction|].
  unfold simplify_path in Hraise.
  eapply simplify_loop_raise_source; [|exact Hraise].
  exists p0. split; [reflexivity | left].
Qed.

(** ** One pass over the planner for the exceptions it can raise

    The pass is run for a property [good] of the points the planner
    handles, a property [ugood] of the random numbers, and a set [allowed]
    of exceptions: whatever the steering, the collision check and the cost
    functions raise on good points is allowed. *)

Section Safety.

Variable good : point -> Prop.
Variable ugood : Q -> Prop.
Variable allowed : exn -> Prop.

Hypothesis good_goal : good (goal self).
Hypothesis good_sample :
  forall u v, ugood u -> ugood v ->
              good ((0 + (extent_x - 0) * u)%Q, (0 + (extent_y - 0) * v)%Q).
Hypothesis good_steer :
  forall a b r, good a -> good b -> steer a b = Ok r -> good r.
Hypothesis steer_raises :
  forall a b e, steer a b = Raise e -> allowed e.
Hypothesis cost_raises :
  forall p e, good p -> get_grid_cost p = Raise e -> allowed e.
Hypothesis collision_raises :
  forall a b e, good a -> good b -> is_collision a (Some b) = Raise e -> allowed e.
Hypothesis path_cost_raises :
  forall a b e, good a -> good b -> path_cost a b = Raise e -> allowed e.
Hypothesis self_not_near :
  (forall p, ~ (0 < norm (psub p p))%Q) \/ allowed KeyError.

Lemma wpx_uniform (a b : Q) (w : world) :
  Forall ugood (w_tape w) ->
  wpx (uniform a b)
      (fun x w' => (exists u, ugood u /\ x = (a + (b - a) * u)%Q)
                   /\ w_tree w' = w_tree w /\ Forall ugood (w_tape w'))
      allowed w.
Proof.
  intros Htape. unfold wpx, uniform, mbind, M_bind, random.
  destruct (w_tape w) as [|u tape]; [exact I|].
  inversion Htape; subst. cbn. eauto.
Qed.

Lemma wpx_sample_point (fuel : nat) :
  forall w : world,
    Forall ugood (w_tape w) ->
    wpx (sample_point fuel)
        (fun p w' => good p /\ w_tree w' = w_tree w /\ Forall ugood (w_tape w'))
        allowed w.
Proof.
  induction fuel as [|fuel IH]; intros w Htape; cbn [sample_point]; [exact I|].
  apply wpx_bind. eapply wpx_mono; [apply wpx_uniform, Htape|].
  intros x w1 ((u & Hu & ->) & Ht1 & Htape1).
  apply wpx_bind. eapply wpx_mono; [apply wpx_uniform, Htape1|].
  intros y w2 ((v & Hv & ->) & Ht2 & Htape2).
  pose proof (good_sample u v Hu Hv) as Hgood.
  apply wpx_bind, wpx_lift; [intros c Hc | intros e He; eapply cost_raises; eassumption].
  destruct (Qltb c (traversability_threshold self)).
  2:{ eapply wpx_mono; [apply IH, Htape2|]. intros p w' (? & -> & ?).
      rewrite Ht2, Ht1. auto. }
  apply wpx_bind, wpx_lift.
  - intros b Hb. destruct b; cbn [negb].
    + eapply wpx_mono; [apply IH, Htape2|]. intros p w' (? & -> & ?).
      rewrite Ht2, Ht1. auto.
    + apply wpx_pure. rewrite Ht2, Ht1. auto.
  - intros e He. destruct (is_collision_point (0 + (extent_x - 0) * u, 0 + (extent_y - 0) * v)%Q)
      as [H|H]; unfold extent_x, extent_y in H; congruence.
Qed.

Lemma wpx_propose (fuel : nat) :
  forall w : world,
    safe_state good ugood w ->
    wpx (propose fuel)
        (fun r w' => w_tree w' = w_tree w /\ Forall ugood (w_tape w')
                     /\ nodes (w_tree w) !! r.1.1 = Some r.1.2 /\ good r.1.2
                     /\ good r.2)
        allowed w.
Proof.
  induction fuel as [|fuel IH]; intros w (Hwf & Hnodes & Htape); cbn [propose];
    [exact I|].
  apply wpx_bind. unfold wpx at 1, random.
  destruct (w_tape w) as [|u tape] eqn:Htp; [exact I|].
  assert (Forall ugood tape) as Htape' by (inversion Htape; assumption).
  apply wpx_bind.
  assert (wpx (if Qltb u (1 # 10) then pure (goal self) else sample_point fuel)
              (fun p w' => good p /\ w_tree w' = w_tree w /\ Forall ugood (w_tape w'))
              allowed
              {| w_tree := w_tree w; w_tape := tape; w_trace := w_trace w |}) as Hrand.
  { destruct (Qltb u (1 # 10)).
    - apply wpx_pure. auto.
    - eapply wpx_mono; [apply wpx_sample_point; exact Htape'|].
      cbn [w_tree]. auto. }
  eapply wpx_mono; [exact Hrand|]. clear Hrand.
  intros rand_point w2 (Hrp & Ht2 & Htape2).
  apply wpx_bind, wpx_get_tree. rewrite Ht2.
  destruct (nearest_node_returns (w_tree w) rand_point) as (i & n & Hi & Hn).
  { intros Hnil. pose proof (wf_nonempty _ Hwf) as H. rewrite Hnil in H. simpl in H. lia. }
  rewrite Hi. apply wpx_bind, wpx_lift; [|discriminate]. intros ? [= <-].
  unfold node_at. rewrite Hn.
  apply wpx_bind, wpx_lift; [|discriminate]. intros ? [= <-].
  assert (good n) as Hgn.
  { rewrite Forall_forall in Hnodes. apply Hnodes, list_elem_of_lookup. eauto. }
  apply wpx_bind, wpx_lift; [|intros e He; eapply steer_raises; eassumption].
  intros new_point Hsteer.
  pose proof (good_steer _ _ _ Hgn Hrp Hsteer) as Hnew.
  apply wpx_bind, wpx_lift.
  - intros ok _. destruct ok.
    + apply wpx_pure. cbn [fst snd]. auto.
    + eapply wpx_mono; [apply IH|].
      * split; [rewrite Ht2; exact Hwf|]. split; [rewrite Ht2; exact Hnodes | exact Htape2].
      * intros r w' (-> & ? & Hr). rewrite Ht2 in Hr |- *. auto.
  - intros e He. unfold candidate_valid in He.
    destruct (is_collision_point new_point) as [H|H]; rewrite H, bind_Ok in He;
      cbn [negb] in He; [|discriminate].
    destruct (get_grid_cost new_point) as [c| |] eqn:Hc; try discriminate.
    injection He as <-. eapply cost_raises; eassumption.
Qed.

Lemma choose_parent_safe (t : tree) (new_point : point) (near_nodes : list nat) :
  Forall good (nodes t) -> good new_point ->
  (forall idx, idx ∈ near_nodes ->
               (idx < length (nodes t))%nat
               /\ (is_Some (cost t !! idx) \/ allowed KeyError)) ->
  forall (min_cost : Q) (min_parent : nat),
    match choose_parent t new_point near_nodes min_cost min_parent with
    | Ok (_, p) => p = min_parent \/ p ∈ near_nodes
    | Raise e => allowed e
    | OutOfFuel => True
    end.
Proof.
  intros Hnodes Hnew.
  induction near_nodes as [|idx rest IH]; intros Hnear min_cost min_parent.
  - simpl. auto.
  - assert (forall mc mp,
               match choose_parent t new_point rest mc mp with
               | Ok (_, p) => (p = mp \/ p ∈ rest)
               | Raise e => allowed e
               | OutOfFuel => True
               end) as IH'.
    { apply IH. intros i Hi. apply Hnear. right. exact Hi. }
    assert (forall mc,
               match choose_parent t new_point rest mc min_parent with
               | Ok (_, p) => (p = min_parent \/ p ∈ idx :: rest)
               | Raise e => allowed e
               | OutOfFuel => True
               end) as Hkeep.
    { intros mc. specialize (IH' mc min_parent).
      destruct (choose_parent t new_point rest mc min_parent) as [[c p]| |]; auto.
      destruct IH' as [->|H]; [left; reflexivity | right; right; exact H]. }
    destruct (Hnear idx (list_elem_of_here _ _)) as [Hlt Hcost].
    cbn [choose_parent].
    destruct (node_at_lt t idx Hlt) as (node & -> & Hnode). rewrite bind_Ok.
    assert (good node) as Hgn.
    { rewrite Forall_forall in Hnodes. apply Hnodes, list_elem_of_lookup. eauto. }
    destruct (is_collision node (Some new_point)) as [b|e|] eqn:Hb; cbn;
      [|exact (collision_raises _ _ _ Hgn Hnew Hb) | exact I].
    destruct b; cbn [negb]; [apply Hkeep|].
    unfold cost_at. destruct (cost t !! idx) as [c|] eqn:Hc; cbn.
    2:{ destruct Hcost as [[? ?]|?]; [discriminate | assumption]. }
    destruct (path_cost node new_point) as [pc|e|] eqn:Hpc; cbn;
      [|exact (path_cost_raises _ _ _ Hgn Hnew Hpc) | exact I].
    destruct (Qltb (c + pc) min_cost); [|apply Hkeep].
    specialize (IH' (c + pc)%Q idx).
    destruct (choose_parent t new_point rest (c + pc)%Q idx) as [[c' p]| |]; auto.
    destruct IH' as [->|H]; [right; left | right; right; exact H].
Qed.

Lemma wpx_rewire (new_idx : nat) (new_point : point) (min_parent : nat)
    (near_nodes : list nat) :
  forall w : world,
    well_formed (w_tree w) -> Forall good (nodes (w_tree w)) -> good new_point ->
    (new_idx < length (nodes (w_tree w)))%nat ->
    (forall idx, idx ∈ near_nodes -> (idx < length (nodes (w_tree w)))%nat) ->
    wpx (rewire new_idx new_point min_parent near_nodes)
        (fun _ w' => well_formed (w_tree w')
                     /\ nodes (w_tree w') = nodes (w_tree w)
                     /\ w_tape w' = w_tape w)
        allowed w.
Proof.
  induction near_nodes as [|idx rest IH]; intros w Hwf Hnodes Hnew Hnidx Hnear.
  - apply wpx_pure. auto.
  - assert (forall i, i ∈ rest -> (i < length (nodes (w_tree w)))%nat) as Hrest.
    { intros i Hi. apply Hnear. right. exact Hi. }
    pose proof (Hnear idx (list_elem_of_here _ _)) as Hlt.
    cbn [rewire]. destruct (Nat.eqb idx min_parent); [apply IH; assumption|].
    apply wpx_bind, wpx_get_tree.
    destruct (node_at_lt _ idx Hlt) as (node & -> & Hnode).
    apply wpx_bind, wpx_lift; [|discriminate]. intros ? [= <-].
    assert (good node) as Hgn.
    { rewrite Forall_forall in Hnodes. apply Hnodes, list_elem_of_lookup. eauto. }
    destruct (cost_at_wf _ new_idx Hwf Hnidx) as (cn & ->).
    apply wpx_bind, wpx_lift; [|discriminate]. intros ? [= <-].
    apply wpx_bind, wpx_lift;
      [|intros e He; exact (path_cost_raises _ _ _ Hnew Hgn He)].
    intros pc Hpc.
    destruct (cost_at_wf _ idx Hwf Hlt) as (ci & ->).
    apply wpx_bind, wpx_lift; [|discriminate]. intros ? [= <-].
    apply wpx_bind.
    destruct (Qltb (cn + pc) ci); [|apply wpx_pure, IH; assumption].
    apply wpx_bind, wpx_lift;
      [|intros e He; exact (collision_raises _ _ _ Hnew Hgn He)].
    intros b Hb.
    destruct b; cbn [negb]; [apply wpx_pure, IH; assumption|].
    unfold wpx at 1. cbn [mbind M_bind set_parent set_cost].
    eapply wpx_mono; [apply IH|].
    + cbn [w_tree nodes parent cost]. apply well_formed_rewire; assumption.
    + exact Hnodes.
    + exact Hnew.
    + exact Hnidx.
    + exact Hrest.
    + cbn [w_tree nodes w_tape]. auto.
Qed.

Lemma wpx_connect_goal (fuel new_idx : nat) (new_point : point) (w : world) :
  well_formed (w_tree w) -> Forall good (nodes (w_tree w)) -> good new_point ->
  (new_idx < length (nodes (w_tree w)))%nat ->
  wpx (connect_goal fuel new_idx new_point)
      (fun r w' => well_formed (w_tree w')
                   /\ Forall good (nodes (w_tree w'))
                   /\ w_tape w' = w_tape w
                   /\ nodes (w_tree w')
                      = nodes (w_tree w) ++ (if r is Some _ then [goal self] else []))
      allowed w.
Proof.
  intros Hwf Hnodes Hnew Hnidx. unfold connect_goal.
  assert (wpx (pure None)
              (fun (r : option (list point)) w' =>
                 well_formed (w_tree w') /\ Forall good (nodes (w_tree w'))
                 /\ w_tape w' = w_tape w
                 /\ nodes (w_tree w')
                    = nodes (w_tree w) ++ (if r is Some _ then [goal self] else []))
              allowed w) as Hnone.
  { apply wpx_pure. rewrite app_nil_r. auto. }
  destruct (Qltb _ _); [|exact Hnone].
  apply wpx_bind, wpx_lift;
    [|intros e He; exact (collision_raises _ _ _ Hnew good_goal He)].
  intros b Hb.
  destruct b; cbn [negb]; [exact Hnone|].
  apply wpx_bind, wpx_get_tree.
  apply wpx_bind. unfold wpx at 1. cbn [nodes_append].
  apply wpx_bind. unfold wpx at 1. cbn [set_parent w_tree w_tape w_trace nodes parent cost].
  apply wpx_bind, wpx_get_tree.
  unfold cost_at at 1. cbn [w_tree cost].
  destruct (proj2 (wf_cost_dom _ Hwf new_idx) Hnidx) as [cn ->].
  apply wpx_bind, wpx_lift; [|discriminate]. intros ? [= <-].
  apply wpx_bind, wpx_lift;
    [|intros e He; exact (path_cost_raises _ _ _ Hnew good_goal He)].
  intros pc Hpc.
  apply wpx_bind. unfold wpx at 1. cbn [set_cost w_tree w_tape w_trace nodes parent cost].
  apply wpx_bind, wpx_get_tree. cbn [w_tree].
  set (t' := {| nodes := nodes (w_tree w) ++ [goal self];
                parent := <[length (nodes (w_tree w)) := Some new_idx]> (parent (w_tree w));
                cost := <[length (nodes (w_tree w)) := (cn + pc)%Q]> (cost (w_tree w)) |}).
  assert (well_formed t') as Hwf' by (apply well_formed_attach; [exact Hwf | lia]).
  assert (Forall good (nodes t')) as Hnodes'.
  { apply Forall_app. split; [exact Hnodes|]. constructor; [exact good_goal | constructor]. }
  apply wpx_bind, wpx_lift.
  - intros path _. apply wpx_pure. cbn [w_tree w_tape]. auto.
  - intros e He. unfold reconstruct_path in He.
    pose proof (walk_parents_wf t' good Hwf' Hnodes' fuel
                  (Some (length (nodes (w_tree w)))) []) as Hwalk.
    destruct (walk_parents fuel t' (Some (length (nodes (w_tree w)))) [])
      as [path| |]; try discriminate.
    + destruct Hwalk as [Hall Hne].
      { intros i [= <-]. subst t'. cbn [nodes]. rewrite length_app. simpl. lia. }
      { constructor. }
      rewrite bind_Ok in He. destruct (simplify self); [|discriminate].
      apply simplify_path_raise_source in He.
      * destruct He as (a & b & Ha & Hb' & Hcol).
        rewrite Forall_forall in Hall.
        apply elem_of_rev in Ha, Hb'.
        eapply collision_raises; [apply Hall, Ha | apply Hall, Hb' | exact Hcol].
      * intros Hrev. apply Hne; [left; eauto|].
        apply (f_equal (@rev point)) in Hrev. rewrite rev_involutive in Hrev. exact Hrev.
    + exfalso. apply Hwalk; [|constructor].
      intros i [= <-]. subst t'. cbn [nodes]. rewrite length_app. simpl. lia.
Qed.

Lemma wpx_extend (fuel nearest_idx : nat) (nearest new_point : point) (w : world) :
  well_formed (w_tree w) -> Forall good (nodes (w_tree w)) ->
  nodes (w_tree w) !! nearest_idx = Some nearest ->
  good new_point ->
  wpx (extend fuel nearest_idx nearest new_point)
      (fun r w' => well_formed (w_tree w')
                   /\ Forall good (nodes (w_tree w'))
                   /\ w_tape w' = w_tape w
                   /\ exists suffix,
                       nodes (w_tree w') = nodes (w_tree w) ++ suffix
                       /\ (length suffix <= if r is Some _ then 2 else 1)%nat)
      allowed w.
Proof.
  intros Hwf Hnodes Hnearest Hnew. unfold extend.
  assert (good nearest) as Hgn.
  { rewrite Forall_forall in Hnodes. apply Hnodes, list_elem_of_lookup. eauto. }
  pose proof (lookup_lt_Some _ _ _ Hnearest) as Hnlt.
  apply wpx_bind, wpx_lift;
    [|intros e He; exact (collision_raises _ _ _ Hgn Hnew He)].
  intros b Hb.
  destruct b; cbn [negb].
  { apply wpx_pure. split; [exact Hwf|]. split; [exact Hnodes|]. split; [reflexivity|].
    exists []. rewrite app_nil_r. split; [reflexivity | simpl; lia]. }
  apply wpx_bind, wpx_get_tree.
  apply wpx_bind. unfold wpx at 1. cbn [nodes_append].
  apply wpx_bind, wpx_get_tree. cbn [w_tree].
  unfold cost_at at 1. cbn [cost].
  destruct (proj2 (wf_cost_dom _ Hwf nearest_idx) Hnlt) as [cn ->].
  apply wpx_bind, wpx_lift; [|discriminate]. intros ? [= <-].
  apply wpx_bind, wpx_lift;
    [|intros e He; exact (path_cost_raises _ _ _ Hgn Hnew He)].
  intros pc Hpc.
  set (t1 := {| nodes := nodes (w_tree w) ++ [new_point];
                parent := parent (w_tree w); cost := cost (w_tree w) |}).
  assert (Forall good (nodes t1)) as Hnodes1.
  { subst t1. cbn [nodes]. apply Forall_app. split; [exact Hnodes|].
    constructor; [exact Hnew | constructor]. }
  assert (forall idx, idx ∈ get_near_nodes t1 new_point ->
                      (idx < length (nodes t1))%nat
                      /\ (is_Some (cost t1 !! idx) \/ allowed KeyError)) as Hnear.
  { intros idx Hidx. unfold get_near_nodes in Hidx.
    apply near_from_spec in Hidx. destruct Hidx as (j & node & -> & Hj & Hpos & _).
    simpl. split; [eapply lookup_lt_Some, Hj|].
    subst t1. cbn [nodes cost] in *.
    destruct (decide (j < length (nodes (w_tree w)))%nat) as [Hlt|Hge].
    - left. apply (wf_cost_dom _ Hwf), Hlt.
    - destruct self_not_near as [Hself|Hkey]; [|right; exact Hkey].
      exfalso. rewrite lookup_app_r in Hj by lia.
      destruct (j - length (nodes (w_tree w)))%nat; simpl in Hj; [|discriminate].
      injection Hj as <-. exact (Hself _ Hpos). }
  pose proof (choose_parent_safe t1 new_point (get_near_nodes t1 new_point)
                Hnodes1 Hnew Hnear (cn + pc)%Q nearest_idx) as Hch.
  apply wpx_bind, wpx_lift.
  2:{ intros e He. rewrite He in Hch. exact Hch. }
  intros [min_cost min_parent] Hch'. rewrite Hch' in Hch.
  assert (min_parent <= length (nodes (w_tree w)))%nat as Hmp.
  { destruct Hch as [->|Hin]; [lia|].
    apply Hnear in Hin. destruct Hin as [Hlt _]. subst t1. cbn [nodes] in Hlt.
    rewrite length_app in Hlt. simpl in Hlt. lia. }
  subst t1. cbn [nodes parent cost] in *.
  apply wpx_bind. unfold wpx at 1. cbn [set_parent w_tree w_tape w_trace nodes parent cost].
  apply wpx_bind. unfold wpx at 1. cbn [set_cost w_tree w_tape w_trace nodes parent cost].
  apply wpx_bind.
  eapply wpx_mono; [apply wpx_rewire|].
  - cbn [w_tree]. apply well_formed_attach; [exact Hwf | exact Hmp].
  - exact Hnodes1.
  - exact Hnew.
  - cbn [w_tree nodes]. rewrite length_app. simpl. lia.
  - cbn [w_tree nodes]. intros idx Hidx. apply Hnear in Hidx. apply Hidx.
  - cbn [w_tree nodes w_tape]. intros _ w' (Hwf' & Hnodes' & Htape').
    eapply wpx_mono; [apply wpx_connect_goal|].
    + exact Hwf'.
    + rewrite Hnodes'. exact Hnodes1.
    + exact Hnew.
    + rewrite Hnodes', length_app. simpl. lia.
    + intros r w'' (Hwf'' & Hgood'' & Htape'' & Hnodes'').
      split; [exact Hwf''|]. split; [exact Hgood''|].
      split; [congruence|].
      rewrite Hnodes'', Hnodes', <- app_assoc.
      eexists. split; [reflexivity|]. destruct r; simpl; lia.
Qed.

Lemma wpx_iteration (fuel : nat) (w : world) :
  safe_state good ugood w ->
  wpx (iteration fuel)
      (fun r w' => safe_state good ugood w'
                   /\ exists suffix,
                       nodes (w_tree w') = nodes (w_tree w) ++ suffix
                       /\ (length suffix <= if r is Some _ then 2 else 1)%nat)
      allowed w.
Proof.
  intros Hsafe. pose proof Hsafe as (Hwf & Hnodes & Htape). unfold iteration.
  apply wpx_bind. eapply wpx_mono; [apply wpx_propose, Hsafe|].
  intros [[nearest_idx nearest] new_point] w1 (Ht1 & Htape1 & Hn & _ & Hnew).
  cbn [fst snd] in Hn, Hnew.
  eapply wpx_mono; [apply wpx_extend|].
  - rewrite Ht1. exact Hwf.
  - rewrite Ht1. exact Hnodes.
  - rewrite Ht1. exact Hn.
  - exact Hnew.
  - intros r w' (Hwf' & Hnodes' & Htape' & Hsuffix).
    split; [|rewrite <- Ht1; exact Hsuffix].
    split; [exact Hwf'|]. split; [exact Hnodes'|]. rewrite Htape'. exact Htape1.
Qed.

Lemma wpx_find_path_loop (fuel iters : nat) :
  forall w : world,
    safe_state good ugood w ->
    wpx (find_path_loop fuel iters)
        (fun r w' => safe_state good ugood w'
                     /\ exists suffix,
                         nodes (w_tree w') = nodes (w_tree w) ++ suffix
                         /\ (length suffix
                             <= iters + if r is Some _ then 1 else 0)%nat)
        allowed w.
Proof.
  induction iters as [|iters IH]; intros w Hsafe; cbn [find_path_loop].
  - apply wpx_pure. split; [exact Hsafe|]. exists []. rewrite app_nil_r. auto.
  - apply wpx_bind. eapply wpx_mono; [apply wpx_iteration, Hsafe|].
    intros [path|] w' (Hsafe' & suffix & Hnodes & Hlen).
    + apply wpx_pure. split; [exact Hsafe'|]. exists suffix. split; [exact Hnodes | lia].
    + eapply wpx_mono; [apply IH, Hsafe'|].
      intros r w'' (Hsafe'' & suffix' & Hnodes' & Hlen').
      split; [exact Hsafe''|]. exists (suffix ++ suffix').
      rewrite Hnodes', Hnodes, <- app_assoc. split; [reflexivity|].
      rewrite length_app. destruct r; lia.
Qed.

End Safety.

(** ** The exceptions of the grid functions *)

Lemma int_of_quotient_raise (a s : Q) (e : exn) :
  int_of_quotient a s = Raise e -> e <> KeyError.
Proof.
  unfold int_of_quotient. destruct (Qeq_bool s 0); [|discriminate].
  destruct (Qeq_bool a 0); intros [= <-]; discriminate.
Qed.

Lemma to_cell_raise (p : point) (e : exn) : to_cell p = Raise e -> e <> KeyError.
Proof.
  unfold to_cell.
  destruct (int_of_quotient (fst p) (grid_scale self)) as [x|e1|] eqn:Hx; cbn;
    [|intros [= <-]; eapply int_of_quotient_raise, Hx | discriminate].
  destruct (int_of_quotient (snd p) (grid_scale self)) as [y|e1|] eqn:Hy; cbn;
    [discriminate | intros [= <-]; eapply int_of_quotient_raise, Hy | discriminate].
Qed.

Lemma getitem_raise (g : ndarray) (i j : Z) (e : exn) :
  getitem g i j = Raise e -> e = IndexError.
Proof.
  unfold getitem, np_axis.
  repeat (destruct (_ && _); cbn; try discriminate); intros [= <-]; reflexivity.
Qed.

Lemma scan_line_raise (line : list cell) (e : exn) :
  scan_line line = Raise e -> e = IndexError.
Proof.
  induction line as [|[x y] line IH]; cbn [scan_line]; [discriminate|].
  destruct (_ && _); [discriminate|].
  destruct (getitem (grid self) (x - 1) (y - 1)) as [v|e1|] eqn:Hg; cbn;
    [|intros [= <-]; eapply getitem_raise, Hg | discriminate].
  destruct (Qle_bool _ _); [discriminate | exact IH].
Qed.

Lemma is_collision_raise (a : point) (b : option point) (e : exn) :
  is_collision a b = Raise e -> e <> KeyError.
Proof.
  unfold is_collision. destruct (existsb _ _); [discriminate|].
  destruct b as [b|]; [|discriminate].
  destruct (to_cell a) as [ca|e1|] eqn:Ha; cbn;
    [|intros [= <-]; eapply to_cell_raise, Ha | discriminate].
  destruct (to_cell b) as [cb|e1|] eqn:Hb; cbn;
    [|intros [= <-]; eapply to_cell_raise, Hb | discriminate].
  destruct (bresenham_spec ca cb) as (line & -> & _). rewrite bind_Ok.
  intros He. apply scan_line_raise in He. subst. discriminate.
Qed.

Lemma get_grid_cost_raise (p : point) (e : exn) :
  get_grid_cost p = Raise e -> e <> KeyError.
Proof.
  unfold get_grid_cost.
  destruct (int_of_quotient (snd p) (grid_scale self)) as [i|e1|] eqn:Hi; cbn;
    [|intros [= <-]; eapply int_of_quotient_raise, Hi | discriminate].
  destruct (int_of_quotient (fst p) (grid_scale self)) as [j|e1|] eqn:Hj; cbn;
    [|intros [= <-]; eapply int_of_quotient_raise, Hj | discriminate].
  intros He. apply getitem_raise in He. subst. discriminate.
Qed.

Lemma path_cost_raise (a b : point) (e : exn) :
  path_cost a b = Raise e -> e <> KeyError.
Proof.
  unfold path_cost.
  destruct (to_cell a) as [ca|e1|] eqn:Ha; cbn;
    [|intros [= <-]; eapply to_cell_raise, Ha | discriminate].
  destruct (to_cell b) as [cb|e1|] eqn:Hb; cbn;
    [|intros [= <-]; eapply to_cell_raise, Hb | discriminate].
  destruct (bresenham_spec ca cb) as (line & -> & _). rewrite bind_Ok.
  destruct (sum_cells_spec line 0%Q O) as (total & -> & _). rewrite bind_Ok.
  discriminate.
Qed.

Lemma steer_raise (a b : point) (e : exn) : steer a b = Raise e -> e <> KeyError.
Proof.
  unfold steer. destruct (Qltb _ _); [discriminate|].
  destruct (Qeq_bool _ _); [intros [= <-]|]; discriminate.
Qed.

Lemma norm_self (p : point) :
  (forall q, q == 0 -> fsqrt q == 0)%Q -> ~ (0 < norm (psub p p))%Q.
Proof.
  intros Hz. unfold norm, psub. cbn [fst snd].
  rewrite (Hz ((fst p - fst p) * (fst p - fst p) + (snd p - snd p) * (snd p - snd p))%Q)
    by ring.
  apply Qlt_irrefl.
Qed.

Lemma init_world_safe (good : point -> Prop) (ugood : Q -> Prop) (tape : list Q) :
  good (start self) -> Forall ugood tape ->
  safe_state good ugood (init_world tape).
Proof.
  intros Hs Ht. split; [exact init_tree_well_formed|]. split; [|exact Ht].
  simpl. constructor; [exact Hs | constructor].
Qed.

(** ** What a run of [find_path] keeps and what it never does *)

(** X7: after any run of [find_path] that returns, [self.parent] and
    [self.cost] have an entry for exactly the indices of [self.nodes], every
    parent is the index of a node, node 0 is still the start, and at most
    one node per round has been added, plus the goal when a path is
    returned. *)
Theorem find_path_keeps_tree_well_formed (fuel : nat) (tape : list Q)
    (r : option (list point)) (w' : world) :
  find_path fuel (init_world tape) = (Ok r, w') ->
  well_formed (w_tree w')
  /\ exists suffix,
      nodes (w_tree w') = start self :: suffix
      /\ (length suffix <= max_iter self + if r is Some _ then 1 else 0)%nat.
Proof.
  intros Hrun.
  pose proof (wpx_find_path_loop (fun _ => True) (fun _ => True) (fun _ => True)
                I (fun _ _ _ _ => I) (fun _ _ _ _ _ _ => I) (fun _ _ _ _ => I)
                (fun _ _ _ _ => I) (fun _ _ _ _ _ _ => I) (fun _ _ _ _ _ _ => I)
                (or_intror I) fuel (max_iter self) (init_world tape)) as H.
  unfold wpx in H. fold (find_path fuel) in H. rewrite Hrun in H.
  destruct H as ((Hwf & _) & suffix & Hnodes & Hlen).
  { apply init_world_safe; [exact I|]. apply Forall_forall. intros; exact I. }
  split; [exact Hwf|]. exists suffix. split; [exact Hnodes | exact Hlen].
Qed.

(** X8: [find_path] never raises [KeyError]: every lookup in
    [self.parent] and [self.cost] finds its key, provided the norm of the
    zero vector is zero. *)
Theorem find_path_never_raises_KeyError (fuel : nat) (tape : list Q) :
  (forall q, q == 0 -> fsqrt q == 0)%Q ->
  (find_path fuel (init_world tape)).1 <> Raise KeyError.
Proof.
  intros Hz.
  pose proof (wpx_find_path_loop (fun _ => True) (fun _ => True) (fun e => e <> KeyError)
                I (fun _ _ _ _ => I) (fun _ _ _ _ _ _ => I) steer_raise
                (fun p e _ => get_grid_cost_raise p e)
                (fun a b e _ _ => is_collision_raise a (Some b) e)
                (fun a b e _ _ => path_cost_raise a b e)
                (or_introl (fun p => norm_self p Hz))
                fuel (max_iter self) (init_world tape)) as H.
  unfold wpx in H. fold (find_path fuel) in H.
  destruct (find_path fuel (init_world tape)) as [[r|e|] w']; cbn [fst]; try discriminate.
  intros [= ->]. apply H; [|reflexivity].
  apply init_world_safe; [exact I|]. apply Forall_forall. intros; exact I.
Qed.

(** X9: on a square grid [_is_collision] returns for every segment
    between two points of the grid extent: each read [grid[x - 1, y - 1]] is
    in range. *)
Theorem is_collision_total_on_square_grid (a b : point) :
  shape0 (grid self) = shape1 (grid self) ->
  (0 < shape0 (grid self))%nat ->
  (0 < grid_scale self)%Q ->
  in_extent a -> in_extent b ->
  exists r, is_collision a (Some b) = Ok r.
Proof. exact (is_collision_square a b). Qed.

(** X10: with a positive step size [_steer] returns a point of the
    segment from [start] to [target], other than [start]: the target itself
    when it is nearer than one step, and [start + k (target - start)] for
    some [0 < k <= 1] in any case. *)
Theorem steer_stays_on_segment (a b : point) :
  (0 < step_size self)%Q ->
  exists (r : point) (k : Q),
    steer a b = Ok r
    /\ (0 < k)%Q /\ (k <= 1)%Q
    /\ (fst r == fst a + k * (fst b - fst a))%Q
    /\ (snd r == snd a + k * (snd b - snd a))%Q
    /\ (Qltb (norm (psub b a)) (step_size self) = true -> r = b).
Proof. exact (steer_convex a b). Qed.

(** X11: on a square grid with a positive cell size and a positive step
    size, with start and goal in the grid extent, [find_path] raises no
    exception at all, whatever numbers in [0, 1] the random generator
    returns. *)
Theorem find_path_never_raises_on_square_grid (fuel : nat) (tape : list Q) (e : exn) :
  shape0 (grid self) = shape1 (grid self) ->
  (0 < shape0 (grid self))%nat ->
  (0 < grid_scale self)%Q ->
  (0 < step_size self)%Q ->
  in_extent (start self) -> in_extent (goal self) ->
  Forall unit_interval tape ->
  (forall q, q == 0 -> fsqrt q == 0)%Q ->
  (find_path fuel (init_world tape)).1 <> Raise e.
Proof.
  intros Hsq Hpos Hs Hstep Hstart Hgoal Htape Hz.
  assert (~ (grid_scale self == 0)%Q) as Hnz by lra.
  pose proof (wpx_find_path_loop in_extent unit_interval (fun _ => False)) as H.
  specialize (H Hgoal).
  assert (forall u v, unit_interval u -> unit_interval v ->
                      in_extent ((0 + (extent_x - 0) * u)%Q, (0 + (extent_y - 0) * v)%Q))
    as Hsample.
  { intros u v [Hu0 Hu1] [Hv0 Hv1].
    assert (0 <= extent_x)%Q as Hx.
    { unfold extent_x. apply Qmult_le_0_compat; [|lra].
      change 0%Q with (inject_Z 0). rewrite <- Zle_Qle. lia. }
    assert (0 <= extent_y)%Q as Hy.
    { unfold extent_y. apply Qmult_le_0_compat; [|lra].
      change 0%Q with (inject_Z 0). rewrite <- Zle_Qle. lia. }
    split; cbn [fst snd]; split; nra. }
  specialize (H Hsample (fun a b r Ha Hb => steer_in_extent a b r Hstep Ha Hb)).
  assert (forall a b e', steer a b = Raise e' -> False) as Hsteer.
  { intros a b e' He. destruct (steer_convex a b Hstep) as (r & k & Hr & _). congruence. }
  assert (forall p e', in_extent p -> get_grid_cost p = Raise e' -> False) as Hcost.
  { intros p e' _ He.
    destruct (get_grid_cost_returns p Hnz Hpos) as (c & Hc); [lia | congruence]. }
  assert (forall a b e', in_extent a -> in_extent b ->
                         is_collision a (Some b) = Raise e' -> False) as Hcol.
  { intros a b e' Ha Hb He.
    destruct (is_collision_square a b Hsq Hpos Hs Ha Hb) as (r & Hr). congruence. }
  assert (forall a b e', in_extent a -> in_extent b ->
                         path_cost a b = Raise e' -> False) as Hpc.
  { intros a b e' _ _ He. destruct (path_cost_returns a b Hnz) as (v & Hv). congruence. }
  specialize (H Hsteer Hcost Hcol Hpc (or_introl (fun p => norm_self p Hz))
                fuel (max_iter self) (init_world tape)
                (init_world_safe _ _ tape Hstart Htape)).
  unfold wpx in H. fold (find_path fuel) in H.
  destruct (find_path fuel (init_world tape)) as [[r|e'|] w']; cbn [fst]; try discriminate.
  contradiction.
Qed.
(** ** What the simplification returns, on any path *)

(** A blocked first check from the anchor makes the loop append its anchor
    for ever, wherever it stands in the path. *)
Lemma simplify_loop_stuck_at (path : list point) (a g f : point) (idx : nat) :
  path !! idx = Some g ->
  is_collision a (Some g) = Ok true ->
  last path = Some f ->
  point_eqb a f = false ->
  forall (fuel : nat) (new_path : list point),
    last new_path = Some a ->
    simplify_loop fuel path new_path idx = OutOfFuel.
Proof.
  intros Hg Hblocked Hfin Hneq fuel.
  assert (exists rest, drop idx path = g :: rest) as [rest Hdrop].
  { exists (drop (S idx) path). apply drop_S, Hg. }
  induction fuel as [|fuel IH]; intros new_path Hlast; simpl simplify_loop;
    rewrite (py_last_Some _ _ Hlast), (py_last_Some _ _ Hfin), !bind_Ok, Hneq.
  - reflexivity.
  - rewrite Hdrop. cbn [simplify_scan]. rewrite Hblocked, bind_Ok. cbn [negb].
    rewrite bind_Ok. apply IH. apply last_snoc.
Qed.

Lemma simplify_loop_returns (path : list point) (fuel : nat) :
  forall (new_path : list point) (idx : nat) (res : list point),
    simplify_inv path new_path idx ->
    new_path `sublist_of` take idx path ->
    simplify_loop fuel path new_path idx = Ok res ->
    simplify_post path res /\ res `sublist_of` path.
Proof.
  induction fuel as [|fuel IH];
    intros new_path idx res [Hidx (a & Hlast & Ha) Hhead Hfree Hlen] Hsub Hres.
  - assert (exists f, last path = Some f) as [f Hfin].
    { apply last_is_Some. intros ->. simpl in Hidx. lia. }
    simpl in Hres.
    rewrite (py_last_Some _ _ Hlast), (py_last_Some _ _ Hfin), !bind_Ok in Hres.
    destruct (point_eqb a f) eqn:Haf; [|discriminate]. injection Hres as <-.
    split.
    + split; [exact Hhead|]. split; [|split; [exact Hfree | lia]]. exists a, f. auto.
    + etransitivity; [exact Hsub | apply sublist_take].
  - assert (exists f, last path = Some f) as [f Hfin].
    { apply last_is_Some. intros ->. simpl in Hidx. lia. }
    simpl in Hres.
    rewrite (py_last_Some _ _ Hlast), (py_last_Some _ _ Hfin), !bind_Ok in Hres.
    destruct (point_eqb a f) eqn:Haf.
    { injection Hres as <-. split.
      - split; [exact Hhead|]. split; [|split; [exact Hfree | lia]]. exists a, f. auto.
      - etransitivity; [exact Hsub | apply sublist_take]. }
    assert (idx < length path)%nat as Hlt.
    { destruct (decide (idx = length path)) as [->|]; [|lia].
      rewrite last_lookup in Hfin.
      replace (pred (length path)) with (length path - 1)%nat in Hfin by lia.
      rewrite Ha in Hfin. injection Hfin as ->.
      rewrite point_eqb_refl in Haf. discriminate. }
    destruct (simplify_scan_cases a f (drop idx path) a idx new_path)
      as [(e & g & Hin & Hraise & Heq)
         |[(Heq & Hall)
          |[(Heq & g & rest & Hgoals & Hblocked)
           |(k & s & Heq & Hk & Hs)]]]; rewrite Heq in Hres.
    + discriminate.
    + exfalso. rewrite Forall_forall in Hall.
      assert (f ∈ drop idx path) as Hf.
      { apply last_Some_elem_of. rewrite last_drop by assumption. exact Hfin. }
      apply Hall in Hf. rewrite point_eqb_refl in Hf. discriminate.
    + exfalso. rewrite bind_Ok in Hres.
      assert (path !! idx = Some g) as Hg.
      { replace idx with (idx + 0)%nat at 1 by lia. rewrite <- lookup_drop, Hgoals.
        reflexivity. }
      rewrite (simplify_loop_stuck_at path a g f idx Hg Hblocked Hfin Haf)
        in Hres by apply last_snoc.
      discriminate.
    + rewrite bind_Ok in Hres. rewrite lookup_drop in Hk.
      assert (idx + k < length path)%nat as Hk' by (eapply lookup_lt_Some; eassumption).
      apply (IH (new_path ++ [s]) (idx + S k)%nat res); [| |exact Hres].
      * split.
        -- lia.
        -- exists s. split; [apply last_snoc|].
           replace (idx + S k - 1)%nat with (idx + k)%nat by lia. exact Hk.
        -- rewrite head_app. destruct new_path; [discriminate|]. exact Hhead.
        -- eapply segments_free_snoc; eassumption.
        -- rewrite length_app. simpl. lia.
      * replace (idx + S k)%nat with (S (idx + k)) by lia.
        rewrite (take_S_r _ _ _ Hk). apply sublist_app; [|reflexivity].
        etransitivity; [exact Hsub|].
        replace (take idx path) with (take idx (take (idx + k) path))
          by (rewrite take_take; f_equal; lia).
        apply sublist_take.
Qed.

(** X12: whenever [_simplify_path] returns, on any path, what it returns
    is a subsequence of the path that starts with its first point, ends with
    a point equal to its last point, and has every consecutive pair
    unblocked. *)
Theorem simplify_path_returns_free_subsequence (fuel : nat) (path res : list point) :
  simplify_path fuel path = Ok res ->
  res `sublist_of` path
  /\ head res = head path
  /\ (exists a f, last res = Some a /\ last path = Some f /\ point_eqb a f = true)
  /\ segments_free res.
Proof.
  intros Hres. destruct path as [|p0 rest]; [discriminate|].
  unfold simplify_path in Hres.
  apply simplify_loop_returns in Hres.
  - destruct Hres as ((Hhead & Hlast & Hfree & _) & Hsub). auto.
  - apply simplify_inv_init.
  - simpl. rewrite take_0. reflexivity.
Qed.
(** ** The parent chosen for a new node *)

Lemma choose_parent_cheapest (t : tree) (new_point : point) (near_nodes : list nat) :
  forall (c0 : Q) (p0 : nat) (c : Q) (p : nat),
    choose_parent t new_point near_nodes c0 p0 = Ok (c, p) ->
    (c <= c0)%Q
    /\ (forall idx node ci pc,
           idx ∈ near_nodes -> nodes t !! idx = Some node ->
           is_collision node (Some new_point) = Ok false ->
           cost t !! idx = Some ci -> path_cost node new_point = Ok pc ->
           (c <= ci + pc)%Q)
    /\ ((c = c0 /\ p = p0)
        \/ exists node ci pc,
            p ∈ near_nodes /\ nodes t !! p = Some node
            /\ is_collision node (Some new_point) = Ok false
            /\ cost t !! p = Some ci /\ path_cost node new_point = Ok pc
            /\ c = (ci + pc)%Q /\ (c < c0)%Q).
Proof.
  induction near_nodes as [|idx rest IH]; intros c0 p0 c p Hch.
  - simpl in Hch. injection Hch as <- <-.
    split; [apply Qle_refl|]. split; [|left; auto].
    intros idx node ci pc Hin. inversion Hin.
  - simpl in Hch.
    apply bind_Ok_inv in Hch. destruct Hch as (node & Hnode & Hch).
    apply bind_Ok_inv in Hch. destruct Hch as (b & Hb & Hch).
    apply node_at_Ok in Hnode.
    destruct b; cbn [negb] in Hch.
    { destruct (IH _ _ _ _ Hch) as (Hle & Hmin & Hwho).
      split; [exact Hle|]. split.
      - intros i n ci pc Hin Hn Hfree Hci Hpc.
        apply elem_of_cons in Hin. destruct Hin as [->|Hin]; [|eapply Hmin; eassumption].
        rewrite Hnode in Hn. injection Hn as <-. congruence.
      - destruct Hwho as [?|(n & ci & pc & Hin & ?)]; [left; assumption|].
        right. exists n, ci, pc. split; [right; exact Hin | assumption]. }
    apply bind_Ok_inv in Hch. destruct Hch as (ci0 & Hci0 & Hch).
    apply bind_Ok_inv in Hch. destruct Hch as (pc0 & Hpc0 & Hch).
    apply cost_at_Ok in Hci0.
    destruct (Qltb (ci0 + pc0) c0) eqn:Hlt.
    + apply Qltb_lt in Hlt.
      destruct (IH _ _ _ _ Hch) as (Hle & Hmin & Hwho).
      split; [lra|]. split.
      * intros i n ci pc Hin Hn Hfree Hci Hpc.
        apply elem_of_cons in Hin. destruct Hin as [->|Hin]; [|eapply Hmin; eassumption].
        rewrite Hnode in Hn. injection Hn as <-.
        rewrite Hci0 in Hci. injection Hci as <-.
        rewrite Hpc0 in Hpc. injection Hpc as <-. exact Hle.
      * right. destruct Hwho as [[-> ->]|(n & ci & pc & Hin & Hn & Hf & Hc & Hp & Heq & Hlt')].
        -- exists node, ci0, pc0. repeat split; try assumption. left.
        -- exists n, ci, pc. repeat split; try assumption; [right; exact Hin | lra].
    + apply Qltb_ge in Hlt.
      destruct (IH _ _ _ _ Hch) as (Hle & Hmin & Hwho).
      split; [exact Hle|]. split.
      * intros i n ci pc Hin Hn Hfree Hci Hpc.
        apply elem_of_cons in Hin. destruct Hin as [->|Hin]; [|eapply Hmin; eassumption].
        rewrite Hnode in Hn. injection Hn as <-.
        rewrite Hci0 in Hci. injection Hci as <-.
        rewrite Hpc0 in Hpc. injection Hpc as <-. lra.
      * destruct Hwho as [?|(n & ci & pc & Hin & ?)]; [left; assumption|].
        right. exists n, ci, pc. split; [right; exact Hin | assumption].
Qed.

(** X13: the parent loop returns the least cost among the initial
    candidate and the near nodes that pass the collision check, and the node
    that first reaches it: either the initial parent with its cost, or a
    near node whose cost through it is strictly below the initial one. *)
Theorem choose_parent_picks_cheapest (t : tree) (new_point : point)
    (near_nodes : list nat) (c0 : Q) (p0 : nat) (c : Q) (p : nat) :
  choose_parent t new_point near_nodes c0 p0 = Ok (c, p) ->
  (c <= c0)%Q
  /\ (forall idx node ci pc,
         idx ∈ near_nodes -> nodes t !! idx = Some node ->
         is_collision node (Some new_point) = Ok false ->
         cost t !! idx = Some ci -> path_cost node new_point = Ok pc ->
         (c <= ci + pc)%Q)
  /\ ((c = c0 /\ p = p0)
      \/ exists node ci pc,
          p ∈ near_nodes /\ nodes t !! p = Some node
          /\ is_collision node (Some new_point) = Ok false
          /\ cost t !! p = Some ci /\ path_cost node new_point = Ok pc
          /\ c = (ci + pc)%Q /\ (c < c0)%Q).
Proof. apply choose_parent_cheapest. Qed.

(** ** Stored costs along the edges *)

Lemma cover_attach (t : tree) (new_point : point) (mp : nat) (a : point)
    (cp v mc : Q) :
  well_formed t -> costs_cover_edges t ->
  nodes t !! mp = Some a -> cost t !! mp = Some cp ->
  path_cost a new_point = Ok v -> (cp + v <= mc)%Q ->
  costs_cover_edges {| nodes := nodes t ++ [new_point];
                       parent := <[length (nodes t) := Some mp]> (parent t);
                       cost := <[length (nodes t) := mc]> (cost t) |}.
Proof.
  intros Hwf Hcov Ha Hcp Hv Hle i p Hp. cbn [nodes parent cost] in *.
  pose proof (lookup_lt_Some _ _ _ Ha) as Hmp.
  destruct (decide (length (nodes t) = i)) as [<-|Hne].
  - rewrite lookup_insert_eq in Hp. injection Hp as <-.
    exists a, new_point, mc, cp, v.
    rewrite lookup_insert_eq, lookup_insert_ne by lia.
    repeat split; try assumption.
    + apply lookup_app_l_Some, Ha.
    + rewrite lookup_app_r by lia. rewrite Nat.sub_diag. reflexivity.
  - rewrite lookup_insert_ne in Hp by exact Hne.
    destruct (Hcov i p Hp) as (a0 & b0 & ci & cp0 & v0 & Ha0 & Hb0 & Hci & Hcp0 & Hv0 & Hle0).
    exists a0, b0, ci, cp0, v0.
    assert (p < length (nodes t))%nat by (eapply lookup_lt_Some, Ha0).
    rewrite !lookup_insert_ne by lia.
    repeat split; try assumption; apply lookup_app_l_Some; assumption.
Qed.

Lemma cover_rewire (t : tree) (idx nw : nat) (a b : point) (cn v ci : Q) :
  costs_cover_edges t ->
  nodes t !! nw = Some a -> nodes t !! idx = Some b ->
  cost t !! nw = Some cn -> path_cost a b = Ok v ->
  cost t !! idx = Some ci -> (cn + v < ci)%Q -> nw <> idx ->
  costs_cover_edges {| nodes := nodes t;
                       parent := <[idx := Some nw]> (parent t);
                       cost := <[idx := (cn + v)%Q]> (cost t) |}.
Proof.
  intros Hcov Ha Hb Hcn Hv Hci Hlt Hne i p Hp. cbn [nodes parent cost] in *.
  destruct (decide (idx = i)) as [<-|Hi].
  - rewrite lookup_insert_eq in Hp. injection Hp as <-.
    exists a, b, (cn + v)%Q, cn, v.
    rewrite lookup_insert_eq, lookup_insert_ne by congruence.
    repeat split; try assumption. apply Qle_refl.
  - rewrite lookup_insert_ne in Hp by exact Hi.
    destruct (Hcov i p Hp) as (a0 & b0 & ci0 & cp0 & v0 & Ha0 & Hb0 & Hci0 & Hcp0 & Hv0 & Hle0).
    rewrite (lookup_insert_ne _ idx i) by exact Hi.
    destruct (decide (idx = p)) as [<-|Hp'].
    + rewrite Hci in Hcp0. injection Hcp0 as <-.
      exists a0, b0, ci0, (cn + v)%Q, v0. rewrite lookup_insert_eq.
      repeat split; try assumption. lra.
    + exists a0, b0, ci0, cp0, v0. rewrite lookup_insert_ne by exact Hp'.
      repeat split; assumption.
Qed.

Lemma init_tree_cover : costs_cover_edges init_tree.
Proof.
  intros i p Hp. simpl in Hp. destruct i.
  - rewrite lookup_singleton_eq in Hp. discriminate.
  - rewrite lookup_singleton_ne in Hp by lia. discriminate.
Qed.

Section CostPass.

Hypothesis sqrt_zero : (forall q, q == 0 -> fsqrt q == 0)%Q.

Lemma wp_rewire_cover (new_idx : nat) (new_point : point) (min_parent : nat)
    (near_nodes : list nat) :
  forall w : world,
    well_formed (w_tree w) -> costs_cover_edges (w_tree w) ->
    nodes (w_tree w) !! new_idx = Some new_point ->
    (forall idx, idx ∈ near_nodes ->
                 (idx < length (nodes (w_tree w)))%nat /\ idx <> new_idx) ->
    wp (rewire new_idx new_point min_parent near_nodes)
       (fun _ w' => well_formed (w_tree w') /\ costs_cover_edges (w_tree w')
                    /\ nodes (w_tree w') = nodes (w_tree w))
       (fun _ => True) w.
Proof.
  induction near_nodes as [|idx rest IH]; intros w Hwf Hcov Hnew Hnear.
  - apply wp_pure. auto.
  - assert (forall i, i ∈ rest ->
                      (i < length (nodes (w_tree w)))%nat /\ i <> new_idx) as Hrest.
    { intros i Hi. apply Hnear. right. exact Hi. }
    destruct (Hnear idx (list_elem_of_here _ _)) as [Hlt Hne].
    cbn [rewire]. destruct (Nat.eqb idx min_parent); [apply IH; assumption|].
    apply wp_bind, wp_get_tree.
    apply wp_bind, wp_lift; [intros node Hnode | exact I].
    apply wp_bind, wp_lift; [intros cn Hcn | exact I].
    apply wp_bind, wp_lift; [intros pc Hpc | exact I].
    apply wp_bind, wp_lift; [intros ci Hci | exact I].
    apply node_at_Ok in Hnode. apply cost_at_Ok in Hcn, Hci.
    apply wp_bind.
    destruct (Qltb (cn + pc) ci) eqn:Hlt'; [|apply wp_pure, IH; assumption].
    apply Qltb_lt in Hlt'.
    apply wp_bind, wp_lift; [intros b Hb | exact I].
    destruct b; cbn [negb]; [apply wp_pure, IH; assumption|].
    unfold wp at 1. cbn [mbind M_bind set_parent set_cost].
    eapply wp_mono; [apply IH| |auto].
    + cbn [w_tree nodes parent cost]. apply well_formed_rewire;
        [exact Hwf | exact Hlt | eapply lookup_lt_Some, Hnew].
    + cbn [w_tree nodes parent cost]. eapply cover_rewire; eauto.
    + exact Hnew.
    + exact Hrest.
    + cbn [w_tree nodes]. intros _ w' (? & ? & ?). auto.
Qed.

Lemma wp_connect_goal_cover (fuel new_idx : nat) (new_point : point) (w : world) :
  well_formed (w_tree w) -> costs_cover_edges (w_tree w) ->
  nodes (w_tree w) !! new_idx = Some new_point ->
  wp (connect_goal fuel new_idx new_point)
     (fun _ w' => well_formed (w_tree w') /\ costs_cover_edges (w_tree w'))
     (fun _ => True) w.
Proof.
  intros Hwf Hcov Hnew. unfold connect_goal.
  destruct (Qltb _ _); [|apply wp_pure; auto].
  apply wp_bind, wp_lift; [intros b Hb | exact I].
  destruct b; cbn [negb]; [apply wp_pure; auto|].
  apply wp_bind, wp_get_tree.
  apply wp_bind. unfold wp at 1. cbn [nodes_append].
  apply wp_bind. unfold wp at 1. cbn [set_parent w_tree w_tape w_trace nodes parent cost].
  apply wp_bind, wp_get_tree.
  apply wp_bind, wp_lift; [intros cn Hcn | exact I].
  apply wp_bind, wp_lift; [intros pc Hpc | exact I].
  apply cost_at_Ok in Hcn. cbn [w_tree cost] in Hcn.
  apply wp_bind. unfold wp at 1. cbn [set_cost w_tree w_tape w_trace nodes parent cost].
  apply wp_bind, wp_get_tree. cbn [w_tree].
  apply wp_bind, wp_lift; [intros path Hpath | exact I].
  apply wp_pure. split.
  - apply well_formed_attach; [exact Hwf|].
    apply lookup_lt_Some in Hnew. lia.
  - eapply cover_attach; eauto. apply Qle_refl.
Qed.

Lemma wp_extend_cover (fuel nearest_idx : nat) (nearest new_point : point) (w : world) :
  well_formed (w_tree w) -> costs_cover_edges (w_tree w) ->
  nodes (w_tree w) !! nearest_idx = Some nearest ->
  wp (extend fuel nearest_idx nearest new_point)
     (fun _ w' => well_formed (w_tree w') /\ costs_cover_edges (w_tree w'))
     (fun _ => True) w.
Proof.
  intros Hwf Hcov Hnearest. unfold extend.
  apply wp_bind, wp_lift; [intros b Hb | exact I].
  destruct b; cbn [negb]; [apply wp_pure; auto|].
  apply wp_bind, wp_get_tree.
  apply wp_bind. unfold wp at 1. cbn [nodes_append].
  apply wp_bind, wp_get_tree. cbn [w_tree].
  apply wp_bind, wp_lift; [intros cn Hcn | exact I].
  apply wp_bind, wp_lift; [intros pc Hpc | exact I].
  apply cost_at_Ok in Hcn. cbn [cost] in Hcn.
  apply wp_bind, wp_lift; [intros [min_cost min_parent] Hch | exact I].
  set (t1 := {| nodes := nodes (w_tree w) ++ [new_point];
                parent := parent (w_tree w); cost := cost (w_tree w) |}) in *.
  assert (exists a cp v,
             nodes (w_tree w) !! min_parent = Some a
             /\ cost (w_tree w) !! min_parent = Some cp
             /\ path_cost a new_point = Ok v /\ min_cost = (cp + v)%Q)
    as (a & cp & v & Ha & Hcp & Hv & Hmc).
  { destruct (choose_parent_cheapest _ _ _ _ _ _ _ Hch)
      as (_ & _ & [[-> ->]|(node & ci & pc' & _ & Hnode & _ & Hci & Hpc' & -> & _)]).
    - exists nearest, cn, pc. auto.
    - exists node, ci, pc'. subst t1. cbn [nodes cost] in *.
      assert (min_parent < length (nodes (w_tree w)))%nat as Hlt
          by (apply (wf_cost_dom _ Hwf); eauto).
      rewrite lookup_app_l in Hnode by exact Hlt. auto. }
  assert (forall idx, idx ∈ get_near_nodes t1 new_point ->
                      (idx < length (nodes t1))%nat /\ idx <> length (nodes (w_tree w)))
    as Hnear.
  { intros idx Hidx. unfold get_near_nodes in Hidx.
    apply near_from_spec in Hidx. destruct Hidx as (j & node & -> & Hj & Hpos & _).
    simpl. split; [eapply lookup_lt_Some, Hj|].
    intros ->. subst t1. cbn [nodes] in Hj.
    rewrite lookup_app_r, Nat.sub_diag in Hj by lia. injection Hj as <-.
    exact (norm_self _ sqrt_zero Hpos). }
  subst t1. cbn [nodes parent cost] in *.
  apply wp_bind. unfold wp at 1. cbn [set_parent w_tree w_tape w_trace nodes parent cost].
  apply wp_bind. unfold wp at 1. cbn [set_cost w_tree w_tape w_trace nodes parent cost].
  assert ((nodes (w_tree w) ++ [new_point]) !! length (nodes (w_tree w)) = Some new_point)
    as Hnew by (rewrite lookup_app_r by lia; rewrite Nat.sub_diag; reflexivity).
  apply wp_bind.
  eapply wp_mono; [apply wp_rewire_cover | |auto].
  - cbn [w_tree]. apply well_formed_attach; [exact Hwf|].
    apply lookup_lt_Some in Ha. lia.
  - cbn [w_tree]. eapply cover_attach; eauto. rewrite Hmc. apply Qle_refl.
  - exact Hnew.
  - exact Hnear.
  - cbn [w_tree nodes]. intros _ w' (Hwf' & Hcov' & Hnodes').
    apply wp_connect_goal_cover; [exact Hwf' | exact Hcov'|].
    rewrite Hnodes'. exact Hnew.
Qed.

Lemma wp_find_path_loop_cover (fuel iters : nat) :
  forall w : world,
    well_formed (w_tree w) -> costs_cover_edges (w_tree w) ->
    wp (find_path_loop fuel iters)
       (fun _ w' => costs_cover_edges (w_tree w'))
       (fun _ => True) w.
Proof.
  induction iters as [|iters IH]; intros w Hwf Hcov; cbn [find_path_loop].
  - apply wp_pure. exact Hcov.
  - apply wp_bind.
    assert (wp (iteration fuel)
               (fun _ w' => well_formed (w_tree w') /\ costs_cover_edges (w_tree w'))
               (fun _ => True) w) as Hit.
    { unfold iteration, wp, mbind, M_bind.
      destruct (propose fuel w) as [[[[nearest_idx nearest] new_point]| |] w1] eqn:Hprop;
        try exact I.
      pose proof (propose_node fuel _ _ _ _ _ Hprop) as Hnode.
      destruct (tape_only_propose fuel w) as [Htree _].
      rewrite Hprop in Htree. simpl in Htree.
      apply (wp_extend_cover fuel nearest_idx nearest new_point w1);
        [rewrite Htree; exact Hwf | rewrite Htree; exact Hcov | exact Hnode]. }
    eapply wp_mono; [exact Hit | |auto].
    intros [path|] w' [Hwf' Hcov'].
    + apply wp_pure. exact Hcov'.
    + apply IH; assumption.
Qed.

End CostPass.

(** X14: after any run of [find_path] that returns, the stored cost of
    every node with a parent is at least the stored cost of the parent plus
    the cost of the edge from the parent to the node: rewiring may leave a
    stored cost too high, never too low.  The norm of the zero vector is
    taken to be zero. *)
Theorem find_path_costs_cover_edges (fuel : nat) (tape : list Q)
    (r : option (list point)) (w' : world) :
  (forall q, q == 0 -> fsqrt q == 0)%Q ->
  find_path fuel (init_world tape) = (Ok r, w') ->
  costs_cover_edges (w_tree w').
Proof.
  intros Hz Hrun.
  pose proof (wp_find_path_loop_cover Hz fuel (max_iter self) (init_world tape)
                init_tree_well_formed init_tree_cover) as H.
  unfold wp in H. fold (find_path fuel) in H. rewrite Hrun in H. exact H.
Qed.
(** ** A run of the planner, as its caller sees it *)

Lemma run_result (fuel : nat) (tape tape' : list Q) (r : result (option (list point))) :
  run fuel tape = (r, tape') ->
  find_path fuel (init_world tape) = (r, (find_path fuel (init_world tape)).2).
Proof.
  unfold run. intros [= <- _]. apply surjective_pairing.
Qed.

Lemma run_sound (fuel : nat) (tape tape' : list Q) (path : list point) :
  run fuel tape = (Ok (Some path), tape') -> sound_path path.
Proof.
  intros Hrun. apply run_result in Hrun.
  pose proof (wp_find_path_loop_edges fuel (max_iter self) (init_world tape)
                init_tree_edges) as H.
  unfold wp in H. fold (find_path fuel) in H. rewrite Hrun in H.
  apply H. reflexivity.
Qed.
(** ** Where the samples fall *)

Lemma sample_in_extent (u v : Q) :
  (0 <= grid_scale self)%Q ->
  unit_interval u -> unit_interval v ->
  in_extent ((0 + (extent_x - 0) * u)%Q, (0 + (extent_y - 0) * v)%Q).
Proof.
  intros Hs [Hu0 Hu1] [Hv0 Hv1].
  assert (0 <= extent_x)%Q as Hx.
  { unfold extent_x. apply Qmult_le_0_compat; [|exact Hs].
    change 0%Q with (inject_Z 0). rewrite <- Zle_Qle. lia. }
  assert (0 <= extent_y)%Q as Hy.
  { unfold extent_y. apply Qmult_le_0_compat; [|exact Hs].
    change 0%Q with (inject_Z 0). rewrite <- Zle_Qle. lia. }
  split; cbn [fst snd]; split; nra.
Qed.

(** X22: with a cell size that is not negative and random numbers in
    [0, 1], every point [_sample_point] returns lies in the grid extent, from
    the origin to [shape[1] * grid_scale] by [shape[0] * grid_scale]. *)
Theorem sample_point_in_extent (fuel : nat) (w w' : world) (p : point) :
  (0 <= grid_scale self)%Q ->
  Forall unit_interval (w_tape w) ->
  sample_point fuel w = (Ok p, w') ->
  in_extent p.
Proof.
  intros Hs Htape Hrun.
  pose proof (wpx_sample_point in_extent unit_interval (fun _ => True)
                (fun u v => sample_in_extent u v Hs) (fun _ _ _ _ => I)
                fuel w Htape) as H.
  unfold wpx in H. rewrite Hrun in H. apply H.
Qed.

End Planner.

(** * The model at work *)

Lemma approx_sqrt_nonneg (q : Q) : (0 <= approx_sqrt q)%Q.
Proof.
  unfold approx_sqrt. apply Qle_shift_div_l; [reflexivity|].
  rewrite Qmult_0_l. change 0%Q with (inject_Z 0). rewrite <- Zle_Qle.
  apply Z.sqrt_nonneg.
Qed.

Lemma const_grid_nonneg (rows cols iters : nat) (s t : point) :
  grid_nonneg (planner_on (const_grid rows cols 0%Q) iters s t).
Proof. intros i j _ _. simpl. apply Qle_refl. Qed.

Lemma unit_scale_nonzero (g : ndarray) (iters : nat) (s t : point) :
  ~ (grid_scale (planner_on g iters s t) == 0)%Q.
Proof. simpl. intros H. discriminate H. Qed.

(** C1 (not what the code does): in a grid whose every cell is at
    the threshold or above, the segment from cell (1, 1), which is strictly
    inside, to cell (2, 1) is reported free; and in a grid that is free but
    for its last cell, the segment from the boundary cell (0, 0) to cell
    (1, 0) is reported blocked, on the value of [grid[-1, -1]]. *)
Theorem is_collision_skips_interior_reads_boundary :
  (strictly_inside costly_planner (1, 1) = true
   /\ getitem (grid costly_planner) 1 1 = Ok 1%Q
   /\ Qle_bool (traversability_threshold costly_planner) 1 = true
   /\ bresenham (1, 1) (2, 1) = Ok [(1, 1)]
   /\ is_collision costly_planner ((3 # 2)%Q, (3 # 2)%Q) (Some ((5 # 2)%Q, (3 # 2)%Q))
      = Ok false)
  /\ (strictly_inside corner_planner (0, 0) = false
      /\ getitem (grid corner_planner) 0 0 = Ok 0%Q
      /\ getitem (grid corner_planner) (-1) (-1) = Ok 1%Q
      /\ bresenham (0, 0) (1, 0) = Ok [(0, 0)]
      /\ is_collision corner_planner ((1 # 2)%Q, (1 # 2)%Q) (Some ((3 # 2)%Q, (1 # 2)%Q))
         = Ok true).
Proof. repeat split; vm_compute; reflexivity. Qed.

Lemma rewire_planner_nonneg : grid_nonneg (rewire_planner 0).
Proof. intros i j _ _. simpl. apply Qle_refl. Qed.

(** A run of three rounds whose last one re-parents node 2 from node 1 to
    the new node 3. *)
Lemma find_path_parents_acyclic_run :
  (parent <$> head (w_trace (find_path approx_sqrt (rewire_planner 0) 5
                              (init_world (rewire_planner 0) rewire_tape)).2))
  = Some (<[2%nat := Some 3%nat]>
            (<[3%nat := Some O]>
               (<[2%nat := Some 1%nat]> (<[1%nat := Some O]> {[ O := None ]}))))
  /\ Forall acyclic
       (w_trace (find_path approx_sqrt (rewire_planner 0) 5
                   (init_world (rewire_planner 0) rewire_tape)).2)
  /\ (is_ok (find_path approx_sqrt (rewire_planner 0) 5
               (init_world (rewire_planner 0) rewire_tape)).1 ->
      acyclic (w_tree (find_path approx_sqrt (rewire_planner 0) 5
                         (init_world (rewire_planner 0) rewire_tape)).2)).
Proof.
  split; [vm_compute; reflexivity|].
  exact (find_path_parents_acyclic approx_sqrt (rewire_planner 0) 5 rewire_tape
           approx_sqrt_nonneg rewire_planner_nonneg).
Defined.

(** With grid costs below zero, outside the data model, the same three
    rounds give the root a parent: the chain from node 0 runs through nodes
    3, 2 and 1 and back to 3. *)
Example negative_costs_close_a_cycle :
  parent (w_tree (find_path approx_sqrt (rewire_planner (-3)) 5
                    (init_world (rewire_planner (-3)) rewire_tape)).2)
  = <[1%nat := Some 3%nat]>
      (<[O := Some 3%nat]>
         (<[3%nat := Some 2%nat]>
            (<[2%nat := Some 1%nat]> (<[1%nat := Some O]> {[ O := None ]}))))
  /\ ~ acyclic (w_tree (find_path approx_sqrt (rewire_planner (-3)) 5
                          (init_world (rewire_planner (-3)) rewire_tape)).2).
Proof.
  split; [vm_compute; reflexivity|].
  intros [Hroot _]. vm_compute in Hroot. discriminate.
Qed.

Lemma straight_path_free : segments_free near_planner straight_path.
Proof.
  intros i a b Ha Hb.
  destruct i as [|[|i]]; simpl in Ha, Hb; try discriminate;
    injection Ha as <-; injection Hb as <-; vm_compute; reflexivity.
Qed.

(** The middle point of a straight free path is dropped. *)
Lemma simplify_path_non_degrading_run :
  simplify_path near_planner 3 straight_path
  = Ok [((1 # 2)%Q, (1 # 2)%Q); ((5 # 2)%Q, (1 # 2)%Q)]
  /\ ((exists new_path,
          simplify_path near_planner 3 straight_path = Ok new_path
          /\ head new_path = head straight_path
          /\ (exists a f, last new_path = Some a /\ last straight_path = Some f
                          /\ point_eqb a f = true)
          /\ segments_free near_planner new_path
          /\ (length new_path <= length straight_path)%nat)
      \/ (exists e i j a b,
             (i < j)%nat /\ straight_path !! i = Some a /\ straight_path !! j = Some b
             /\ is_collision near_planner a (Some b) = Raise e
             /\ simplify_path near_planner 3 straight_path = Raise e)).
Proof.
  split; [vm_compute; reflexivity|].
  apply (simplify_path_non_degrading near_planner straight_path 3 straight_path_free).
  - discriminate.
  - simpl. lia.
Defined.

Lemma bent_path_free : segments_free wide_planner bent_path.
Proof.
  intros i a b Ha Hb.
  destruct i as [|[|i]]; simpl in Ha, Hb; try discriminate;
    injection Ha as <-; injection Hb as <-; vm_compute; reflexivity.
Qed.

(** On a grid that is not square the shortcut from the first to the last
    point reads [grid[2, -1]] of a grid with two rows. *)
Example simplify_path_raises :
  segments_free wide_planner bent_path
  /\ simplify_path wide_planner 3 bent_path = Raise IndexError.
Proof. split; [exact bent_path_free | vm_compute; reflexivity]. Qed.

Lemma rounds_next_computed (fsqrt : Q -> Q) (self : RRTStar) (fuel n : nat)
    (w w2 : world) :
  (iteration fsqrt self fuel w).1 = Ok None ->
  rounds_without_goal fsqrt self fuel n (iteration fsqrt self fuel w).2 w2 ->
  rounds_without_goal fsqrt self fuel (S n) w w2.
Proof.
  intros H1 H2. econstructor; [|exact H2].
  destruct (iteration fsqrt self fuel w) as [r w1]. simpl in H1. rewrite H1. reflexivity.
Qed.

(** Two rounds toward a goal eight steps away. *)
Lemma find_path_exhausted_run :
  exists w' : world,
    find_path approx_sqrt far_planner 5 (init_world far_planner [0; 0]%Q)
    = (Ok None, w').
Proof.
  eexists.
  apply (proj1 (find_path_exhausted_returns_none approx_sqrt far_planner 5 _ _)).
  apply rounds_next_computed; [vm_compute; reflexivity|].
  apply rounds_next_computed; [vm_compute; reflexivity|].
  apply rounds_done.
Defined.


(** Three cells of cost 1 along a segment of length 3. *)
Lemma path_cost_scales_distance_run :
  exists cells v,
    to_cell costly_planner ((1 # 2)%Q, (1 # 2)%Q) = Ok (cell_of costly_planner ((1 # 2)%Q, (1 # 2)%Q))
    /\ to_cell costly_planner ((7 # 2)%Q, (1 # 2)%Q) = Ok (cell_of costly_planner ((7 # 2)%Q, (1 # 2)%Q))
    /\ bresenham (cell_of costly_planner ((1 # 2)%Q, (1 # 2)%Q))
                 (cell_of costly_planner ((7 # 2)%Q, (1 # 2)%Q)) = Ok cells
    /\ path_cost approx_sqrt costly_planner ((1 # 2)%Q, (1 # 2)%Q) ((7 # 2)%Q, (1 # 2)%Q) = Ok v
    /\ (v == norm approx_sqrt (psub ((7 # 2)%Q, (1 # 2)%Q) ((1 # 2)%Q, (1 # 2)%Q))
             * (1 + average_grid_cost costly_planner cells))%Q
    /\ (List.filter (in_bounds costly_planner) cells = [] ->
        average_grid_cost costly_planner cells = 0%Q).
Proof.
  exact (path_cost_scales_distance approx_sqrt costly_planner
           ((1 # 2)%Q, (1 # 2)%Q) ((7 # 2)%Q, (1 # 2)%Q)
           (unit_scale_nonzero _ _ _ _)).
Defined.

(** A point left of and above a ten by ten grid reads row 9, column 0. *)
Lemma get_grid_cost_clamps_run :
  get_grid_cost near_planner ((-5)%Q, 100%Q)
  = Ok (item (grid near_planner) 9 0).
Proof.
  destruct (get_grid_cost_clamps near_planner ((-5)%Q, 100%Q)) as (_ & _ & H).
  - apply unit_scale_nonzero.
  - simpl. lia.
  - simpl. lia.
  - exact H.
Defined.

(** Without a cell to clamp to, or with a cell size of zero, the query
    raises. *)
Example get_grid_cost_degenerate_grid_raises :
  get_grid_cost (planner_on (const_grid 0 0 0%Q) 1 (0%Q, 0%Q) (1%Q, 1%Q)) (0%Q, 0%Q)
  = Raise IndexError
  /\ get_grid_cost
       {| start := (0%Q, 0%Q); goal := (1%Q, 1%Q); obstacles := [];
          grid := const_grid 10 10 0%Q; max_iter := 1; step_size := 1%Q;
          neighbor_radius := 2%Q; grid_scale := 0%Q;
          traversability_threshold := (3 # 4)%Q; simplify := true |}
       (1%Q, 1%Q)
     = Raise OverflowError.
Proof. split; vm_compute; reflexivity. Qed.

(** A segment from a point to itself. *)
Lemma bresenham_start_included_goal_excluded_run :
  bresenham (cell_of near_planner ((3 # 2)%Q, (1 # 2)%Q))
            (cell_of near_planner ((3 # 2)%Q, (1 # 2)%Q)) = Ok []
  /\ exists v,
      path_cost approx_sqrt near_planner ((3 # 2)%Q, (1 # 2)%Q) ((3 # 2)%Q, (1 # 2)%Q) = Ok v
      /\ (v == norm approx_sqrt (psub ((3 # 2)%Q, (1 # 2)%Q) ((3 # 2)%Q, (1 # 2)%Q)))%Q.
Proof.
  exact (proj2 (bresenham_start_included_goal_excluded approx_sqrt near_planner)
           ((3 # 2)%Q, (1 # 2)%Q) (unit_scale_nonzero _ _ _ _)).
Defined.

(** A free path terminates; a path whose first segment is blocked, here by
    the corner cell read for the boundary cell (0, 0), does not. *)
Lemma simplify_path_terminates_run :
  simplify_path near_planner 3 straight_path <> OutOfFuel
  /\ forall fuel : nat,
      simplify_path corner_planner fuel [((1 # 2)%Q, (1 # 2)%Q); ((3 # 2)%Q, (1 # 2)%Q)]
      = OutOfFuel.
Proof.
  split.
  - apply (proj1 (simplify_path_terminates_when_segments_free near_planner)
             straight_path 3%nat).
    + simpl. lia.
    + exact straight_path_free.
    + simpl. lia.
  - apply (proj2 (simplify_path_terminates_when_segments_free corner_planner)
             ((1 # 2)%Q, (1 # 2)%Q) ((3 # 2)%Q, (1 # 2)%Q) ((3 # 2)%Q, (1 # 2)%Q) []).
    + vm_compute. reflexivity.
    + reflexivity.
    + vm_compute. reflexivity.
Defined.

(** The goal one step away is reached in the first round. *)
Lemma find_path_returns_sound_path_run :
  find_path approx_sqrt near_planner 5 (init_world near_planner [0]%Q)
  = (Ok (Some [((1 # 2)%Q, (1 # 2)%Q); ((12000 # 8000)%Q, (4000 # 8000)%Q)]),
     (find_path approx_sqrt near_planner 5 (init_world near_planner [0]%Q)).2)
  /\ sound_path near_planner [((1 # 2)%Q, (1 # 2)%Q); ((12000 # 8000)%Q, (4000 # 8000)%Q)].
Proof.
  assert ((find_path approx_sqrt near_planner 5 (init_world near_planner [0]%Q)).1
          = Ok (Some [((1 # 2)%Q, (1 # 2)%Q); ((12000 # 8000)%Q, (4000 # 8000)%Q)]))
    as Hfst by (vm_compute; reflexivity).
  assert (find_path approx_sqrt near_planner 5 (init_world near_planner [0]%Q)
          = (Ok (Some [((1 # 2)%Q, (1 # 2)%Q); ((12000 # 8000)%Q, (4000 # 8000)%Q)]),
             (find_path approx_sqrt near_planner 5 (init_world near_planner [0]%Q)).2))
    as Hrun by (rewrite <- Hfst; apply surjective_pairing).
  split; [exact Hrun|].
  exact (find_path_returns_sound_path approx_sqrt near_planner 5 [0]%Q _ _ Hrun).
Defined.

(** The first draw lands in the middle of the ten by ten grid. *)
Lemma sample_point_below_threshold_and_free_run :
  (sample_point near_planner 3 (init_world near_planner [1 # 2; 1 # 2]%Q)).1
  = Ok ((0 + (inject_Z 10 * 1 - 0) * (1 # 2))%Q, (0 + (inject_Z 10 * 1 - 0) * (1 # 2))%Q)
  /\ (exists c,
         get_grid_cost near_planner
           ((0 + (inject_Z 10 * 1 - 0) * (1 # 2))%Q, (0 + (inject_Z 10 * 1 - 0) * (1 # 2))%Q)
         = Ok c
         /\ (c < traversability_threshold near_planner)%Q)
  /\ is_collision near_planner
       ((0 + (inject_Z 10 * 1 - 0) * (1 # 2))%Q, (0 + (inject_Z 10 * 1 - 0) * (1 # 2))%Q)
       None
     = Ok false.
Proof.
  split; [reflexivity|].
  apply (sample_point_below_threshold_and_free near_planner 3
           (init_world near_planner [1 # 2; 1 # 2]%Q)
           (sample_point near_planner 3 (init_world near_planner [1 # 2; 1 # 2]%Q)).2).
  reflexivity.
Defined.

(** Of the two nodes of [two_node_world] the second is nearer to (2, 1/2). *)
Lemma nearest_node_first_minimum_run :
  exists (i : nat) (n : point),
    nearest_node approx_sqrt (w_tree two_node_world) (2%Q, (1 # 2)%Q) = Ok i
    /\ nodes (w_tree two_node_world) !! i = Some n
    /\ (forall j m, nodes (w_tree two_node_world) !! j = Some m ->
                    (norm approx_sqrt (psub n (2%Q, (1 # 2)%Q))
                     <= norm approx_sqrt (psub m (2%Q, (1 # 2)%Q)))%Q)
    /\ (forall j m, (j < i)%nat -> nodes (w_tree two_node_world) !! j = Some m ->
                    (norm approx_sqrt (psub n (2%Q, (1 # 2)%Q))
                     < norm approx_sqrt (psub m (2%Q, (1 # 2)%Q)))%Q).
Proof.
  apply (nearest_node_first_minimum approx_sqrt (w_tree two_node_world) (2%Q, (1 # 2)%Q)).
  discriminate.
Defined.

(** * Properties that relate two planners *)

Lemma existsb_Permutation {A} (f : A -> bool) (l l' : list A) :
  l ≡ₚ l' -> existsb f l = existsb f l'.
Proof.
  induction 1 as [|x l l' _ IH|x y l|l l' l'' _ IH1 _ IH2]; simpl.
  - reflexivity.
  - rewrite IH. reflexivity.
  - destruct (f x), (f y); reflexivity.
  - congruence.
Qed.

(** X15: the order of the obstacles is irrelevant: a planner with the
    same obstacles in any other order answers every collision query alike,
    exceptions included. *)
Theorem is_collision_obstacle_order_irrelevant (self : RRTStar) (obs : list obstacle)
    (p : point) (q : option point) :
  obstacles self ≡ₚ obs ->
  is_collision (with_obstacles self obs) p q = is_collision self p q.
Proof.
  intros Hperm. unfold is_collision. cbn [obstacles with_obstacles].
  rewrite (existsb_Permutation _ _ _ Hperm). reflexivity.
Qed.

(** * The replanner *)

Section Replan.

Variable plan : RRTStar -> list Q -> result (option (list point)) * list Q.

Lemma path_row_lt (path : list point3) (i : nat) :
  (i < length path)%nat -> exists p, path_row path i = Ok p /\ path !! i = Some p.
Proof.
  intros Hi. unfold path_row. destruct (lookup_lt_is_Some_2 _ _ Hi) as [p Hp].
  rewrite Hp. eauto.
Qed.

(** What [_rrt] leaves of the replanner object: all but the random
    numbers, when it is called with [self.obstacles]. *)
Lemma rrt_keeps_self (start goal : point) (w : rworld) :
  r_self (rrt plan start goal (rp_obstacles (r_self w)) w).2 = r_self w.
Proof.
  unfold rrt. destruct (reshape_grid (r_self w)); try reflexivity.
  destruct (plan _ _).1 as [[path|]| |]; cbn [snd r_self];
    destruct (r_self w); reflexivity.
Qed.

Lemma replan_loop_free (path : list point3) (w : rworld) :
  (forall i a b, path !! i = Some a -> path !! S i = Some b ->
                 colides (LineString (xy a) (xy b)) (rp_obstacles (r_self w)) = false) ->
  forall (n k : nat) (new_path : list point3),
    (k + n < length path)%nat ->
    replan_loop plan path (seq k n) new_path w
    = (Ok (Some (new_path ++ take n (drop k path))), w).
Proof.
  intros Hfree. induction n as [|n IH]; intros k new_path Hlen.
  - simpl. rewrite take_0, app_nil_r. reflexivity.
  - cbn [seq replan_loop].
    destruct (path_row_lt path k) as (a & -> & Ha); [lia|].
    destruct (path_row_lt path (S k)) as (b & -> & Hb); [lia|].
    rewrite (Hfree k a b Ha Hb), IH by lia.
    rewrite <- app_assoc. do 3 f_equal.
    rewrite (drop_S _ _ _ Ha). reflexivity.
Qed.

End Replan.

(** X16: a mission path none of whose segments hits an obstacle is
    returned as it is: no planner is run and no random number is drawn. *)
Theorem replan_rrt_keeps_free_path
    (plan : RRTStar -> list Q -> result (option (list point)) * list Q)
    (path : list point3) (w : rworld) :
  path <> [] ->
  (forall i a b, path !! i = Some a -> path !! S i = Some b ->
                 colides (LineString (xy a) (xy b)) (rp_obstacles (r_self w)) = false) ->
  replan_rrt plan path w = (Ok (Some path), w).
Proof.
  intros Hne Hfree. unfold replan_rrt.
  rewrite (replan_loop_free plan path w Hfree) by (destruct path; [contradiction | simpl; lia]).
  simpl. destruct (last path) as [p|] eqn:Hlast.
  - do 3 f_equal. rewrite drop_0.
    destruct (last_Some path p) as [[l' Hl'] _]; [exact Hlast|]. subst path.
    rewrite length_app. simpl. rewrite Nat.add_sub.
    rewrite take_app_length. reflexivity.
  - apply last_None in Hlast. contradiction.
Qed.

Section ReplanKeeps.

Variable plan : RRTStar -> list Q -> result (option (list point)) * list Q.

Lemma replan_loop_keeps (path : list point3) :
  forall (n k : nat) (new_path : list point3) (w w' : rworld) (np' : list point3),
    (k + n < length path)%nat ->
    replan_loop plan path (seq k n) new_path w = (Ok (Some np'), w') ->
    exists extra,
      np' = new_path ++ extra
      /\ take n (drop k path) `sublist_of` extra
      /\ ((0 < n)%nat -> head extra = path !! k).
Proof.
  induction n as [|n IH]; intros k new_path w w' np' Hlen Hloop.
  - simpl in Hloop. injection Hloop as <- <-. exists []. rewrite app_nil_r, take_0.
    split; [reflexivity|]. split; [reflexivity | lia].
  - cbn [seq replan_loop] in Hloop.
    destruct (path_row_lt path k) as (a & Hra & Ha); [lia|].
    destruct (path_row_lt path (S k)) as (b & Hrb & Hb); [lia|].
    rewrite Hra, Hrb in Hloop.
    rewrite (drop_S _ _ _ Ha). cbn [take].
    destruct (colides _ _).
    + destruct (rrt plan _ _ _ w) as [[[way|]| |] w1]; try discriminate.
      apply IH in Hloop; [|lia]. destruct Hloop as (extra & -> & Hsub & _).
      exists (a :: interior way ++ extra). split.
      * rewrite <- !app_assoc. reflexivity.
      * split; [|intros _; simpl; symmetry; exact Ha].
        apply sublist_skip, sublist_inserts_l, Hsub.
    + apply IH in Hloop; [|lia]. destruct Hloop as (extra & -> & Hsub & _).
      exists (a :: extra). split.
      * rewrite <- !app_assoc. reflexivity.
      * split; [|intros _; simpl; symmetry; exact Ha].
        apply sublist_skip, Hsub.
Qed.

End ReplanKeeps.

(** X17: whenever [replan_rrt] returns a path, the path keeps every
    waypoint of the mission path, in order: the mission path is a
    subsequence of it, and both start with the same row and end with the
    same row. *)
Theorem replan_rrt_keeps_waypoints
    (plan : RRTStar -> list Q -> result (option (list point)) * list Q)
    (path res : list point3) (w w' : rworld) :
  replan_rrt plan path w = (Ok (Some res), w') ->
  path `sublist_of` res /\ head res = head path /\ last res = last path.
Proof.
  unfold replan_rrt. intros Hres.
  destruct (replan_loop plan path (seq 0 (length path - 1)) [] w)
    as [[[np'|]| |] w1] eqn:Hloop; try discriminate.
  destruct (last path) as [p|] eqn:Hlast; [|discriminate].
  injection Hres as <- <-.
  destruct (last_Some path p) as [[l' Hl'] _]; [exact Hlast|]. subst path.
  rewrite length_app in Hloop. simpl in Hloop. rewrite Nat.add_sub in Hloop.
  destruct l' as [|q l'].
  { simpl in Hloop. injection Hloop as <- <-. simpl. auto. }
  apply replan_loop_keeps in Hloop; [|rewrite length_app; simpl; lia].
  destruct Hloop as (extra & -> & Hsub & Hhead).
  rewrite drop_0, take_app_length in Hsub.
  split; [apply sublist_app; [exact Hsub | reflexivity]|].
  split; [|apply last_snoc].
  specialize (Hhead ltac:(simpl; lia)). simpl in Hhead.
  destruct extra; [discriminate|]. simpl in *. exact Hhead.
Qed.

(** ** Detours *)

Lemma point_eqb_iff (p q : point) :
  point_eqb p q = true <-> (fst p == fst q)%Q /\ (snd p == snd q)%Q.
Proof.
  unfold point_eqb. rewrite andb_true_iff, !Qeq_bool_iff. reflexivity.
Qed.

Lemma existsb_map {A B} (f : B -> bool) (g : A -> B) (l : list A) :
  existsb f (map g l) = existsb (fun x => f (g x)) l.
Proof. induction l as [|x l IH]; simpl; [reflexivity | rewrite IH; reflexivity]. Qed.

Lemma colides_eqv (obstacles : list obstacle) (g1 g2 : geometry) :
  Forall respects_value obstacles -> geometry_eqv g1 g2 ->
  colides g1 obstacles = colides g2 obstacles.
Proof.
  intros Hall Heqv. unfold colides.
  induction Hall as [|ob obs Hob _ IH]; simpl; [reflexivity|].
  destruct (Hob g1 g2 Heqv) as [-> ->]. rewrite IH. reflexivity.
Qed.

Lemma free_chain_eqv (obstacles : list obstacle) (l1 l2 : list point3) :
  Forall respects_value obstacles ->
  Forall2 (fun u v => point_eqb (xy u) (xy v) = true) l1 l2 ->
  free_chain obstacles l1 -> free_chain obstacles l2.
Proof.
  intros Hobs Hall Hfree i u v Hu Hv.
  destruct (Forall2_lookup_r _ _ _ _ _ Hall Hu) as (u' & Hu' & Huu).
  destruct (Forall2_lookup_r _ _ _ _ _ Hall Hv) as (v' & Hv' & Hvv).
  rewrite <- (Hfree i u' v' Hu' Hv'). symmetry.
  apply colides_eqv; [exact Hobs|]. simpl. auto.
Qed.

Lemma free_chain_app (obstacles : list obstacle) (l m : list point3) (a : point3) :
  free_chain obstacles (l ++ [a]) -> free_chain obstacles (a :: m) ->
  free_chain obstacles (l ++ a :: m).
Proof.
  intros Hl Hm i u v Hu Hv.
  destruct (decide (S i < length (l ++ [a]))%nat) as [Hlt|Hge].
  - apply (Hl i u v).
    + rewrite length_app in Hlt. simpl in Hlt.
      destruct (decide (i < length l)%nat).
      * rewrite lookup_app_l in Hu |- * by lia. exact Hu.
      * lia.
    + rewrite length_app in Hlt. simpl in Hlt.
      destruct (decide (S i < length l)%nat).
      * rewrite lookup_app_l in Hv |- * by lia. exact Hv.
      * assert (S i = length l) as Hi by lia.
        rewrite lookup_app_r in Hv |- * by lia.
        rewrite Hi, Nat.sub_diag in Hv |- *. exact Hv.
  - rewrite length_app in Hge. simpl in Hge.
    rewrite lookup_app_r in Hu by lia. rewrite lookup_app_r in Hv by lia.
    apply (Hm (i - length l)%nat u v); [exact Hu|].
    replace (S (i - length l)) with (S i - length l)%nat by lia. exact Hv.
Qed.

Lemma free_chain_snoc (obstacles : list obstacle) (l : list point3) (a b : point3) :
  free_chain obstacles (l ++ [a]) ->
  colides (LineString (xy a) (xy b)) obstacles = false ->
  free_chain obstacles ((l ++ [a]) ++ [b]).
Proof.
  intros Hl Hab. rewrite <- app_assoc. apply free_chain_app; [exact Hl|].
  intros i u v Hu Hv. destruct i as [|[|i]]; simpl in Hu, Hv; try discriminate.
  injection Hu as <-. injection Hv as <-. exact Hab.
Qed.

Lemma list_ends {A} (l : list A) (x y : A) :
  head l = Some x -> last l = Some y ->
  (l = [x] /\ x = y) \/ exists mid, l = x :: mid ++ [y].
Proof.
  intros Hh Hl. apply last_Some in Hl. destruct Hl as [l' ->].
  destruct l' as [|x' mid]; simpl in Hh; injection Hh as ->.
  - left. auto.
  - right. exists mid. reflexivity.
Qed.

Lemma interior_ends (x y : point3) (mid : list point3) :
  interior (x :: mid ++ [y]) = mid.
Proof.
  unfold interior. simpl. rewrite length_app. simpl.
  rewrite drop_0. replace (length mid + 1 - 1)%nat with (length mid) by lia.
  apply take_app_length.
Qed.

Section ReplanRun.

Variable fsqrt : Q -> Q.
Variable fuel : nat.

(** The path [_rrt] returns is the path of the planner, moved back by
    [low]. *)
Lemma rrt_way (start goal : point) (obstacles : list obstacle) (w w' : rworld)
    (way : list point3) :
  rrt (fun cfg => run fsqrt cfg fuel) start goal obstacles w = (Ok (Some way), w') ->
  exists (grid : ndarray) (lp : list point),
    reshape_grid (r_self w) = Ok grid
    /\ sound_path
         (rrt_planner (r_self w) start goal
            (convert_obstacles (r_self w) obstacles) grid) lp
    /\ way = map (to_world (args_low (rp_args (r_self w)))) lp
    /\ rp_args (r_self w') = rp_args (r_self w)
    /\ rp_obstacles (r_self w') = obstacles.
Proof.
  unfold rrt. destruct (reshape_grid (r_self w)) as [grid| |]; try discriminate.
  set (cfg := rrt_planner _ start goal _ grid).
  destruct (run fsqrt cfg fuel (r_tape w)) as [r tape'] eqn:Hrun. cbn [fst snd].
  destruct r as [[lp|]| |]; try discriminate.
  intros [= <- <-]. exists grid, lp. split; [reflexivity|].
  split; [|cbn; auto].
  apply (run_sound fsqrt _ fuel (r_tape w) tape' lp) in Hrun. exact Hrun.
Qed.

Lemma sound_path_chain (cfg : RRTStar) (low : point) (obs : list obstacle)
    (lp : list point) :
  obstacles cfg = map (fun ob => transform ob low) obs ->
  segments_free cfg lp ->
  free_chain obs (map (to_world low) lp).
Proof.
  intros Hobs Hfree i u v Hu Hv.
  rewrite list_lookup_fmap in Hu, Hv.
  destruct (lp !! i) as [a|] eqn:Ha; [|discriminate].
  destruct (lp !! S i) as [b|] eqn:Hb; [|discriminate].
  injection Hu as <-. injection Hv as <-.
  pose proof (Hfree i a b Ha Hb) as Hcol. unfold is_collision in Hcol.
  rewrite Hobs, existsb_map in Hcol.
  destruct (existsb _ obs) eqn:Hex; [discriminate|]. exact Hex.
Qed.

End ReplanRun.

(** X18: the path [_rrt] returns starts at the start it was given, moved
    back by [low], ends at a point equal by value to the goal, lies in the
    plane [z = 0], and none of its segments hits one of the obstacles it
    was given. *)
Theorem rrt_returns_free_path (fsqrt : Q -> Q) (fuel : nat) (s g : point)
    (obs : list obstacle) (w w' : rworld) (way : list point3) :
  rrt (fun cfg => run fsqrt cfg fuel) s g obs w = (Ok (Some way), w') ->
  head way = Some (to_world (args_low (rp_args (r_self w))) s)
  /\ (exists a, last way = Some (to_world (args_low (rp_args (r_self w))) a)
                /\ point_eqb a g = true)
  /\ free_chain obs way
  /\ Forall (fun p : point3 => p.2 = 0%Q) way.
Proof.
  intros Hrrt. apply rrt_way in Hrrt.
  destruct Hrrt as (grid & lp & _ & (Hhead & (a & Hlast & Ha) & Hfree) & -> & _).
  cbn [start goal rrt_planner] in Hhead, Ha.
  split; [|split; [|split]].
  - destruct lp; [discriminate|]. simpl in Hhead. injection Hhead as ->. reflexivity.
  - exists a. split; [|exact Ha].
    change (map ?f lp) with (f <$> lp). rewrite fmap_last, Hlast. reflexivity.
  - eapply sound_path_chain; [|exact Hfree]. reflexivity.
  - apply Forall_forall. intros p Hp. apply list_elem_of_In, in_map_iff in Hp.
    destruct Hp as (q & <- & _). reflexivity.
Qed.

Section ReplanFree.

Variable fsqrt : Q -> Q.
Variable fuel : nat.
Variable path : list point3.
Variable rp : ReplanPath.

Hypothesis obstacles_proper : Forall respects_value (rp_obstacles rp).
Hypothesis blocked_distinct :
  forall i a b, path !! i = Some a -> path !! S i = Some b ->
                colides (LineString (xy a) (xy b)) (rp_obstacles rp) = true ->
                point_eqb (xy a) (xy b) = false.

Lemma detour_chain (a b : point3) (w w' : rworld) (way : list point3) :
  r_self w = rp ->
  point_eqb (xy a) (xy b) = false ->
  rrt (fun cfg => run fsqrt cfg fuel)
      (psub (xy a) (args_low (rp_args rp))) (psub (xy b) (args_low (rp_args rp)))
      (rp_obstacles rp) w = (Ok (Some way), w') ->
  free_chain (rp_obstacles rp) (a :: interior way ++ [b]) /\ r_self w' = rp.
Proof.
  intros Hself Hab Hrrt.
  assert (r_self w' = rp) as Hself'.
  { pose proof (rrt_keeps_self (fun cfg => run fsqrt cfg fuel)
                  (psub (xy a) (args_low (rp_args rp)))
                  (psub (xy b) (args_low (rp_args rp))) w) as Hk.
    rewrite Hself in Hk. rewrite Hrrt in Hk. exact Hk. }
  split; [|exact Hself'].
  apply rrt_way in Hrrt. rewrite Hself in Hrrt.
  destruct Hrrt as (grid & lp & _ & (Hhead & (g' & Hlast & Hg') & Hfree) & -> & _).
  cbn [start goal rrt_planner] in Hhead, Hg'.
  apply (sound_path_chain _ (args_low (rp_args rp)) (rp_obstacles rp)) in Hfree;
    [|reflexivity].
  apply point_eqb_iff in Hg'. cbn [fst snd psub] in Hg'. destruct Hg' as [Hgx Hgy].
  destruct (list_ends lp _ _ Hhead Hlast) as [[-> <-]|[mid ->]].
  - exfalso. assert (point_eqb (xy a) (xy b) = true) as Habs; [|congruence].
    apply point_eqb_iff. cbn [fst snd psub] in Hgx, Hgy. split; lra.
  - cbn [map] in Hfree |- *. rewrite map_app in Hfree |- *. cbn [map] in Hfree |- *.
    rewrite interior_ends.
    eapply free_chain_eqv; [exact obstacles_proper | | exact Hfree].
    constructor.
    + apply point_eqb_iff. unfold xy, to_world, psub. cbn [fst snd]. split; ring.
    + apply Forall2_app.
      * apply Forall_Forall2_diag, Forall_forall. intros p _. apply point_eqb_refl.
      * constructor; [|constructor].
        apply point_eqb_iff. unfold xy, to_world in *. cbn [fst snd] in *. split; lra.
Qed.

Lemma replan_loop_chain :
  forall (n k : nat) (new_path : list point3) (w w' : rworld) (np' : list point3),
    r_self w = rp ->
    (k + n < length path)%nat ->
    (forall p, path !! k = Some p -> free_chain (rp_obstacles rp) (new_path ++ [p])) ->
    replan_loop (fun cfg => run fsqrt cfg fuel) path (seq k n) new_path w
    = (Ok (Some np'), w') ->
    forall p, path !! (k + n)%nat = Some p ->
              free_chain (rp_obstacles rp) (np' ++ [p]).
Proof.
  induction n as [|n IH]; intros k new_path w w' np' Hself Hlen Hinv Hloop p Hp.
  - simpl in Hloop. injection Hloop as <- <-. apply Hinv.
    rewrite Nat.add_0_r in Hp. exact Hp.
  - cbn [seq replan_loop] in Hloop.
    destruct (path_row_lt path k) as (a & Hra & Ha); [lia|].
    destruct (path_row_lt path (S k)) as (b & Hrb & Hb); [lia|].
    rewrite Hra, Hrb, Hself in Hloop.
    replace (k + S n)%nat with (S k + n)%nat in Hp by lia.
    destruct (colides _ _) eqn:Hcol.
    + destruct (rrt _ _ _ _ w) as [[[way|]| |] w1] eqn:Hrrt; try discriminate.
      destruct (detour_chain a b w w1 way Hself (blocked_distinct k a b Ha Hb Hcol) Hrrt)
        as [Hchain Hself1].
      apply (IH (S k) ((new_path ++ [a]) ++ interior way) w1 w' np' Hself1);
        [lia | | exact Hloop | exact Hp].
      intros q Hq. rewrite Hb in Hq. injection Hq as <-.
      rewrite <- !app_assoc. apply free_chain_app; [apply Hinv, Ha | exact Hchain].
    + apply (IH (S k) (new_path ++ [a]) w w' np' Hself);
        [lia | | exact Hloop | exact Hp].
      intros q Hq. rewrite Hb in Hq. injection Hq as <-.
      apply free_chain_snoc; [apply Hinv, Ha | exact Hcol].
Qed.

End ReplanFree.

(** X19: no segment of a path [replan_rrt] returns hits an obstacle,
    provided the obstacles answer by the coordinates of a geometry and no
    blocked segment of the mission path joins two rows with the same [x] and
    [y]. *)
Theorem replan_rrt_returns_free_path (fsqrt : Q -> Q) (fuel : nat)
    (path res : list point3) (w w' : rworld) :
  Forall respects_value (rp_obstacles (r_self w)) ->
  (forall i a b, path !! i = Some a -> path !! S i = Some b ->
                 colides (LineString (xy a) (xy b)) (rp_obstacles (r_self w)) = true ->
                 point_eqb (xy a) (xy b) = false) ->
  replan_rrt (fun cfg => run fsqrt cfg fuel) path w = (Ok (Some res), w') ->
  free_chain (rp_obstacles (r_self w)) res.
Proof.
  intros Hproper Hdistinct. unfold replan_rrt. intros Hres.
  destruct (replan_loop _ path (seq 0 (length path - 1)) [] w)
    as [[[np'|]| |] w1] eqn:Hloop; try discriminate.
  destruct (last path) as [p|] eqn:Hlast; [|discriminate].
  injection Hres as <- <-.
  assert (path <> []) as Hne by (intros ->; discriminate).
  assert (0 < length path)%nat as Hlen by (destruct path; [contradiction | simpl; lia]).
  apply (replan_loop_chain fsqrt fuel path (r_self w) Hproper Hdistinct
           (length path - 1) 0 [] w w1 np' eq_refl); [lia | | exact Hloop |].
  - intros q _ i u v Hu Hv. destruct i; discriminate.
  - rewrite last_lookup in Hlast. rewrite <- Hlast. f_equal. lia.
Qed.

(** * The cost grid of the replanner *)

Lemma linspace_length (a b : Q) (num : Z) (xs : list Q) :
  linspace a b num = Ok xs -> 0 <= num /\ length xs = Z.to_nat num.
Proof.
  unfold linspace. destruct (Z.ltb_spec num 0); [discriminate|].
  intros [= <-]. rewrite length_map, length_seq. auto.
Qed.

Lemma create_grid_rows (low high : point) (cell_size : Q) (t : table) :
  create_grid low high cell_size = Ok t ->
  width t = 3%nat
  /\ Forall (fun row => exists x y, row = [x; y; 0%Q]) (rows t)
  /\ (rows t = []
      \/ (1 <= ceil_astype_int (fst high - fst low) cell_size
          /\ 1 <= ceil_astype_int (snd high - snd low) cell_size)).
Proof.
  unfold create_grid. intros H.
  apply bind_Ok_inv in H. destruct H as (xs & Hxs & H).
  apply bind_Ok_inv in H. destruct H as (ys & Hys & H).
  injection H as <-. cbn [width rows].
  apply linspace_length in Hxs, Hys. destruct Hxs as [Hx0 Hxl], Hys as [Hy0 Hyl].
  split; [reflexivity|]. split.
  - apply Forall_forall. intros row Hrow.
    apply list_elem_of_In, in_flat_map in Hrow. destruct Hrow as (y & _ & Hrow).
    apply in_map_iff in Hrow. destruct Hrow as (x & <- & _). eauto.
  - destruct ys as [|y ys]; [left; reflexivity|].
    destruct xs as [|x xs].
    + left. clear. induction ys as [|y' ys IH]; [reflexivity | exact IH].
    + right. simpl in Hxl, Hyl. lia.
Qed.

Lemma fold_min_in (ds : list Q) (d : Q) :
  fold_left (fun m y => if Qltb y m then y else m) ds d ∈ d :: ds.
Proof. apply fold_min_spec. Qed.

Lemma points_near_ref_range (fsqrt : Q -> Q) (points reference : list (list Q)) :
  (forall q, 0 <= fsqrt q)%Q ->
  Forall (fun d => match d with
                   | Some t => (0 <= t)%Q /\ (t < 1)%Q
                   | None => True
                   end)
         (points_near_ref fsqrt points reference 1).
Proof.
  intros Hsqrt. unfold points_near_ref. apply Forall_forall. intros d Hd.
  apply list_elem_of_In, in_map_iff in Hd. destruct Hd as (p & <- & _).
  destruct (map (row_dist fsqrt p) reference) as [|d0 ds] eqn:Hmap; [exact I|].
  pose proof (fold_min_in ds d0) as Hin.
  set (m := fold_left _ ds d0) in *. rewrite <- Hmap in Hin.
  destruct (Qltb m 1) eqn:Hlt; [|exact I]. apply Qltb_lt in Hlt.
  apply list_elem_of_In, in_map_iff in Hin. destruct Hin as (r & Hr & _).
  assert (0 <= m)%Q as H0 by (rewrite <- Hr; apply Hsqrt).
  split.
  - unfold Qdiv. change (/ 1)%Q with 1%Q. lra.
  - unfold Qdiv. change (/ 1)%Q with 1%Q. lra.
Qed.

Lemma filled_cost_range (d : option Q) :
  match d with Some t => (0 <= t)%Q /\ (t < 1)%Q | None => True end ->
  (0 <= match d with Some t => (t * t) / (1 * 1) | None => 1 # 2 end <= 1)%Q.
Proof.
  destruct d as [t|]; [|intros _; split; discriminate].
  intros [H0 H1]. unfold Qdiv. change (/ (1 * 1))%Q with 1%Q. split; nra.
Qed.

Lemma zip_fill_rows (rows : list (list Q)) :
  Forall (fun row => exists x y, row = [x; y; 0%Q]) rows ->
  forall near : list (option Q),
    Forall (fun d => match d with
                     | Some t => (0 <= t)%Q /\ (t < 1)%Q
                     | None => True
                     end) near ->
    Forall (fun row => exists x y v, row = [x; y; 0%Q; v] /\ (0 <= v <= 1)%Q)
           (zip_with (fun row d =>
                        <[3%nat := match d with
                                   | Some t => ((t * t) / (1 * 1))%Q
                                   | None => (1 # 2)%Q
                                   end]> (row ++ [0%Q]))
                     rows near).
Proof.
  induction 1 as [|row rest (x & y & ->) _ IH]; intros near Hnear; [constructor|].
  destruct near as [|d near]; [constructor|].
  inversion Hnear; subst. cbn [zip_with]. constructor; [|apply IH; assumption].
  eexists x, y, _. split; [reflexivity|]. apply filled_cost_range. assumption.
Qed.

Lemma fill_grid_rows (fsqrt : Q -> Q) (rp rp' : ReplanPath) (points : gmap nat point)
    (footways : list (list nat)) :
  (forall q, 0 <= fsqrt q)%Q ->
  Forall (fun row => exists x y, row = [x; y; 0%Q]) (rows (rp_grid rp)) ->
  fill_grid fsqrt rp points footways = Ok rp' ->
  rp_args rp' = rp_args rp
  /\ rp_obstacles rp' = rp_obstacles rp
  /\ width (rp_grid rp') = 4%nat
  /\ Forall (fun row => exists x y v, row = [x; y; 0%Q; v] /\ (0 <= v <= 1)%Q)
            (rows (rp_grid rp'))
  /\ (rows (rp_grid rp) = [] -> rows (rp_grid rp') = []).
Proof.
  intros Hsqrt Hrows. unfold fill_grid. intros H.
  apply bind_Ok_inv in H. destruct H as (waypoints & _ & H).
  destruct waypoints as [|wp wps]; [discriminate|].
  destruct (negb _); [discriminate|]. injection H as <-.
  cbn [rp_args rp_obstacles rp_grid width rows].
  split; [reflexivity|]. split; [reflexivity|]. split; [reflexivity|]. split.
  - apply zip_fill_rows; [exact Hrows|]. apply points_near_ref_range, Hsqrt.
  - intros ->. reflexivity.
Qed.

Lemma np_clip_range (v n : Z) : 1 <= n -> 0 <= np_clip v 0 (n - 1) < n.
Proof. unfold np_clip. lia. Qed.

Lemma scatter_range (num_x num_y : nat) :
  forall (xs ys : list Z) (cs : list Q) (g : nat -> nat -> Q),
    Forall (fun x => 0 <= x < Z.of_nat num_x) xs ->
    Forall (fun y => 0 <= y < Z.of_nat num_y) ys ->
    Forall (fun v => 0 <= v <= 1)%Q cs ->
    (forall a b, 0 <= g a b <= 1)%Q ->
    exists g', scatter num_x num_y xs ys cs g = Ok g'
               /\ forall a b, (0 <= g' a b <= 1)%Q.
Proof.
  induction xs as [|x xs IH]; intros ys cs g Hxs Hys Hcs Hg; [simpl; eauto|].
  destruct ys as [|y ys]; [simpl; eauto|].
  destruct cs as [|v cs]; [simpl; eauto|].
  inversion Hxs; subst. inversion Hys; subst. inversion Hcs; subst.
  cbn [scatter]. rewrite !np_axis_in_range by assumption. rewrite !bind_Ok.
  apply IH; try assumption.
  intros a b. destruct (_ && _); [assumption | apply Hg].
Qed.

Lemma column_rows (t : table) (k : nat) :
  (k < width t)%nat -> column t k = Ok (map (fun row => nth k row 0%Q) (rows t)).
Proof.
  intros Hk. unfold column. destruct (Nat.ltb_spec k (width t)); [reflexivity | lia].
Qed.

(** X20: the grid the replanner hands to the planner.  For a positive
    cell size, once [__init__] has laid out the grid points and [fill_grid]
    has given them their costs, [_reshape_grid] returns an array with one
    row per cell along [y] and one column per cell along [x], whose every
    entry lies in [0, 1]; so the grid of every planner [_rrt] constructs has
    no negative cost. *)
Theorem replan_cost_grid_in_unit_interval (fsqrt : Q -> Q) (args : Args)
    (obs : list obstacle) (points : gmap nat point) (footways : list (list nat))
    (rp0 rp1 : ReplanPath) :
  (forall q, 0 <= fsqrt q)%Q ->
  (0 < args_cell_size args)%Q ->
  ReplanPath_init args obs = Ok rp0 ->
  fill_grid fsqrt rp0 points footways = Ok rp1 ->
  exists g,
    reshape_grid rp1 = Ok g
    /\ shape0 g
       = Z.to_nat (Qceiling ((snd (args_high args) - snd (args_low args))
                             / args_cell_size args))
    /\ shape1 g
       = Z.to_nat (Qceiling ((fst (args_high args) - fst (args_low args))
                             / args_cell_size args))
    /\ (forall i j, 0 <= item g i j <= 1)%Q
    /\ forall s t o, grid_nonneg (rrt_planner rp1 s t o g).
Proof.
  intros Hsqrt Hcell Hinit Hfill.
  unfold ReplanPath_init in Hinit.
  apply bind_Ok_inv in Hinit. destruct Hinit as (t0 & Hcreate & [= <-]).
  destruct (create_grid_rows _ _ _ _ Hcreate) as (Hw0 & Hrows0 & Hnum).
  destruct (fill_grid_rows fsqrt {| rp_args := args; rp_grid := t0; rp_obstacles := obs |}
              rp1 points footways Hsqrt Hrows0 Hfill)
    as (Hargs & _ & Hw1 & Hrows1 & Hempty).
  cbn [rp_args rp_grid] in Hargs, Hempty.
  assert (Qeq_bool (args_cell_size args) 0 = false) as Hnz.
  { destruct (Qeq_bool _ 0) eqn:E; [|reflexivity]. apply Qeq_bool_iff in E. lra. }
  unfold ceil_astype_int in Hnum. rewrite Hnz in Hnum.
  unfold create_grid, ceil_astype_int in Hcreate. rewrite Hnz in Hcreate.
  apply bind_Ok_inv in Hcreate. destruct Hcreate as (xs & Hxs & Hcreate).
  apply bind_Ok_inv in Hcreate. destruct Hcreate as (ys & Hys & _).
  apply linspace_length in Hxs, Hys. destruct Hxs as [Hx0 _], Hys as [Hy0 _].
  unfold reshape_grid, int_ceil_quotient. rewrite Hargs, Hnz, !bind_Ok.
  set (num_x := Qceiling ((fst (args_high args) - fst (args_low args))
                          / args_cell_size args)) in *.
  set (num_y := Qceiling ((snd (args_high args) - snd (args_low args))
                          / args_cell_size args)) in *.
  destruct (Z.ltb_spec num_x 0); [lia|]. destruct (Z.ltb_spec num_y 0); [lia|].
  cbn [orb]. rewrite !column_rows, !bind_Ok by (rewrite Hw1; lia).
  assert (rows (rp_grid rp1) = [] \/ (1 <= num_x /\ 1 <= num_y)) as Hnum'.
  { destruct Hnum as [Hnil|Hnum]; [left; apply Hempty, Hnil | right; exact Hnum]. }
  destruct (scatter_range (Z.to_nat num_x) (Z.to_nat num_y)
              (map (fun x => np_clip (Qfloor ((x - fst (args_low args))
                                              / args_cell_size args)) 0 (num_x - 1))
                   (map (fun row => nth 0 row 0%Q) (rows (rp_grid rp1))))
              (map (fun y => np_clip (Qfloor ((y - snd (args_low args))
                                              / args_cell_size args)) 0 (num_y - 1))
                   (map (fun row => nth 1 row 0%Q) (rows (rp_grid rp1))))
              (map (fun row => nth 3 row 0%Q) (rows (rp_grid rp1)))
              (fun _ _ => 0%Q)) as (g' & Hscatter & Hrange).
  - destruct Hnum' as [->|[Hx Hy]]; [constructor|].
    apply Forall_forall. intros v Hv. apply list_elem_of_In, in_map_iff in Hv.
    destruct Hv as (x & <- & _). rewrite Z2Nat.id by lia. apply np_clip_range, Hx.
  - destruct Hnum' as [->|[Hx Hy]]; [constructor|].
    apply Forall_forall. intros v Hv. apply list_elem_of_In, in_map_iff in Hv.
    destruct Hv as (y & <- & _). rewrite Z2Nat.id by lia. apply np_clip_range, Hy.
  - apply Forall_forall. intros v Hv. apply list_elem_of_In, in_map_iff in Hv.
    destruct Hv as (row & <- & Hrow). rewrite Forall_forall in Hrows1.
    apply list_elem_of_In, Hrows1 in Hrow. destruct Hrow as (x & y & v & -> & Hv).
    exact Hv.
  - intros a b. split; discriminate.
  - rewrite Hscatter, bind_Ok. eexists. split; [reflexivity|]. cbn [shape0 shape1 item].
    split; [reflexivity|]. split; [reflexivity|]. split.
    + intros i j. apply Hrange.
    + intros s t o i j _ _. cbn. apply Hrange.
Qed.

(** * Points along the footways *)

Lemma Qceiling_pos (q : Q) : (0 < q)%Q -> 1 <= Qceiling q.
Proof.
  intros Hq. pose proof (Qle_ceiling q) as Hle.
  assert (inject_Z 0 < inject_Z (Qceiling q))%Q as H by (change (inject_Z 0) with 0%Q; lra).
  rewrite <- Zlt_Qlt in H. lia.
Qed.

Section Ways.

Variable fsqrt : Q -> Q.
Variable points : gmap nat point.
Variable max_dist : Q.

Lemma split_way_step (n0 n1 : nat) (rest : list nat) (i : nat) (waypoints : list point) :
  split_way fsqrt points max_dist (n0 :: n1 :: rest) i waypoints
  = point0 ← way_point points n0;
    point1 ← way_point points n1;
    let dist := norm fsqrt (psub point1 point0) in
    let waypoints := if Nat.eqb i 0 then waypoints ++ [point0] else waypoints in
    if Qle_bool dist (1 # 1000) then
      split_way fsqrt points max_dist (n1 :: rest) (S i) (waypoints ++ [point1])
    else
      let vec := pdiv (psub point1 point0) dist in
      num ← int_ceil_quotient dist max_dist;
      let step := (dist / inject_Z num)%Q in
      split_way fsqrt points max_dist (n1 :: rest) (S i)
        (waypoints
         ++ map (fun j : nat =>
                   padd point0 (pscale vec ((inject_Z (Z.of_nat j) + 1) * step)%Q))
                (seq 0 (Z.to_nat num))).
Proof. reflexivity. Qed.

(** A way of fewer than two nodes has no pair of nodes: the loop body is
    never entered, and no point is looked up. *)
Lemma split_way_short (way : list nat) (i : nat) (acc : list point) :
  (length way <= 1)%nat -> split_way fsqrt points max_dist way i acc = Ok acc.
Proof.
  destruct way as [|n0 [|n1 way]]; try reflexivity. simpl. lia.
Qed.

(** The ways of fewer than two nodes can be taken out of the list. *)
Lemma split_ways_filter (ways : list (list nat)) (acc : list point) :
  split_ways fsqrt points
    (List.filter (fun way => (2 <=? length way)%nat) ways) max_dist acc
  = split_ways fsqrt points ways max_dist acc.
Proof.
  revert acc. induction ways as [|way ways IH]; intros acc; [reflexivity|].
  cbn [List.filter split_ways]. destruct (Nat.leb_spec 2 (length way)) as [Hlen|Hlen].
  - cbn [split_ways].
    destruct (split_way fsqrt points max_dist way 0 acc) as [acc'| |]; try reflexivity.
    rewrite !bind_Ok. apply IH.
  - rewrite split_way_short by lia. rewrite bind_Ok. apply IH.
Qed.

Hypothesis max_dist_pos : (0 < max_dist)%Q.

(** One way: its points are appended.  Every pair of nodes adds a point
    or more, pair 0 adds the first node before them, and a pair whose nodes
    are at most 1e-3 apart adds its second node. *)
Lemma split_way_points (nodes : list nat) :
  (forall id, id ∈ nodes -> is_Some (points !! id)) ->
  forall (i : nat) (acc : list point),
  exists new,
    split_way fsqrt points max_dist nodes i acc = Ok (acc ++ new)
    /\ (length nodes - 1 <= length new)%nat
    /\ (i = O -> (2 <= length nodes)%nat ->
        (length nodes <= length new)%nat
        /\ forall id p, head nodes = Some id -> points !! id = Some p -> p ∈ new)
    /\ (forall l1 n0 n1 l2 p0 p1,
           nodes = l1 ++ n0 :: n1 :: l2 ->
           points !! n0 = Some p0 -> points !! n1 = Some p1 ->
           (norm fsqrt (psub p1 p0) <= 1 # 1000)%Q -> p1 ∈ new).
Proof.
  induction nodes as [|n0 nodes IH]; intros Hall i acc.
  - exists []. rewrite app_nil_r. split; [reflexivity|]. split; [simpl; lia|]. split.
    + simpl. lia.
    + intros [|x l1] a b l2 p0 p1 Hsplit; discriminate.
  - destruct nodes as [|n1 rest].
    + exists []. rewrite app_nil_r. split; [reflexivity|]. split; [simpl; lia|]. split.
      * simpl. lia.
      * intros [|x [|y l1]] a b l2 p0 p1 Hsplit; discriminate.
    + rewrite split_way_step. unfold way_point.
      destruct (Hall n0) as [p0 Hp0]; [left|].
      destruct (Hall n1) as [p1 Hp1]; [right; left|].
      rewrite Hp0, Hp1, !bind_Ok. cbv zeta.
      assert (forall id, id ∈ n1 :: rest -> is_Some (points !! id)) as Hall'.
      { intros id Hid. apply Hall. right. exact Hid. }
      set (acc0 := if Nat.eqb i 0 then acc ++ [p0] else acc).
      assert (exists pre, acc0 = acc ++ pre /\ (i = O -> pre = [p0]))
        as (pre & Hacc0 & Hpre).
      { subst acc0. destruct (Nat.eqb_spec i 0).
        - exists [p0]. split; [reflexivity | intros _; reflexivity].
        - exists []. rewrite app_nil_r. split; [reflexivity | contradiction]. }
      assert (forall seg : list point,
                 (1 <= length seg)%nat ->
                 ((norm fsqrt (psub p1 p0) <= 1 # 1000)%Q -> p1 ∈ seg) ->
                 exists new,
                   split_way fsqrt points max_dist (n1 :: rest) (S i) (acc0 ++ seg)
                   = Ok (acc ++ new)
                   /\ (length (n0 :: n1 :: rest) - 1 <= length new)%nat
                   /\ (i = O -> (2 <= length (n0 :: n1 :: rest))%nat ->
                       (length (n0 :: n1 :: rest) <= length new)%nat
                       /\ forall id p, head (n0 :: n1 :: rest) = Some id ->
                                       points !! id = Some p -> p ∈ new)
                   /\ (forall l1 a b l2 q0 q1,
                          n0 :: n1 :: rest = l1 ++ a :: b :: l2 ->
                          points !! a = Some q0 -> points !! b = Some q1 ->
                          (norm fsqrt (psub q1 q0) <= 1 # 1000)%Q -> q1 ∈ new)) as Hstep.
      { intros seg Hseg Hnear.
        destruct (IH Hall' (S i) (acc0 ++ seg)) as (new & Heq & Hlen & _ & Hpairs).
        exists (pre ++ seg ++ new). split; [|split; [|split]].
        - rewrite Heq, Hacc0, <- !app_assoc. reflexivity.
        - rewrite !length_app. cbn [length] in *. lia.
        - intros Hi _. rewrite (Hpre Hi). split.
          + rewrite !length_app. cbn [length] in *. lia.
          + intros id p [= <-] Hp. rewrite Hp0 in Hp. injection Hp as <-. left.
        - intros l1 a b l2 q0 q1 Hsplit Ha Hb Hd. destruct l1 as [|x l1].
          + cbn [app] in Hsplit. injection Hsplit as <- <- _.
            rewrite Hp0 in Ha. injection Ha as <-.
            rewrite Hp1 in Hb. injection Hb as <-.
            apply elem_of_app. right. apply elem_of_app. left. apply Hnear, Hd.
          + cbn [app] in Hsplit. injection Hsplit as _ Hsplit.
            apply elem_of_app. right. apply elem_of_app. right.
            exact (Hpairs l1 a b l2 q0 q1 Hsplit Ha Hb Hd). }
      destruct (Qle_bool (norm fsqrt (psub p1 p0)) (1 # 1000)) eqn:Hshort.
      * apply Hstep; [simpl; lia | intros _; left].
      * assert (1 # 1000 < norm fsqrt (psub p1 p0))%Q as Hdist.
        { apply Qnot_le_lt. intros Hle. apply Qle_bool_iff in Hle. congruence. }
        unfold int_ceil_quotient.
        destruct (Qeq_bool max_dist 0) eqn:Hz; [apply Qeq_bool_iff in Hz; lra|].
        rewrite bind_Ok.
        set (dist := norm fsqrt (psub p1 p0)) in *.
        assert (1 <= Qceiling (dist / max_dist)) as Hnum.
        { apply Qceiling_pos. apply Qlt_shift_div_l; [exact max_dist_pos | lra]. }
        apply Hstep; [rewrite length_map, length_seq; lia | intros Hle; lra].
Qed.

Lemma split_ways_points (ways : list (list nat)) :
  (forall way id,
      way ∈ ways -> (2 <= length way)%nat -> id ∈ way -> is_Some (points !! id)) ->
  forall acc : list point,
  exists new,
    split_ways fsqrt points ways max_dist acc = Ok (acc ++ new)
    /\ (length (concat (List.filter (fun way => (2 <=? length way)%nat) ways))
        <= length new)%nat
    /\ (forall way id p,
           way ∈ ways -> (2 <= length way)%nat -> head way = Some id ->
           points !! id = Some p -> p ∈ new)
    /\ (forall way l1 n0 n1 l2 p0 p1,
           way ∈ ways -> way = l1 ++ n0 :: n1 :: l2 ->
           points !! n0 = Some p0 -> points !! n1 = Some p1 ->
           (norm fsqrt (psub p1 p0) <= 1 # 1000)%Q -> p1 ∈ new).
Proof.
  induction ways as [|way ways IH]; intros Hall acc.
  - exists []. rewrite app_nil_r. split; [reflexivity|]. split; [simpl; lia|]. split.
    + intros way id p Hway. inversion Hway.
    + intros way l1 n0 n1 l2 p0 p1 Hway. inversion Hway.
  - cbn [split_ways List.filter].
    destruct (Nat.leb_spec 2 (length way)) as [Hlen|Hlen].
    + destruct (split_way_points way
                  (fun id Hid => Hall way id (list_elem_of_here _ _) Hlen Hid) O acc)
        as (new1 & -> & _ & Hhead & Hpairs).
      destruct (Hhead eq_refl Hlen) as [Hcount Hfirst].
      rewrite bind_Ok.
      destruct (IH (fun w id Hw => Hall w id (list_elem_of_further _ _ _ Hw))
                  (acc ++ new1)) as (new2 & -> & Hcount2 & Hfirst2 & Hpairs2).
      exists (new1 ++ new2). split; [rewrite <- app_assoc; reflexivity|].
      split; [|split].
      * cbn [concat]. rewrite !length_app. lia.
      * intros w id p Hw Hl Hid Hp. apply elem_of_app.
        apply elem_of_cons in Hw. destruct Hw as [->|Hw].
        -- left. exact (Hfirst id p Hid Hp).
        -- right. exact (Hfirst2 w id p Hw Hl Hid Hp).
      * intros w l1 n0 n1 l2 p0 p1 Hw Hsplit Hp0 Hp1 Hd. apply elem_of_app.
        apply elem_of_cons in Hw. destruct Hw as [->|Hw].
        -- left. exact (Hpairs l1 n0 n1 l2 p0 p1 Hsplit Hp0 Hp1 Hd).
        -- right. exact (Hpairs2 w l1 n0 n1 l2 p0 p1 Hw Hsplit Hp0 Hp1 Hd).
    + rewrite split_way_short by lia. rewrite bind_Ok.
      destruct (IH (fun w id Hw => Hall w id (list_elem_of_further _ _ _ Hw)) acc)
        as (new2 & -> & Hcount2 & Hfirst2 & Hpairs2).
      exists new2. split; [reflexivity|]. split; [exact Hcount2|]. split.
      * intros w id p Hw Hl Hid Hp.
        apply elem_of_cons in Hw. destruct Hw as [->|Hw]; [lia|].
        exact (Hfirst2 w id p Hw Hl Hid Hp).
      * intros w l1 n0 n1 l2 p0 p1 Hw Hsplit Hp0 Hp1 Hd.
        apply elem_of_cons in Hw. destruct Hw as [->|Hw].
        -- subst way. rewrite length_app in Hlen. cbn [length] in Hlen. lia.
        -- exact (Hpairs2 w l1 n0 n1 l2 p0 p1 Hw Hsplit Hp0 Hp1 Hd).
Qed.

End Ways.

(** X21: with a positive step bound, and the coordinates known of every
    node of every way of two nodes or more, [_split_ways] returns.  The ways
    of fewer than two nodes add nothing, wherever they stand in the list:
    without them the result is the same.  Every other way adds a point or
    more for each of its nodes; the point of its first node is among the
    waypoints as it is, and so is the second node of every pair of
    consecutive nodes that are at most 1e-3 apart. *)
Theorem split_ways_point_per_node (fsqrt : Q -> Q) (points : gmap nat point)
    (ways : list (list nat)) (max_dist : Q) :
  (0 < max_dist)%Q ->
  (forall way id,
      way ∈ ways -> (2 <= length way)%nat -> id ∈ way -> is_Some (points !! id)) ->
  exists waypoints,
    split_ways fsqrt points ways max_dist [] = Ok waypoints
    /\ split_ways fsqrt points
         (List.filter (fun way => (2 <=? length way)%nat) ways) max_dist []
       = Ok waypoints
    /\ (length (concat (List.filter (fun way => (2 <=? length way)%nat) ways))
        <= length waypoints)%nat
    /\ (forall way id p,
           way ∈ ways -> (2 <= length way)%nat -> head way = Some id ->
           points !! id = Some p -> p ∈ waypoints)
    /\ (forall way l1 n0 n1 l2 p0 p1,
           way ∈ ways -> way = l1 ++ n0 :: n1 :: l2 ->
           points !! n0 = Some p0 -> points !! n1 = Some p1 ->
           (norm fsqrt (psub p1 p0) <= 1 # 1000)%Q -> p1 ∈ waypoints).
Proof.
  intros Hpos Hall.
  destruct (split_ways_points fsqrt points max_dist Hpos ways Hall [])
    as (new & Heq & Hcount & Hfirst & Hpairs).
  exists new. split; [exact Heq|]. split; [|auto].
  rewrite split_ways_filter. exact Heq.
Qed.

(** * Failures of the replanner *)

Section ReplanNone.

Variable plan : RRTStar -> list Q -> result (option (list point)) * list Q.

Lemma replan_loop_none (path : list point3) :
  forall (indices : list nat) (new_path : list point3) (w w' : rworld),
    replan_loop plan path indices new_path w = (Ok None, w') ->
    exists (i : nat) (a b : point3) (w1 : rworld),
      i ∈ indices /\ path !! i = Some a /\ path !! S i = Some b
      /\ colides (LineString (xy a) (xy b)) (rp_obstacles (r_self w1)) = true
      /\ rrt plan (psub (xy a) (args_low (rp_args (r_self w1))))
           (psub (xy b) (args_low (rp_args (r_self w1))))
           (rp_obstacles (r_self w1)) w1 = (Ok None, w').
Proof.
  induction indices as [|i indices IH]; intros new_path w w' Hloop;
    [discriminate|].
  cbn [replan_loop] in Hloop. unfold path_row in Hloop.
  destruct (path !! i) as [a|] eqn:Ha; [|discriminate].
  destruct (path !! S i) as [b|] eqn:Hb; [|discriminate].
  destruct (colides _ _) eqn:Hcol.
  - destruct (rrt plan _ _ _ w) as [[[way|]| |] w1] eqn:Hrrt; try discriminate.
    + apply IH in Hloop. destruct Hloop as (j & a' & b' & w2 & Hj & H).
      exists j, a', b', w2. split; [right; exact Hj | exact H].
    + injection Hloop as <-. exists i, a, b, w.
      split; [left|]. auto.
  - apply IH in Hloop. destruct Hloop as (j & a' & b' & w2 & Hj & H).
    exists j, a', b', w2. split; [right; exact Hj | exact H].
Qed.

End ReplanNone.

(** X23: [replan_rrt] returns [None] only when some segment of the
    mission path hits an obstacle and the planner run for that segment
    returns [None]; the replanner is then left as that run left it. *)
Theorem replan_rrt_none_only_if_planner_fails
    (plan : RRTStar -> list Q -> result (option (list point)) * list Q)
    (path : list point3) (w w' : rworld) :
  replan_rrt plan path w = (Ok None, w') ->
  exists (i : nat) (a b : point3) (w1 : rworld),
    path !! i = Some a /\ path !! S i = Some b
    /\ colides (LineString (xy a) (xy b)) (rp_obstacles (r_self w1)) = true
    /\ rrt plan (psub (xy a) (args_low (rp_args (r_self w1))))
         (psub (xy b) (args_low (rp_args (r_self w1))))
         (rp_obstacles (r_self w1)) w1 = (Ok None, w').
Proof.
  unfold replan_rrt. intros Hres.
  destruct (replan_loop plan path (seq 0 (length path - 1)) [] w)
    as [[[np'|]| |] w1] eqn:Hloop; try discriminate.
  - destruct (last path); discriminate.
  - injection Hres as <-. apply replan_loop_none in Hloop.
    destruct Hloop as (i & a & b & w2 & _ & H). exists i, a, b, w2. exact H.
Qed.

(** X24: before [fill_grid] the grid points have no cost column: for a
    positive cell size, [_reshape_grid] on the replanner [__init__] returns
    raises [IndexError], and so does [_rrt], whatever the planner. *)
Theorem reshape_grid_needs_fill_grid (args : Args) (obs : list obstacle)
    (rp0 : ReplanPath) :
  (0 < args_cell_size args)%Q ->
  ReplanPath_init args obs = Ok rp0 ->
  reshape_grid rp0 = Raise IndexError
  /\ forall plan s t o tape,
      rrt plan s t o {| r_self := rp0; r_tape := tape |}
      = (Raise IndexError, {| r_self := rp0; r_tape := tape |}).
Proof.
  intros Hcell Hinit.
  assert (reshape_grid rp0 = Raise IndexError) as Hreshape.
  { unfold ReplanPath_init in Hinit.
    apply bind_Ok_inv in Hinit. destruct Hinit as (t0 & Hcreate & [= <-]).
    destruct (create_grid_rows _ _ _ _ Hcreate) as (Hw0 & _ & _).
    assert (Qeq_bool (args_cell_size args) 0 = false) as Hnz.
    { destruct (Qeq_bool _ 0) eqn:E; [|reflexivity]. apply Qeq_bool_iff in E. lra. }
    unfold create_grid, ceil_astype_int in Hcreate. rewrite Hnz in Hcreate.
    apply bind_Ok_inv in Hcreate. destruct Hcreate as (xs & Hxs & Hcreate).
    apply bind_Ok_inv in Hcreate. destruct Hcreate as (ys & Hys & _).
    apply linspace_length in Hxs, Hys. destruct Hxs as [Hx0 _], Hys as [Hy0 _].
    unfold reshape_grid, int_ceil_quotient. cbn [rp_args rp_grid].
    rewrite Hnz, !bind_Ok.
    destruct (Z.ltb_spec (Qceiling ((fst (args_high args) - fst (args_low args))
                                    / args_cell_size args)) 0); [lia|].
    destruct (Z.ltb_spec (Qceiling ((snd (args_high args) - snd (args_low args))
                                    / args_cell_size args)) 0); [lia|].
    cbn [orb]. rewrite (column_rows t0 0), (column_rows t0 1) by (rewrite Hw0; lia).
    rewrite !bind_Ok. unfold column. rewrite Hw0. reflexivity. }
  split; [exact Hreshape|].
  intros plan s t o tape. unfold rrt. cbn [r_self]. rewrite Hreshape. reflexivity.
Qed.

(** * Runs of the replanner *)

Lemma wall_respects_value (c h : Q) : respects_value (wall c h).
Proof.
  intros g1 g2 Heqv. split; [reflexivity|].
  destruct g1 as [p|a b], g2 as [q|a' b']; simpl in Heqv; try contradiction;
    [reflexivity|].
  destruct Heqv as [Ha Hb]. apply point_eqb_iff in Ha, Hb.
  destruct Ha as [Hax Hay], Hb as [Hbx Hby].
  unfold wall, intersects, Qltb. rewrite Hax, Hay, Hbx, Hby. reflexivity.
Qed.

(** A path that stays left of the wall comes back unchanged, and the
    random numbers are all still there. *)
Lemma replan_rrt_keeps_free_path_run :
  replan_rrt (fun cfg => run approx_sqrt cfg 20) clear_path (demo_world detour_tape)
  = (Ok (Some clear_path), demo_world detour_tape).
Proof.
  apply (replan_rrt_keeps_free_path (fun cfg => run approx_sqrt cfg 20) clear_path
           (demo_world detour_tape)).
  - discriminate.
  - intros i a b Ha Hb.
    destruct i as [|[|i]]; simpl in Ha, Hb; try discriminate;
      injection Ha as <-; injection Hb as <-; reflexivity.
Defined.

Lemma detour_run :
  exists res,
    replan_rrt (fun cfg => run approx_sqrt cfg 20) blocked_path (demo_world detour_tape)
    = (Ok (Some res),
       (replan_rrt (fun cfg => run approx_sqrt cfg 20) blocked_path
          (demo_world detour_tape)).2).
Proof.
  assert (exists res,
             (replan_rrt (fun cfg => run approx_sqrt cfg 20) blocked_path
                (demo_world detour_tape)).1 = Ok (Some res)) as [res Hres]
      by (vm_compute; eauto).
  exists res. rewrite <- Hres. apply surjective_pairing.
Qed.

(** The detour over the wall keeps the two waypoints. *)
Lemma replan_rrt_keeps_waypoints_run :
  exists res,
    (replan_rrt (fun cfg => run approx_sqrt cfg 20) blocked_path
       (demo_world detour_tape)).1 = Ok (Some res)
    /\ blocked_path `sublist_of` res
    /\ head res = head blocked_path /\ last res = last blocked_path.
Proof.
  destruct detour_run as [res Hres]. exists res.
  split; [rewrite Hres; reflexivity|].
  exact (replan_rrt_keeps_waypoints _ blocked_path res _ _ Hres).
Defined.

Lemma rrt_returns_free_path_run :
  exists way,
    (rrt (fun cfg => run approx_sqrt cfg 20) ((3 # 2)%Q, (3 # 2)%Q)
       ((5 # 2)%Q, (3 # 2)%Q) (rp_obstacles demo_replanner)
       (demo_world detour_tape)).1 = Ok (Some way)
    /\ head way = Some (to_world (0%Q, 0%Q) ((3 # 2)%Q, (3 # 2)%Q))
    /\ (exists a, last way = Some (to_world (0%Q, 0%Q) a)
                  /\ point_eqb a ((5 # 2)%Q, (3 # 2)%Q) = true)
    /\ free_chain (rp_obstacles demo_replanner) way
    /\ Forall (fun p : point3 => p.2 = 0%Q) way.
Proof.
  assert (exists way,
             (rrt (fun cfg => run approx_sqrt cfg 20) ((3 # 2)%Q, (3 # 2)%Q)
                ((5 # 2)%Q, (3 # 2)%Q) (rp_obstacles demo_replanner)
                (demo_world detour_tape)).1 = Ok (Some way)) as [way Hway]
      by (vm_compute; eauto).
  exists way. split; [exact Hway|].
  apply (rrt_returns_free_path approx_sqrt 20 ((3 # 2)%Q, (3 # 2)%Q)
           ((5 # 2)%Q, (3 # 2)%Q) (rp_obstacles demo_replanner)
           (demo_world detour_tape)
           (rrt (fun cfg => run approx_sqrt cfg 20) ((3 # 2)%Q, (3 # 2)%Q)
              ((5 # 2)%Q, (3 # 2)%Q) (rp_obstacles demo_replanner)
              (demo_world detour_tape)).2).
  rewrite <- Hway. apply surjective_pairing.
Defined.

Lemma replan_rrt_returns_free_path_run :
  exists res,
    (replan_rrt (fun cfg => run approx_sqrt cfg 20) blocked_path
       (demo_world detour_tape)).1 = Ok (Some res)
    /\ free_chain (rp_obstacles demo_replanner) res.
Proof.
  destruct detour_run as [res Hres]. exists res.
  split; [rewrite Hres; reflexivity|].
  refine (replan_rrt_returns_free_path approx_sqrt 20 blocked_path res
            (demo_world detour_tape) _ _ _ Hres).
  - constructor; [apply wall_respects_value | constructor].
  - intros i a b Ha Hb _.
    destruct i as [|i]; simpl in Ha, Hb; [|destruct i; discriminate].
    injection Ha as <-. injection Hb as <-. reflexivity.
Defined.

(** Sixteen grid points, a footway along the lower edge. *)
Lemma replan_cost_grid_in_unit_interval_run :
  exists rp1 g,
    (ReplanPath_init demo_args [] ≫= fun rp0 =>
       fill_grid approx_sqrt rp0 demo_points demo_ways) = Ok rp1
    /\ reshape_grid rp1 = Ok g
    /\ shape0 g = 4%nat /\ shape1 g = 4%nat
    /\ (forall i j, 0 <= item g i j <= 1)%Q.
Proof.
  destruct (ReplanPath_init demo_args []) as [rp0| |] eqn:Hinit;
    try (vm_compute in Hinit; discriminate).
  destruct (fill_grid approx_sqrt rp0 demo_points demo_ways) as [rp1| |] eqn:Hfill.
  - destruct (replan_cost_grid_in_unit_interval approx_sqrt demo_args []
                demo_points demo_ways rp0 rp1 approx_sqrt_nonneg eq_refl Hinit Hfill)
      as (g & Hg & H0 & H1 & Hrange & _).
    exists rp1, g. rewrite bind_Ok. auto.
  - exfalso. revert Hfill. vm_compute in Hinit. injection Hinit as <-.
    vm_compute. discriminate.
  - exfalso. revert Hfill. vm_compute in Hinit. injection Hinit as <-.
    vm_compute. discriminate.
Defined.

(** Three ways, of one node, of two and of none; node 5 has no
    coordinates. *)
Lemma split_ways_point_per_node_run :
  exists waypoints,
    split_ways approx_sqrt demo_points [[5%nat]; [O; 1%nat]; []] 1 [] = Ok waypoints
    /\ split_ways approx_sqrt demo_points
         (List.filter (fun way => (2 <=? length way)%nat) [[5%nat]; [O; 1%nat]; []])
         1 []
       = Ok waypoints
    /\ (length (concat (List.filter (fun way => (2 <=? length way)%nat)
                          [[5%nat]; [O; 1%nat]; []]))
        <= length waypoints)%nat
    /\ (forall way id p,
           way ∈ [[5%nat]; [O; 1%nat]; []] -> (2 <= length way)%nat ->
           head way = Some id -> demo_points !! id = Some p -> p ∈ waypoints)
    /\ (forall way l1 n0 n1 l2 p0 p1,
           way ∈ [[5%nat]; [O; 1%nat]; []] -> way = l1 ++ n0 :: n1 :: l2 ->
           demo_points !! n0 = Some p0 -> demo_points !! n1 = Some p1 ->
           (norm approx_sqrt (psub p1 p0) <= 1 # 1000)%Q -> p1 ∈ waypoints).
Proof.
  apply (split_ways_point_per_node approx_sqrt demo_points
           [[5%nat]; [O; 1%nat]; []] 1).
  - reflexivity.
  - intros way id Hway Hlen Hid.
    apply elem_of_cons in Hway. destruct Hway as [->|Hway]; [simpl in Hlen; lia|].
    apply elem_of_cons in Hway. destruct Hway as [->|Hway].
    + apply elem_of_cons in Hid. destruct Hid as [->|Hid]; [vm_compute; eauto|].
      apply list_elem_of_singleton in Hid. subst id. vm_compute. eauto.
    + apply list_elem_of_singleton in Hway. subst way. simpl in Hlen. lia.
Defined.

(** The first draw lands in the middle of the ten by ten grid. *)
Lemma sample_point_in_extent_run :
  in_extent near_planner
    ((0 + (inject_Z 10 * 1 - 0) * (1 # 2))%Q, (0 + (inject_Z 10 * 1 - 0) * (1 # 2))%Q).
Proof.
  apply (sample_point_in_extent near_planner 3
           (init_world near_planner [1 # 2; 1 # 2]%Q)
           (sample_point near_planner 3 (init_world near_planner [1 # 2; 1 # 2]%Q)).2).
  - discriminate.
  - repeat constructor; discriminate.
  - reflexivity.
Defined.

(** Five thousand rounds that all step from the start toward the goal,
    into the wall. *)
Lemma replan_rrt_none_only_if_planner_fails_run :
  exists (i : nat) (a b : point3) (w1 : rworld),
    blocked_path !! i = Some a /\ blocked_path !! S i = Some b
    /\ colides (LineString (xy a) (xy b)) (rp_obstacles (r_self w1)) = true
    /\ rrt (fun cfg => run approx_sqrt cfg 20)
         (psub (xy a) (args_low (rp_args (r_self w1))))
         (psub (xy b) (args_low (rp_args (r_self w1))))
         (rp_obstacles (r_self w1)) w1
       = (Ok None,
          (replan_rrt (fun cfg => run approx_sqrt cfg 20) blocked_path
             (demo_world goal_tape)).2).
Proof.
  apply (replan_rrt_none_only_if_planner_fails (fun cfg => run approx_sqrt cfg 20)
           blocked_path (demo_world goal_tape)).
  assert ((replan_rrt (fun cfg => run approx_sqrt cfg 20) blocked_path
             (demo_world goal_tape)).1 = Ok None) as Hfst by (vm_compute; reflexivity).
  rewrite <- Hfst. apply surjective_pairing.
Defined.

Lemma reshape_grid_needs_fill_grid_run :
  exists rp0,
    ReplanPath_init demo_args [] = Ok rp0
    /\ reshape_grid rp0 = Raise IndexError.
Proof.
  destruct (ReplanPath_init demo_args []) as [rp0| |] eqn:Hinit;
    try (vm_compute in Hinit; discriminate).
  exists rp0. split; [reflexivity|].
  exact (proj1 (reshape_grid_needs_fill_grid demo_args [] rp0 eq_refl Hinit)).
Defined.

(** * More runs of the model *)

Lemma approx_sqrt_zero (q : Q) : (q == 0)%Q -> (approx_sqrt q == 0)%Q.
Proof. intros Hq. unfold approx_sqrt. rewrite Hq. reflexivity. Qed.

Lemma near_planner_run :
  find_path approx_sqrt near_planner 5 (init_world near_planner [0]%Q)
  = (Ok (Some [((1 # 2)%Q, (1 # 2)%Q); ((12000 # 8000)%Q, (4000 # 8000)%Q)]),
     (find_path approx_sqrt near_planner 5 (init_world near_planner [0]%Q)).2).
Proof.
  assert ((find_path approx_sqrt near_planner 5 (init_world near_planner [0]%Q)).1
          = Ok (Some [((1 # 2)%Q, (1 # 2)%Q); ((12000 # 8000)%Q, (4000 # 8000)%Q)]))
    as Hfst by (vm_compute; reflexivity).
  rewrite <- Hfst. apply surjective_pairing.
Qed.

Lemma near_planner_extent (x y : Q) :
  Qle_bool 0 x && Qle_bool x 10 && Qle_bool 0 y && Qle_bool y 10 = true ->
  in_extent near_planner (x, y).
Proof.
  rewrite !andb_true_iff. intros [[[H1 H2] H3] H4].
  apply Qle_bool_iff in H1, H2, H3, H4.
  unfold in_extent, extent_x, extent_y. cbn [fst snd grid near_planner planner_on
    const_grid shape0 shape1 grid_scale].
  change (inject_Z (Z.of_nat 10) * 1)%Q with (10 * 1)%Q. split; split; lra.
Qed.

(** The tree of the run that reaches the goal in its first round: three
    nodes, each with its parent and cost entries. *)
Lemma find_path_keeps_tree_well_formed_run :
  well_formed
    (w_tree (find_path approx_sqrt near_planner 5 (init_world near_planner [0]%Q)).2)
  /\ exists suffix,
      nodes (w_tree (find_path approx_sqrt near_planner 5
                       (init_world near_planner [0]%Q)).2)
      = start near_planner :: suffix
      /\ (length suffix <= max_iter near_planner + 1)%nat.
Proof.
  exact (find_path_keeps_tree_well_formed approx_sqrt near_planner 5 [0]%Q _ _
           near_planner_run).
Defined.

Lemma find_path_never_raises_KeyError_run :
  (find_path approx_sqrt near_planner 5 (init_world near_planner [0]%Q)).1
  <> Raise KeyError.
Proof.
  exact (find_path_never_raises_KeyError approx_sqrt near_planner 5 [0]%Q
           approx_sqrt_zero).
Defined.

(** A segment along the lower boundary of the ten by ten grid. *)
Lemma is_collision_total_on_square_grid_run :
  exists r,
    is_collision near_planner ((1 # 2)%Q, 0%Q) (Some (10%Q, (1 # 2)%Q)) = Ok r.
Proof.
  apply (is_collision_total_on_square_grid near_planner).
  - reflexivity.
  - simpl. lia.
  - reflexivity.
  - apply near_planner_extent. reflexivity.
  - apply near_planner_extent. reflexivity.
Defined.

(** One step of length 1 toward a target three units away. *)
Lemma steer_stays_on_segment_run :
  exists (r : point) (k : Q),
    steer approx_sqrt near_planner ((1 # 2)%Q, (1 # 2)%Q) ((7 # 2)%Q, (1 # 2)%Q) = Ok r
    /\ (0 < k)%Q /\ (k <= 1)%Q
    /\ (fst r == (1 # 2) + k * ((7 # 2) - (1 # 2)))%Q
    /\ (snd r == (1 # 2) + k * ((1 # 2) - (1 # 2)))%Q
    /\ (Qltb (norm approx_sqrt (psub ((7 # 2)%Q, (1 # 2)%Q) ((1 # 2)%Q, (1 # 2)%Q)))
             (step_size near_planner) = true ->
        r = ((7 # 2)%Q, (1 # 2)%Q)).
Proof.
  apply (steer_stays_on_segment approx_sqrt near_planner
           ((1 # 2)%Q, (1 # 2)%Q) ((7 # 2)%Q, (1 # 2)%Q)).
  reflexivity.
Defined.

Lemma find_path_never_raises_on_square_grid_run :
  (find_path approx_sqrt near_planner 5 (init_world near_planner [0]%Q)).1
  <> Raise IndexError.
Proof.
  apply (find_path_never_raises_on_square_grid approx_sqrt near_planner 5 [0]%Q
           IndexError).
  - reflexivity.
  - simpl. lia.
  - reflexivity.
  - reflexivity.
  - apply near_planner_extent. reflexivity.
  - apply near_planner_extent. reflexivity.
  - constructor; [split; discriminate | constructor].
  - exact approx_sqrt_zero.
Defined.

(** The middle point of the straight path is dropped. *)
Lemma simplify_path_returns_free_subsequence_run :
  [((1 # 2)%Q, (1 # 2)%Q); ((5 # 2)%Q, (1 # 2)%Q)] `sublist_of` straight_path
  /\ head [((1 # 2)%Q, (1 # 2)%Q); ((5 # 2)%Q, (1 # 2)%Q)] = head straight_path
  /\ (exists a f, last [((1 # 2)%Q, (1 # 2)%Q); ((5 # 2)%Q, (1 # 2)%Q)] = Some a
                  /\ last straight_path = Some f /\ point_eqb a f = true)
  /\ segments_free near_planner [((1 # 2)%Q, (1 # 2)%Q); ((5 # 2)%Q, (1 # 2)%Q)].
Proof.
  apply (simplify_path_returns_free_subsequence near_planner 3 straight_path).
  vm_compute. reflexivity.
Defined.

(** The second node of [two_node_world] is a cheaper parent for (2, 1/2)
    than an initial candidate of cost 5. *)
Lemma choose_parent_picks_cheapest_run :
  exists (c : Q) (p : nat),
    choose_parent approx_sqrt near_planner (w_tree two_node_world)
      (2%Q, (1 # 2)%Q) [1%nat] 5%Q O = Ok (c, p)
    /\ (c <= 5)%Q /\ p = 1%nat.
Proof.
  destruct (choose_parent approx_sqrt near_planner (w_tree two_node_world)
              (2%Q, (1 # 2)%Q) [1%nat] 5%Q O) as [[c p]| |] eqn:Hch;
    try (vm_compute in Hch; discriminate).
  exists c, p. split; [reflexivity|].
  destruct (choose_parent_picks_cheapest approx_sqrt near_planner
              (w_tree two_node_world) (2%Q, (1 # 2)%Q) [1%nat] 5%Q O c p Hch)
    as (Hle & _ & _).
  split; [exact Hle|]. vm_compute in Hch. injection Hch as _ <-. reflexivity.
Defined.

Lemma find_path_costs_cover_edges_run :
  costs_cover_edges approx_sqrt near_planner
    (w_tree (find_path approx_sqrt near_planner 5 (init_world near_planner [0]%Q)).2).
Proof.
  exact (find_path_costs_cover_edges approx_sqrt near_planner 5 [0]%Q _ _
           approx_sqrt_zero near_planner_run).
Defined.

(** Two boxes, in either order. *)
Lemma is_collision_obstacle_order_irrelevant_run :
  is_collision
    (with_obstacles near_planner
       [box (4%Q, 4%Q) (5%Q, 5%Q); box (1%Q, 0%Q) (2%Q, 1%Q)])
    ((1 # 2)%Q, (1 # 2)%Q) (Some ((3 # 2)%Q, (1 # 2)%Q))
  = is_collision
      (with_obstacles near_planner
         [box (1%Q, 0%Q) (2%Q, 1%Q); box (4%Q, 4%Q) (5%Q, 5%Q)])
      ((1 # 2)%Q, (1 # 2)%Q) (Some ((3 # 2)%Q, (1 # 2)%Q)).
Proof.
  apply (is_collision_obstacle_order_irrelevant
           (with_obstacles near_planner
              [box (1%Q, 0%Q) (2%Q, 1%Q); box (4%Q, 4%Q) (5%Q, 5%Q)])
           [box (4%Q, 4%Q) (5%Q, 5%Q); box (1%Q, 0%Q) (2%Q, 1%Q)]).
  apply perm_swap.
Defined.

(** A round that keeps its candidate, on the open grid, and a round that
    rejects it: the candidate lies in the box and the grid costs 1 there. *)
Lemma candidate_accepted_iff_free_or_cheap_run :
  (exists new_point,
      steer approx_sqrt near_planner ((1 # 2)%Q, (1 # 2)%Q) ((3 # 2)%Q, (1 # 2)%Q)
      = Ok new_point
      /\ propose approx_sqrt near_planner 1 (init_world near_planner [0]%Q)
         = (Ok (0%nat, ((1 # 2)%Q, (1 # 2)%Q), new_point),
            init_world near_planner []))
  /\ propose approx_sqrt
       (with_obstacles costly_planner [box (0%Q, 0%Q) (3%Q, 3%Q)]) 2
       (init_world (with_obstacles costly_planner [box (0%Q, 0%Q) (3%Q, 3%Q)])
          [0; 0]%Q)
     = propose approx_sqrt
         (with_obstacles costly_planner [box (0%Q, 0%Q) (3%Q, 3%Q)]) 1
         (init_world (with_obstacles costly_planner [box (0%Q, 0%Q) (3%Q, 3%Q)])
            [0]%Q).
Proof.
  split.
  - destruct (candidate_accepted_iff_free_or_cheap approx_sqrt near_planner)
      as [Hround _].
    destruct (steer approx_sqrt near_planner ((1 # 2)%Q, (1 # 2)%Q)
                ((3 # 2)%Q, (1 # 2)%Q))
      as [new_point| |] eqn:Hsteer; try (vm_compute in Hsteer; discriminate).
    exists new_point. split; [reflexivity|].
    refine (proj2 (proj1 (Hround 0%nat (init_world near_planner [0]%Q)
                            (init_world near_planner []) (init_world near_planner [])
                            0%Q ((3 # 2)%Q, (1 # 2)%Q) 0%nat
                            ((1 # 2)%Q, (1 # 2)%Q) new_point
                            _ _ _ _ Hsteer)) _);
      try (vm_compute; reflexivity).
    vm_compute in Hsteer. injection Hsteer as <-.
    left. vm_compute. reflexivity.
  - destruct (candidate_accepted_iff_free_or_cheap approx_sqrt
                (with_obstacles costly_planner [box (0%Q, 0%Q) (3%Q, 3%Q)]))
      as [Hround _].
    set (P := with_obstacles costly_planner [box (0%Q, 0%Q) (3%Q, 3%Q)]).
    destruct (steer approx_sqrt P ((1 # 2)%Q, (1 # 2)%Q) ((5 # 2)%Q, (5 # 2)%Q))
      as [new_point| |] eqn:Hsteer; try (vm_compute in Hsteer; discriminate).
    refine (proj1 (proj2 (Hround 1%nat (init_world P [0; 0]%Q)
                            (init_world P [0]%Q) (init_world P [0]%Q)
                            0%Q ((5 # 2)%Q, (5 # 2)%Q) 0%nat
                            ((1 # 2)%Q, (1 # 2)%Q) new_point
                            _ _ _ _ Hsteer)) _);
      try (vm_compute; reflexivity).
    vm_compute in Hsteer. injection Hsteer as <-.
    split; [vm_compute; reflexivity|].
    exists 1%Q. split; [vm_compute; reflexivity|]. vm_compute. discriminate.
Defined.
